(** * QR code renderer: a shallow embedding of [qr_code_app.py]

    The development follows the two core functions of the program,
    [hex_to_rgb] and [create_qr_image], and the call that [main] makes of
    them.  Python exceptions are the [Raise]
    results of an error monad.  The caller's logo object, which
    [create_qr_image] resizes in place, is threaded explicitly: the function
    returns its outcome together with the logo object as the call leaves it.

    Numbers.  Python integers are [Z] and Python floats are binary64
    floats.  The size bound of the logo and the colors of the gradient rings
    are computed in binary64 as the program computes them.  Three products by
    constants are written with integers, to which they are equal for every
    size up to 65536 ([grad_size_binary64], [corner_radius_binary64],
    [border_width_binary64]): [int(n * 0.75)], [int(n * 1.2)] and
    [int(n * 0.2)] are the truncated quotients of [3n] by [4], [6n] by [5]
    and [n] by [5].  The
    distances of the halo are compared through their squares, and its faded
    value is the integer square root expression that the truncated quotient
    equals.  The size arithmetic inside the library's [thumbnail] is taken
    over the rationals, and the choice that the library makes in binary64
    between the two whole lengths around a proportional length is left to
    the library.

    Texts.  A [string] stands for the Python text of the same characters,
    all below U+0100; [Text.hex_to_rgb] reads a text of any code points,
    with the rows of the Unicode database as a parameter.

    Integers of the library.  The color channels, sizes and coordinates
    that reach the library are taken within the 32-bit integers of its C
    code; beyond them the library raises [OverflowError], which the
    embedding does not follow. *)

From Stdlib Require Import ZArith NArith QArith Qround Qabs.
From Stdlib Require Import String Ascii List Bool Lia.
From Stdlib Require Import Floats.
Import ListNotations.
Set Warnings "-inexact-float".
Local Open Scope Z_scope.

(** ** Python values and exceptions *)

Module Py.

Inductive exn : Type :=
| ValueError
| IndexError
| ZeroDivisionError
| OverflowError.

Inductive result (A : Type) : Type :=
| Ok (a : A)
| Raise (e : exn).
Arguments Ok {A} a.
Arguments Raise {A} e.

Definition bind {A B : Type} (m : result A) (k : A -> result B) : result B :=
  match m with
  | Ok a => k a
  | Raise e => Raise e
  end.

(** [for x in xs: s = body(x, s)] *)
Fixpoint for_each {A S : Type} (xs : list A) (body : A -> S -> result S)
  (s : S) : result S :=
  match xs with
  | [] => Ok s
  | x :: xs' => bind (body x s) (for_each xs' body)
  end.

(** [range(n)] *)
Definition range (n : Z) : list Z :=
  map Z.of_nat (seq 0 (Z.to_nat n)).

(** [float(n)] for an integer below [2^63] in absolute value, rounded to
    the nearest float; exact below [2^53]. *)
Definition float_of_int (n : Z) : float :=
  if n <? 0 then PrimFloat.opp (PrimFloat.of_uint63 (Uint63.of_Z (- n)))
  else PrimFloat.of_uint63 (Uint63.of_Z n).

(** [int(f)]: truncation toward zero; an infinity and a NaN raise. *)
Definition int_of_float (f : float) : result Z :=
  match Prim2SF f with
  | S754_zero _ => Ok 0
  | S754_infinity _ => Raise OverflowError
  | S754_nan => Raise ValueError
  | S754_finite s m e =>
      let a := if 0 <=? e then Z.pos m * 2 ^ e else Z.pos m / 2 ^ (- e) in
      Ok (if s then - a else a)
  end.

(** [s.lstrip(c)] for a one-character set *)
Fixpoint lstrip (c : ascii) (s : string) : string :=
  match s with
  | String a s' => if Ascii.eqb a c then lstrip c s' else s
  | EmptyString => s
  end.

Definition code (c : ascii) : Z := Z.of_N (N_of_ascii c).

(** White space that [int] skips at both ends of its argument: the six
    ASCII characters of [Py_ISSPACE], and NEL and NBSP, which
    the conversion of a non-ASCII string turns into blanks. *)
Definition isspace (c : ascii) : bool :=
  let n := code c in
  ((9 <=? n) && (n <=? 13)) || (n =? 32) || (n =? 133) || (n =? 160).

(** The digit table of [int]: 37 stands for "not a digit". *)
Definition digit_value (c : ascii) : Z :=
  let n := code c in
  if (48 <=? n) && (n <=? 57) then n - 48
  else if (97 <=? n) && (n <=? 122) then n - 87
  else if (65 <=? n) && (n <=? 90) then n - 55
  else 37.

Fixpoint skip_space (s : string) : string :=
  match s with
  | String a s' => if isspace a then skip_space s' else s
  | EmptyString => s
  end.

Definition is_underscore (c : ascii) : bool := Ascii.eqb c "_"%char.

(** The digit scan: digits below [base] with single underscores between
    them.  [prev] tells that the previous character was an underscore,
    [seen] that a character was consumed.  The result is the value read
    and the rest of the text; [None] is a syntax error. *)
Fixpoint scan_digits (base : Z) (prev seen : bool) (acc : Z) (s : string)
  : option (Z * bool * string) :=
  match s with
  | String a s' =>
      if is_underscore a then
        if prev then None else scan_digits base true true acc s'
      else if digit_value a <? base then
        scan_digits base false true (acc * base + digit_value a) s'
      else if prev then None else Some (acc, seen, s)
  | EmptyString => if prev then None else Some (acc, seen, s)
  end.

(** The literal syntax of [int(s, 16)]: blanks, a sign, an optional
    [0x] prefix that one underscore may follow, the digits, blanks.  The
    text is one that a [string] holds: its characters lie below U+0100. *)
Definition parse_int16 (s : string) : option Z :=
  let s := skip_space s in
  let '(sign, s) :=
    match s with
    | String "+" s' => (1, s')
    | String "-" s' => (-1, s')
    | _ => (1, s)
    end in
  let s :=
    match s with
    | String "0" (String "x" s') | String "0" (String "X" s') =>
        match s' with
        | String "_" s'' => s''
        | _ => s'
        end
    | _ => s
    end in
  match s with
  | String "_" _ => None
  | _ =>
      match scan_digits 16 false false 0 s with
      | None => None
      | Some (v, seen, rest) =>
          if seen then
            match skip_space rest with
            | EmptyString => Some (sign * v)
            | String _ _ => None
            end
          else None
      end
  end.

(** [int(s, 16)] *)
Definition int16 (s : string) : result Z :=
  match parse_int16 s with
  | Some v => Ok v
  | None => Raise ValueError
  end.

End Py.
Import Py.

Notation "x <- m ;; k" := (Py.bind m (fun x => k))
  (at level 61, m at next level, right associativity).

(** ** Color utilities *)

Definition RGB : Type := Z * Z * Z.

(** Lines 10-13, on a text whose characters lie below U+0100.  The slices
    [hex_color[i:i+2]] are [substring i 2]. *)
Definition hex_to_rgb (hex_color : string) : result RGB :=
  let hex_color := lstrip "#" hex_color in
  r <- int16 (substring 0 2 hex_color) ;;
  g <- int16 (substring 2 2 hex_color) ;;
  b <- int16 (substring 4 2 hex_color) ;;
  Ok (r, g, b).

Definition is_hex (c : ascii) : bool := digit_value c <? 16.

(** ** Texts of any characters

    A [string] holds characters below U+0100 only, and [hex_to_rgb] above
    is the function on the texts that a [string] stands for.  A Python text
    is a sequence of code points: this is the function once more, on all of
    them.  Before [int] reads a text that is not ASCII it replaces white
    space and the decimal digits of every script by their ASCII
    counterparts. *)

Module Text.

(** A Python [str]: the list of its code points. *)
Definition text : Type := list N.

(** What the Unicode database tells [int] about the code points from 127
    on: which are white space, and the value, from 0 to 9, of those that
    are decimal digits. *)
Class Unicode : Type := {
  is_whitespace : N -> bool;
  to_decimal : N -> option N
}.

(** [t.lstrip(c)] for a one-character set *)
Fixpoint lstrip (c : N) (t : text) : text :=
  match t with
  | a :: t' => if (a =? c)%N then lstrip c t' else t
  | [] => t
  end.

(** [t[i:i+n]] *)
Definition slice (i n : nat) (t : text) : text := firstn n (skipn i t).

Definition is_ascii (t : text) : bool := forallb (fun c => (c <? 128)%N) t.

Fixpoint as_string (t : text) : string :=
  match t with
  | c :: t' => String (ascii_of_N c) (as_string t')
  | [] => EmptyString
  end.

(** What [int] makes of a text that is not ASCII before it reads it: white
    space becomes a blank and a decimal digit of any script the ASCII digit
    of its value; the text stops with a question mark at the first
    character from 127 on that is neither. *)
Fixpoint transform `{Unicode} (t : text) : string :=
  match t with
  | c :: t' =>
      if (c <? 127)%N then String (ascii_of_N c) (transform t')
      else if is_whitespace c then String " " (transform t')
      else match to_decimal c with
           | Some d => String (ascii_of_N (48 + d)) (transform t')
           | None => String "?" EmptyString
           end
  | [] => EmptyString
  end.

(** [int(t, 16)]: an ASCII text is read as it is. *)
Definition int16 `{Unicode} (t : text) : result Z :=
  Py.int16 (if is_ascii t then as_string t else transform t).

(** Lines 10-13, on a text of any characters. *)
Definition hex_to_rgb `{Unicode} (hex_color : text) : result RGB :=
  let hex_color := lstrip 35 hex_color in
  r <- int16 (slice 0 2 hex_color) ;;
  g <- int16 (slice 2 2 hex_color) ;;
  b <- int16 (slice 4 2 hex_color) ;;
  Ok (r, g, b).

End Text.

(** ** The imaging library

    The part of Pillow that the program calls.  An image is its mode, its
    size and its pixels; a pixel is the list of its band values.  Reading
    outside the size of an image has no meaning in the program and the
    theorems never look there. *)

Module PIL.

Inductive Mode : Type := L | ModeRGB | RGBA.

Definition Mode_eqb (a b : Mode) : bool :=
  match a, b with
  | L, L | ModeRGB, ModeRGB | RGBA, RGBA => true
  | _, _ => false
  end.

Definition Pixel : Type := list Z.

Record Image : Type := mkImage {
  mode : Mode;
  width : Z;
  height : Z;
  getpixel : Z -> Z -> Pixel
}.

Definition size (im : Image) : Z * Z := (width im, height im).

(** A bounding box [(x0, y0, x1, y1)]; ImageDraw includes both corners. *)
Definition Box : Type := Z * Z * Z * Z.

Definition in_box (b : Box) (x y : Z) : bool :=
  let '(x0, y0, x1, y1) := b in
  (x0 <=? x) && (x <=? x1) && (y0 <=? y) && (y <=? y1).

Definition inside (im : Image) (x y : Z) : bool :=
  (0 <=? x) && (x <? width im) && (0 <=? y) && (y <? height im).

(** What the library computes in floating point or in its rasterizers is
    left open: the resampling filter of [resize], the pixels that a filled
    ellipse and a filled rounded rectangle cover, and, in [thumbnail], which
    of the two whole lengths around the proportional one keeps the aspect
    ratio better ([nearer_floor w h x y], for an image of [w] by [h] and a
    request of [x] by [y]).  A drawing primitive answers [None] when the
    library refuses the box. *)
Class Backend : Type := {
  resize_lanczos : Image -> Z * Z -> Z -> Z -> Pixel;
  ellipse_region : Box -> option (Z -> Z -> bool);
  rounded_region : Box -> Z -> option (Z -> Z -> bool);
  nearer_floor : Z -> Z -> Z -> Z -> bool
}.

Definition clip8 (v : Z) : Z := Z.max 0 (Z.min 255 v).

(** The ink of an RGB color in an image of the given mode: bands are
    clipped to a byte, and the alpha band of an RGBA image is opaque.  The
    channels are taken within the integers of the library's C code. *)
Definition getink (m : Mode) (c : RGB) : Pixel :=
  let '(r, g, b) := c in
  match m with
  | L => [clip8 ((r * 299 + g * 587 + b * 114) / 1000)]
  | ModeRGB => [clip8 r; clip8 g; clip8 b]
  | RGBA => [clip8 r; clip8 g; clip8 b; 255]
  end.

(** [Image.new(mode, size, ink)], for a size within the integers of the
    library's C code *)
Definition new (m : Mode) (sz : Z * Z) (ink : Pixel) : result Image :=
  if (fst sz <? 0) || (snd sz <? 0) then Raise ValueError
  else Ok (mkImage m (fst sz) (snd sz) (fun _ _ => ink)).

(** [pixels[x, y] = ink] through the access object of [im.load()]: a
    negative index counts from the far edge, and an index outside the
    image raises. *)
Definition putpixel (im : Image) (xy : Z * Z) (ink : Pixel) : result Image :=
  let x := if fst xy <? 0 then width im + fst xy else fst xy in
  let y := if snd xy <? 0 then height im + snd xy else snd xy in
  if inside im x y then
    Ok (mkImage (mode im) (width im) (height im)
          (fun x' y' => if (x' =? x) && (y' =? y) then ink
                        else getpixel im x' y'))
  else Raise IndexError.

(** [im.convert(mode)] on one pixel *)
Definition convert_pixel (from to : Mode) (p : Pixel) : Pixel :=
  match from, to, p with
  | L, ModeRGB, [v] => [v; v; v]
  | L, RGBA, [v] => [v; v; v; 255]
  | ModeRGB, RGBA, [r; g; b] => [r; g; b; 255]
  | RGBA, ModeRGB, [r; g; b; _] => [r; g; b]
  | ModeRGB, L, r :: g :: b :: _ | RGBA, L, r :: g :: b :: _ =>
      [Z.shiftr (r * 19595 + g * 38470 + b * 7471 + 32768) 16]
  | _, _, _ => p
  end.

Definition convert (im : Image) (to : Mode) : Image :=
  mkImage to (width im) (height im)
    (fun x y => convert_pixel (mode im) to (getpixel im x y)).

(** Division by 255 rounded to the nearest integer, as the library
    computes it with shifts. *)
Definition div255 (a : Z) : Z :=
  let tmp := a + 128 in Z.shiftr (Z.shiftr tmp 8 + tmp) 8.

(** One band of source-over blending: [in2] over [in1] with opacity
    [mask]. *)
Definition blend8 (mask in1 in2 : Z) : Z :=
  div255 (in1 * (255 - mask) + in2 * mask).

Definition blend_pixel (mask : Z) (dst src : Pixel) : Pixel :=
  map (fun '(o, i) => blend8 mask o i) (combine dst src).

(** The opacity a mask image gives at a pixel: its only band in mode L,
    its alpha band in mode RGBA. *)
Definition mask_value (m : Image) (x y : Z) : Z :=
  match mode m with
  | RGBA => nth 3 (getpixel m x y) 0
  | _ => nth 0 (getpixel m x y) 0
  end.

(** [dst.paste(src, (x0, y0), mask)].  A source of another mode is
    converted first, except an RGBA source pasted on an RGB image, whose
    color bands are used as they are.  The source and the mask must have
    one size.  The part of the box outside [dst] is clipped. *)
Definition paste (dst src : Image) (at_ : Z * Z) (mask : option Image)
  : result Image :=
  let src :=
    if Mode_eqb (mode dst) (mode src) then src
    else match mode dst, mode src with
         | ModeRGB, RGBA => src
         | _, _ => convert src (mode dst)
         end in
  let '(x0, y0) := at_ in
  let put (opacity : Z -> Z -> Z) :=
    Ok (mkImage (mode dst) (width dst) (height dst)
          (fun x y =>
             if inside src (x - x0) (y - y0) then
               blend_pixel (opacity (x - x0) (y - y0))
                 (getpixel dst x y) (getpixel src (x - x0) (y - y0))
             else getpixel dst x y)) in
  match mask with
  | None => put (fun _ _ => 255)
  | Some m =>
      if (width m =? width src) && (height m =? height src)
      then put (mask_value m)
      else Raise ValueError
  end.

(** [im.putalpha(alpha)] with an image of mode L as [alpha] *)
Definition putalpha (im alpha : Image) : result Image :=
  let im := if Mode_eqb (mode im) RGBA then im else convert im RGBA in
  if (width alpha =? width im) && (height alpha =? height im) then
    Ok (mkImage RGBA (width im) (height im)
          (fun x y =>
             firstn 3 (getpixel im x y) ++ [mask_value alpha x y]))
  else Raise ValueError.

(** [Image.fromarray(a, 'L')] for an array of [h] rows and [w] columns of
    bytes, given by its entry at row [y], column [x]. *)
Definition fromarray (w h : Z) (a : Z -> Z -> Z) : Image :=
  mkImage L w h (fun x y => [a y x]).

(** A drawing call on [ImageDraw.Draw(im)] with a fill: the pixels of the
    region that lie in the image take the ink. *)
Definition fill_region (im : Image) (region : Z -> Z -> bool) (ink : Pixel)
  : Image :=
  mkImage (mode im) (width im) (height im)
    (fun x y => if region x y then ink else getpixel im x y).

Definition draw_rectangle (im : Image) (b : Box) (ink : Pixel)
  : result Image :=
  Ok (fill_region im (in_box b) ink).

Definition draw_ellipse `{Backend} (im : Image) (b : Box) (ink : Pixel)
  : result Image :=
  match ellipse_region b with
  | Some region => Ok (fill_region im region ink)
  | None => Raise ValueError
  end.

(** [draw.rounded_rectangle(box, radius, fill)]: with radius 0, and a box
    whose corners are at least two pixels apart on each axis, the library
    draws the plain rectangle; the other cases reach its corner
    rasterizer. *)
Definition draw_rounded_rectangle `{Backend} (im : Image) (b : Box)
  (radius : Z) (ink : Pixel) : result Image :=
  let '(x0, y0, x1, y1) := b in
  if (radius =? 0) && (2 <=? x1 - x0) && (2 <=? y1 - y0)
  then draw_rectangle im b ink
  else match rounded_region b radius with
       | Some region => Ok (fill_region im region ink)
       | None => Raise ValueError
       end.

(** The size [thumbnail] settles on for an image of [w] by [h] pixels and
    a requested size [(x, y)]: [None] when the image already fits.  The
    aspect ratio is a quotient, so a zero height, or a zero [y], raises.
    The length that goes with the kept edge is the floor or the ceiling of
    the proportional length, as the library chooses, and at least 1. *)
Definition round_aspect (floor_is_nearer : bool) (number : Q) : Z :=
  Z.max (if floor_is_nearer then Qfloor number else Qceiling number) 1.

Definition thumbnail_size `{Backend} (w h x y : Z)
  : result (option (Z * Z)) :=
  if (w <=? x) && (h <=? y) then Ok None
  else if h =? 0 then Raise ZeroDivisionError
  else
    let aspect := (inject_Z w / inject_Z h)%Q in
    if y =? 0 then Raise ZeroDivisionError
    else if Qle_bool aspect (inject_Z x / inject_Z y)%Q then
      Ok (Some (round_aspect (nearer_floor w h x y) (inject_Z y * aspect)%Q,
                y))
    else
      Ok (Some (x,
                round_aspect (nearer_floor w h x y) (inject_Z x / aspect)%Q)).

(** [im.resize(size, LANCZOS)]: a size below one pixel is refused. *)
Definition resize `{Backend} (im : Image) (sz : Z * Z) : result Image :=
  if (fst sz <? 1) || (snd sz <? 1) then Raise ValueError
  else Ok (mkImage (mode im) (fst sz) (snd sz) (resize_lanczos im sz)).

(** [im.thumbnail(size, LANCZOS)]: the state of the object [im] after the
    call.  The image is never enlarged, and it is left as it was when the
    call raises. *)
Definition thumbnail `{Backend} (im : Image) (sz : Z * Z) : result Image :=
  final <- thumbnail_size (width im) (height im) (fst sz) (snd sz) ;;
  match final with
  | None => Ok im
  | Some sz' =>
      if (width im =? fst sz') && (height im =? snd sz') then Ok im
      else resize im sz'
  end.

End PIL.
Import PIL.

(** ** The renderer *)

(** The encoder's result, as far as the renderer reads it. *)
Record QrCode : Type := mkQr {
  get_size : Z;
  get_module : Z -> Z -> bool
}.

(** The dictionary [logo_options]: a key that is absent is [None]. *)
Record LogoOptions : Type := mkOptions {
  opt_background_style : option string;
  opt_size : option float;
  opt_shape : option string;
  opt_border : option bool
}.

(** [d.get(key, default)] *)
Definition dict_get {A : Type} (entry : option A) (default : A) : A :=
  match entry with
  | Some v => v
  | None => default
  end.

Definition style_is (opts : LogoOptions) (name : string) : bool :=
  match opt_background_style opts with
  | Some s => String.eqb s name
  | None => false
  end.

(** Line 21 *)
Definition image_size_of (qr : QrCode) (module_size border : Z) : Z :=
  (get_size qr + border * 2) * module_size.

(** Lines 31-36: the four nested loops over modules and their pixels. *)
Definition draw_modules (qr : QrCode) (module_size border : Z)
  (dark_color : RGB) (img : Image) : result Image :=
  for_each (range (get_size qr)) (fun y img =>
    for_each (range (get_size qr)) (fun x img =>
      if get_module qr x y then
        for_each (range module_size) (fun dy img =>
          for_each (range module_size) (fun dx img =>
            putpixel img ((x + border) * module_size + dx,
                          (y + border) * module_size + dy)
              (getink (mode img) dark_color)) img) img
      else Ok img) img) img.

(** Lines 21-36: the canvas, with an alpha band when the halo is asked
    for, and the dark modules painted on it. *)
Definition base_image (qr : QrCode) (module_size border : Z)
  (light_color dark_color : RGB) (logo_options : LogoOptions) : result Image :=
  let image_size := image_size_of qr module_size border in
  img <- (if style_is logo_options "Gradient Halo"
          then new RGBA (image_size, image_size) (getink RGBA light_color)
          else new ModeRGB (image_size, image_size)
                 (getink ModeRGB light_color)) ;;
  draw_modules qr module_size border dark_color img.

(** Line 41 *)
Definition logo_max_size (image_size : Z) (logo_options : LogoOptions)
  : result Z :=
  let logo_size_ratio := dict_get (opt_size logo_options) 0.25%float in
  int_of_float (float_of_int image_size * logo_size_ratio)%float.

(** Lines 50-60: the entry of [alpha_mask] for the pixel [(x, y)].  With
    [m = max(logo_image.size)], the radii are [m/2] and [m/2 + 2*module_size],
    and the distance [d] of the pixel from [(image_size/2, image_size/2)] has
    [4*d*d = n] below.  So [d <= inner_radius] is [n <= m*m],
    [d < outer_radius] is [n < (m + 4*module_size)^2] for a positive outer
    radius, and the faded value [255 * (d - inner) / (outer - inner)] is
    [(sqrt(65025*n) - 255*m) / (4*module_size)], which [astype(np.uint8)]
    truncates. *)
Definition halo_alpha (image_size module_size : Z) (logo_size : Z * Z)
  (x y : Z) : Z :=
  let m := Z.max (fst logo_size) (snd logo_size) in
  let n := (2 * x - image_size) ^ 2 + (2 * y - image_size) ^ 2 in
  if n <=? m * m then 0
  else if (0 <? m + 4 * module_size) && (n <? (m + 4 * module_size) ^ 2)
  then Z.quot (Z.sqrt (65025 * n) - 255 * m) (4 * module_size)
  else 255.

(** Lines 48-62 *)
Definition halo (img : Image) (image_size module_size : Z) (logo : Image)
  : result Image :=
  putalpha img
    (fromarray image_size image_size
       (fun y x => halo_alpha image_size module_size (size logo) x y)).

(** Line 65 *)
Definition grad_size_of (logo_size : Z * Z) : Z :=
  Z.quot (6 * Z.max (fst logo_size) (snd logo_size)) 5.

(** Line 70 *)
Definition ring_ratio (i grad_size : Z) : float :=
  (float_of_int i / float_of_int grad_size)%float.

(** Lines 71-73: [int(l * ratio + d * (1 - ratio))] *)
Definition ring_channel (l d : Z) (ratio : float) : result Z :=
  int_of_float
    (float_of_int l * ratio + float_of_int d * (1 - ratio))%float.

Definition ring_color (light_color dark_color : RGB) (i grad_size : Z)
  : result RGB :=
  let '(lr, lg, lb) := light_color in
  let '(dr, dg, db) := dark_color in
  let ratio := ring_ratio i grad_size in
  r <- ring_channel lr dr ratio ;;
  g <- ring_channel lg dg ratio ;;
  b <- ring_channel lb db ratio ;;
  Ok (r, g, b).

(** Line 74: the bounding box of ring [i]. *)
Definition ring_box (i grad_size : Z) : Box :=
  (i, i, grad_size - i - 1, grad_size - i - 1).

(** Lines 65-74: the gradient buffer after its rings are drawn. *)
Definition radial_gradient `{Backend} (light_color dark_color : RGB)
  (logo_size : Z * Z) : result Image :=
  let grad_size := grad_size_of logo_size in
  grad_img <- new ModeRGB (grad_size, grad_size) [0; 0; 0] ;;
  for_each (range grad_size) (fun i grad_img =>
    fill <- ring_color light_color dark_color i grad_size ;;
    draw_ellipse grad_img (ring_box i grad_size) (getink ModeRGB fill))
    grad_img.

(** Lines 81-89: the mask of the logo. *)
Definition logo_mask `{Backend} (logo_shape : string) (logo_size : Z * Z)
  : result Image :=
  logo_mask <- new L logo_size [0] ;;
  if String.eqb logo_shape "Circle" then
    draw_ellipse logo_mask (0, 0, fst logo_size, snd logo_size) [255]
  else if String.eqb logo_shape "Rounded Rectangle" then
    let corner_radius := Z.quot (Z.min (fst logo_size) (snd logo_size)) 5 in
    draw_rounded_rectangle logo_mask (0, 0, fst logo_size, snd logo_size)
      corner_radius [255]
  else
    draw_rectangle logo_mask (0, 0, fst logo_size, snd logo_size) [255].

(** Line 93 *)
Definition border_width_of (module_size : Z) : Z :=
  Z.max 1 (Z.quot (3 * module_size) 4).

(** Line 94 *)
Definition border_frame_size_of (logo : Image) (border_width : Z) : Z * Z :=
  (width logo + border_width * 2, height logo + border_width * 2).

(** Lines 96-105: the mask of the frame. *)
Definition border_mask `{Backend} (logo_shape : string)
  (border_frame_size : Z * Z) : result Image :=
  border_mask <- new L border_frame_size [0] ;;
  if String.eqb logo_shape "Circle" then
    draw_ellipse border_mask
      (0, 0, fst border_frame_size, snd border_frame_size) [255]
  else if String.eqb logo_shape "Rounded Rectangle" then
    let corner_radius :=
      Z.quot (Z.min (fst border_frame_size) (snd border_frame_size)) 5 in
    draw_rounded_rectangle border_mask
      (0, 0, fst border_frame_size, snd border_frame_size) corner_radius [255]
  else
    draw_rectangle border_mask
      (0, 0, fst border_frame_size, snd border_frame_size) [255].

(** Lines 48-75: the treatment behind the logo. *)
Definition logo_background `{Backend} (img : Image) (image_size module_size : Z)
  (light_color dark_color : RGB) (logo : Image) (logo_options : LogoOptions)
  : result Image :=
  if style_is logo_options "Gradient Halo" then
    halo img image_size module_size logo
  else if style_is logo_options "Radial Gradient" then
    grad_img <- radial_gradient light_color dark_color (size logo) ;;
    let grad_size := grad_size_of (size logo) in
    paste img grad_img
      ((image_size - grad_size) / 2, (image_size - grad_size) / 2) None
  else Ok img.

(** Lines 92-108: the frame, pasted through its mask. *)
Definition logo_border `{Backend} (img : Image) (module_size : Z)
  (dark_color : RGB) (logo : Image) (logo_x logo_y : Z)
  (logo_options : LogoOptions) : result Image :=
  if dict_get (opt_border logo_options) false then
    let border_width := border_width_of module_size in
    let border_frame_size := border_frame_size_of logo border_width in
    border_mask <- border_mask (dict_get (opt_shape logo_options) "Square"%string)
                     border_frame_size ;;
    let frame_mode := if Mode_eqb (mode img) RGBA then RGBA else ModeRGB in
    frame <- new frame_mode border_frame_size (getink frame_mode dark_color) ;;
    paste img frame (logo_x - border_width, logo_y - border_width)
      (Some border_mask)
  else Ok img.

(** Lines 44-111: everything done with the logo after it is resized. *)
Definition integrate_logo `{Backend} (img : Image) (image_size module_size : Z)
  (light_color dark_color : RGB) (logo : Image) (logo_options : LogoOptions)
  : result Image :=
  let logo_x := (image_size - width logo) / 2 in
  let logo_y := (image_size - height logo) / 2 in
  img <- logo_background img image_size module_size light_color dark_color
           logo logo_options ;;
  logo_mask <- logo_mask (dict_get (opt_shape logo_options) "Square"%string)
                 (size logo) ;;
  img <- logo_border img module_size dark_color logo logo_x logo_y
           logo_options ;;
  paste img logo (logo_x, logo_y) (Some logo_mask).

(** Lines 113-119 *)
Definition flatten (light_color : RGB) (img : Image) : result Image :=
  if Mode_eqb (mode img) RGBA then
    rgb_img <- new ModeRGB (size img) (getink ModeRGB light_color) ;;
    paste rgb_img img (0, 0) (Some img)
  else Ok img.

(** The canvas as it stands before line 113, with the logo object as the
    call leaves it. *)
Definition render_canvas `{Backend} (qr : QrCode) (module_size border : Z)
  (light_color dark_color : RGB) (logo_image : option Image)
  (logo_options : LogoOptions) : result Image * option Image :=
  let image_size := image_size_of qr module_size border in
  match base_image qr module_size border light_color dark_color logo_options
  with
  | Raise e => (Raise e, logo_image)
  | Ok img =>
      match logo_image with
      | None => (Ok img, None)
      | Some logo =>
          match logo_max_size image_size logo_options with
          | Raise e => (Raise e, Some logo)
          | Ok logo_max_size =>
              match thumbnail logo (logo_max_size, logo_max_size) with
              | Raise e => (Raise e, Some logo)
              | Ok logo =>
                  (integrate_logo img image_size module_size light_color
                     dark_color logo logo_options,
                   Some logo)
              end
          end
      end
  end.

(** Lines 15-119.  The first component is the returned image or the raised
    exception, the second the caller's logo object after the call. *)
Definition create_qr_image `{Backend} (qr : QrCode) (module_size border : Z)
  (light_color dark_color : RGB) (logo_image : option Image)
  (logo_options : LogoOptions) : result Image * option Image :=
  let '(canvas, logo_image) :=
    render_canvas qr module_size border light_color dark_color logo_image
      logo_options in
  (img <- canvas ;; flatten light_color img, logo_image).

(** ** The caller

    What [main] computes for the call of [create_qr_image]; the widgets and
    the encoder are outside the embedding. *)

(** Line 150: the slider gives a whole number of percent, divided by
    [100.0]. *)
Definition logo_size_of (percent : Z) : float :=
  (float_of_int percent / 100)%float.

(** Lines 173-176 *)
Definition logo_opts (logo_size : float) (logo_shape logo_bg_style : string)
  (add_logo_border : bool) : LogoOptions :=
  mkOptions (Some logo_bg_style) (Some logo_size) (Some logo_shape)
    (Some add_logo_border).

(** Line 178: the call of [main], its color arguments converted first. *)
Definition main_render `{Backend} (qr : QrCode) (module_size border : Z)
  (light_color_hex dark_color_hex : string) (logo_image : option Image)
  (logo_opts : LogoOptions) : result Image * option Image :=
  match hex_to_rgb light_color_hex with
  | Raise e => (Raise e, logo_image)
  | Ok light_color =>
      match hex_to_rgb dark_color_hex with
      | Raise e => (Raise e, logo_image)
      | Ok dark_color =>
          create_qr_image qr module_size border light_color dark_color
            logo_image logo_opts
      end
  end.

(** ** What the specification asks, in its own words *)

(** "A 6-hex-digit string, with or without leading [#]". *)
Definition six_hex_digits (s : string) : bool :=
  (String.length s =? 6)%nat && forallb is_hex (list_ascii_of_string s).

Definition well_formed_hex (s : string) : bool :=
  match s with
  | String "#" s' => six_hex_digits s'
  | _ => six_hex_digits s
  end.

(** "[borderWidth = max(1, round(0.75 * moduleSize))]", rounding to the
    nearest integer. *)
Definition spec_border_width (module_size : Z) : Z :=
  Z.max 1 (Qfloor (inject_Z module_size * (3 # 4) + (1 # 2))).

(** ** A backend to run examples on

    Nearest-neighbour sampling stands for the resampling filter; an ellipse
    covers the pixels whose centre satisfies its equation; a rounded
    rectangle is a rectangle without the pixels beyond its corner circles.
    A box whose corners are in the wrong order covers nothing. *)

Definition example_ellipse (b : Box) (x y : Z) : bool :=
  let '(x0, y0, x1, y1) := b in
  let w := x1 - x0 + 1 in
  let h := y1 - y0 + 1 in
  in_box b x y &&
  ((2 * x - x0 - x1) ^ 2 * h ^ 2 + (2 * y - y0 - y1) ^ 2 * w ^ 2
   <=? w ^ 2 * h ^ 2).

Definition example_rounded (b : Box) (r : Z) (x y : Z) : bool :=
  let '(x0, y0, x1, y1) := b in
  let cx := if x <? x0 + r then x0 + r
            else if x1 - r <? x then x1 - r else x in
  let cy := if y <? y0 + r then y0 + r
            else if y1 - r <? y then y1 - r else y in
  in_box b x y && ((x - cx) ^ 2 + (y - cy) ^ 2 <=? r ^ 2).

(** The choice of [thumbnail] between the floor and the ceiling of the
    proportional length: the one whose aspect ratio is nearer to the
    image's, the floor on a tie. *)
Definition example_nearer_floor (w h x y : Z) : bool :=
  let aspect := (inject_Z w / inject_Z h)%Q in
  if Qle_bool aspect (inject_Z x / inject_Z y)%Q then
    let number := (inject_Z y * aspect)%Q in
    let key n := Qabs (aspect - inject_Z n / inject_Z y)%Q in
    Qle_bool (key (Qfloor number)) (key (Qceiling number))
  else
    let number := (inject_Z x / aspect)%Q in
    let key n := if n =? 0 then 0%Q
                 else Qabs (aspect - inject_Z x / inject_Z n)%Q in
    Qle_bool (key (Qfloor number)) (key (Qceiling number)).

Definition example_backend : Backend := {|
  resize_lanczos := fun im sz x y =>
    getpixel im (x * width im / fst sz) (y * height im / snd sz);
  ellipse_region := fun b => Some (example_ellipse b);
  rounded_region := fun b r => Some (example_rounded b r);
  nearer_floor := example_nearer_floor
|}.

(** ** Definitions for the statements *)

Definition all_ascii : list ascii := map ascii_of_nat (seq 0 256).

(** [p] holds of the [count] integers from [k] on. *)
Fixpoint all_from (count : nat) (k : Z) (p : Z -> bool) : bool :=
  match count with
  | O => true
  | S count' => p k && all_from count' (k + 1) p
  end.

(** [int(f)] with the shifts that its products and quotients by powers of
    two are. *)
Definition int_of_float_shift (f : float) : result Z :=
  match Prim2SF f with
  | S754_zero _ => Ok 0
  | S754_infinity _ => Raise OverflowError
  | S754_nan => Raise ValueError
  | S754_finite s m e =>
      let a := if 0 <=? e then Z.shiftl (Z.pos m) e
               else Z.shiftr (Z.pos m) (- e) in
      Ok (if s then - a else a)
  end.

(** [r] is the integer [v]. *)
Definition returns_Z (r : result Z) (v : Z) : bool :=
  match r with
  | Ok a => a =? v
  | Raise _ => false
  end.

Definition option_Z_eqb (a b : option Z) : bool :=
  match a, b with
  | Some x, Some y => x =? y
  | None, None => true
  | _, _ => false
  end.

(** The value of a pair of hexadecimal digits. *)
Definition byte_of (c1 c2 : ascii) : Z := 16 * digit_value c1 + digit_value c2.

(** A character that a slice of at most two characters may hold when
    [int(slice, 16)] succeeds. *)
Definition int_char (c : ascii) : bool :=
  is_hex c || Ascii.eqb c "+" || Ascii.eqb c "-" || isspace c.

Definition shape (im : Image) : Mode * Z * Z := (mode im, width im, height im).

(** The pixels of the image that belong to the block of a dark module. *)
Definition in_dark_block (qr : QrCode) (module_size border x y : Z) : Prop :=
  exists mx my,
    0 <= mx < get_size qr /\ 0 <= my < get_size qr /\
    get_module qr mx my = true /\
    (mx + border) * module_size <= x < (mx + border) * module_size + module_size /\
    (my + border) * module_size <= y < (my + border) * module_size + module_size.

Definition covers (qr : QrCode) (module_size border x y : Z) : bool :=
  existsb (fun my =>
    existsb (fun mx =>
      get_module qr mx my &&
      existsb (fun dy =>
        existsb (fun dx =>
          (x =? (mx + border) * module_size + dx) &&
          (y =? (my + border) * module_size + dy))
          (range module_size))
        (range module_size))
      (range (get_size qr)))
    (range (get_size qr)).

(** An RGB color whose channels are bytes, and its pixel. *)
Definition color_ok (c : RGB) : Prop :=
  let '(r, g, b) := c in
  0 <= r <= 255 /\ 0 <= g <= 255 /\ 0 <= b <= 255.

Definition rgb_pixel (c : RGB) : Pixel :=
  let '(r, g, b) := c in [r; g; b].

(** "[alpha = 255 * (d - innerRadius) / (outerRadius - innerRadius)]" *)
Definition spec_halo_fade (d inner_radius outer_radius : Q) : Q :=
  (255 * (d - inner_radius) / (outer_radius - inner_radius))%Q.

(** The alpha as a function of [m = max(logo_image.size)], of the module
    size [k] and of [n], four times the squared distance to the center. *)
Definition alpha_at (m k n : Z) : Z :=
  if n <=? m * m then 0
  else if (0 <? m + 4 * k) && (n <? (m + 4 * k) ^ 2)
  then Z.quot (Z.sqrt (65025 * n) - 255 * m) (4 * k)
  else 255.

(** "[lerpChannel(a, b, t)]: linear interpolation, [round(a*(1-t) + b*t)],
    clamped to [0,255]". *)
Definition spec_lerp_channel (a b : Z) (t : Q) : Z :=
  Z.max 0 (Z.min 255
    (Qfloor (inject_Z a * (1 - t) + inject_Z b * t + (1 # 2)))).

(** Whether ring [i] of a gradient of size [grad_size] covers a pixel. *)
Definition ring_covers `{Backend} (grad_size i x y : Z) : bool :=
  match ellipse_region (ring_box i grad_size) with
  | Some region => region x y
  | None => false
  end.

(** "Rounded with radius = [0.2 * min(w,h)]" *)
Definition spec_corner_radius (w h : Z) : Q := ((2 # 10) * inject_Z (Z.min w h))%Q.

Definition bands (m : Mode) : nat :=
  match m with
  | L => 1
  | ModeRGB => 3
  | RGBA => 4
  end.

Definition byte (v : Z) : Prop := 0 <= v <= 255.

(** A pixel of an image of mode [m]: one byte per band. *)
Definition pixel_wf (m : Mode) (p : Pixel) : Prop :=
  length p = bands m /\ Forall byte p.

Definition image_wf (im : Image) : Prop :=
  forall x y, pixel_wf (mode im) (getpixel im x y).

(** Every pixel has as many bands as the mode says. *)
Definition image_bands (im : Image) : Prop :=
  forall x y, length (getpixel im x y) = bands (mode im).

(** The pixel that [paste] takes from a source of mode [from] for a
    destination of mode [to]. *)
Definition pasted_pixel (from to : Mode) (p : Pixel) : Pixel :=
  if Mode_eqb to from then p
  else match to, from with
       | ModeRGB, RGBA => p
       | _, _ => convert_pixel from to p
       end.

Definition opacity (mask : option Image) (x y : Z) : Z :=
  match mask with
  | Some m => mask_value m x y
  | None => 255
  end.


(** The library accepts the boxes whose corners are in order. *)
Definition accepts_ordered_boxes `{Backend} : Prop :=
  forall x0 y0 x1 y1,
    x0 <= x1 -> y0 <= y1 ->
    ellipse_region (x0, y0, x1, y1) <> None /\
    forall r, rounded_region (x0, y0, x1, y1) r <> None.

(** A grid of two by two modules, dark on its diagonal. *)
Definition example_qr : QrCode := mkQr 2 (fun x y => x =? y).

Definition white : RGB := (255, 255, 255).
Definition black : RGB := (0, 0, 0).
Definition blue : RGB := (0, 0, 255).

Definition no_options : LogoOptions := mkOptions None None None None.

(** A halo, a circular logo of a quarter of the edge, and a frame. *)
Definition halo_options : LogoOptions :=
  mkOptions (Some "Gradient Halo"%string) (Some 0.25%float)
    (Some "Circle"%string) (Some true).

(** An RGB logo of [w] by [h] pixels. *)
Definition example_logo (w h : Z) : Image :=
  mkImage ModeRGB w h (fun x y => [x mod 256; y mod 256; 7]).

(** The text that a [string] stands for. *)
Definition text_of_string (s : string) : Text.text :=
  map N_of_ascii (list_ascii_of_string s).

(** A character that a slice may hold when [int(slice, 16)] succeeds: a
    hexadecimal digit, a sign or white space of ASCII, or, from 127 on,
    white space or a decimal digit of the Unicode database. *)
Definition text_int_char `{Text.Unicode} (c : N) : bool :=
  if (c <? 127)%N then int_char (ascii_of_N c)
  else Text.is_whitespace c ||
       match Text.to_decimal c with Some _ => true | None => false end.

(** The rows of the database between 127 and 255: NEL and NBSP are white
    space and no character is a decimal digit. *)
Definition latin1_rows `{Text.Unicode} : Prop :=
  forall c, (127 <= c < 256)%N ->
    Text.is_whitespace c = ((c =? 133) || (c =? 160))%N /\
    Text.to_decimal c = None.

(** [Text.transform] on the text of a [string], with these rows written
    out. *)
Fixpoint latin1_transform (s : string) : string :=
  match s with
  | String a s' =>
      if (N_of_ascii a <? 127)%N then String a (latin1_transform s')
      else if ((N_of_ascii a =? 133) || (N_of_ascii a =? 160))%N
           then String " " (latin1_transform s')
           else String "?" EmptyString
  | EmptyString => EmptyString
  end.

Definition latin1_to_ascii (s : string) : string :=
  if forallb (fun a => (N_of_ascii a <? 128)%N) (list_ascii_of_string s)
  then s else latin1_transform s.

(** A part of the database: the white space from 127 on, and the
    Arabic-Indic and the fullwidth digits. *)
Definition example_whitespace (c : N) : bool :=
  ((c =? 133) || (c =? 160) || (c =? 5760) ||
   ((8192 <=? c) && (c <=? 8202)) || (c =? 8232) || (c =? 8233) ||
   (c =? 8239) || (c =? 8287) || (c =? 12288))%N.

Definition example_decimal (c : N) : option N :=
  if ((1632 <=? c) && (c <=? 1641))%N then Some (c - 1632)%N
  else if ((65296 <=? c) && (c <=? 65305))%N then Some (c - 65296)%N
  else None.

Definition example_unicode : Text.Unicode := {|
  Text.is_whitespace := example_whitespace;
  Text.to_decimal := example_decimal
|}.

(** ** Definitions for the further properties *)

Definition hex_digit (upper : bool) (n : Z) : ascii :=
  ascii_of_N (Z.to_N (if n <? 10 then 48 + n
                      else if upper then 55 + n else 87 + n)).

Definition hex_pair (upper : bool) (v : Z) : string :=
  String (hex_digit upper (v / 16))
    (String (hex_digit upper (v mod 16)) EmptyString).

Definition format_hex (upper : bool) (c : RGB) : string :=
  let '(r, g, b) := c in
  String "#" (hex_pair upper r ++ hex_pair upper g ++ hex_pair upper b).

(** The value that [int(slice, 16)] reads lies between [lo] and [hi]. *)
Definition parsed_within (lo hi : Z) (s : string) : bool :=
  match parse_int16 s with
  | Some v => (lo <=? v) && (v <=? hi)
  | None => true
  end.

Definition no_minus (s : string) : bool :=
  forallb (fun c => negb (Ascii.eqb c "-")) (list_ascii_of_string s).

(** The module whose block holds the pixel coordinate [x]. *)
Definition module_under (module_size border x : Z) : Z :=
  x / module_size - border.

(** Whether the pixel [(x, y)] lies over a dark module of the grid. *)
Definition dark_under (qr : QrCode) (module_size border x y : Z) : bool :=
  let mx := module_under module_size border x in
  let my := module_under module_size border y in
  (0 <=? mx) && (mx <? get_size qr) && (0 <=? my) && (my <? get_size qr) &&
  get_module qr mx my.

(** A loop body that keeps an invariant of the state and raises nothing
    but [e]. *)
Definition raises_only {A S : Type} (I : S -> Prop) (e : exn)
  (body : A -> S -> result S) (xs : list A) : Prop :=
  forall x s, In x xs -> I s ->
    match body x s with
    | Ok s' => I s'
    | Raise e' => e' = e
    end.

(** The mode of the canvas and the flattening of one of its pixels. *)
Definition canvas_mode_of (opts : LogoOptions) : Mode :=
  if style_is opts "Gradient Halo" then RGBA else ModeRGB.

Definition flat_pixel (opts : LogoOptions) (light : RGB) (p : Pixel) : Pixel :=
  if style_is opts "Gradient Halo"
  then blend_pixel (nth 3 p 0) (getink ModeRGB light) p else p.

(** Whether [(x, y)] lies in the rectangle of [w] by [h] pixels at
    [(x0, y0)]. *)
Definition in_rect (x0 y0 w h x y : Z) : bool :=
  (x0 <=? x) && (x <? x0 + w) && (y0 <=? y) && (y <? y0 + h).

(** The plain options: neither the halo nor the radial gradient, and a
    shape that is neither the circle nor the rounded rectangle. *)
Definition solid_style (opts : LogoOptions) : bool :=
  negb (style_is opts "Gradient Halo") &&
  negb (style_is opts "Radial Gradient").

Definition square_shape (opts : LogoOptions) : bool :=
  let logo_shape := dict_get (opt_shape opts) "Square"%string in
  negb (String.eqb logo_shape "Circle") &&
  negb (String.eqb logo_shape "Rounded Rectangle").

Definition is_ok {A : Type} (r : result A) : bool :=
  match r with
  | Ok _ => true
  | Raise _ => false
  end.

(** A library that refuses an ellipse whose right edge lies left of its
    left edge. *)
Definition refuses_inverted_boxes `{Backend} : Prop :=
  forall x0 y0 x1 y1, x1 < x0 -> ellipse_region (x0, y0, x1, y1) = None.

(** The example backend, made to refuse the boxes whose corners are out of
    order. *)
Definition strict_backend : Backend := {|
  resize_lanczos := fun im sz x y =>
    getpixel im (x * width im / fst sz) (y * height im / snd sz);
  ellipse_region := fun b =>
    let '(x0, y0, x1, y1) := b in
    if (x1 <? x0) || (y1 <? y0) then None else Some (example_ellipse b);
  rounded_region := fun b r =>
    let '(x0, y0, x1, y1) := b in
    if (x1 <? x0) || (y1 <? y0) then None else Some (example_rounded b r);
  nearer_floor := example_nearer_floor
|}.

(** The bound [int(image_size * percent / 100.0)] against the exact
    quotient. *)
Definition bound_near_quotient (image_size percent : Z) : bool :=
  match int_of_float_shift
          (float_of_int image_size * logo_size_of percent)%float with
  | Ok n =>
      (image_size * percent / 100 - 1 <=? n) &&
      (n <=? image_size * percent / 100)
  | Raise _ => false
  end.

Definition bordered_options : LogoOptions :=
  mkOptions None None None (Some true).

Definition plain_halo_options : LogoOptions :=
  mkOptions (Some "Gradient Halo"%string) None None None.

Definition radial_options : LogoOptions :=
  mkOptions (Some "Radial Gradient"%string) None None None.

Definition tiny_logo_options : LogoOptions :=
  mkOptions None (Some 0.05%float) None None.

(** A grid of eight by eight modules, all dark. *)
Definition full_qr : QrCode := mkQr 8 (fun _ _ => true).

(** ** Definitions for the layers of a render *)



(** An integer that the C code of the library holds in 32 bits, and a
    color of such channels. *)
Definition fits_int32 (v : Z) : Prop := - 2 ^ 31 <= v < 2 ^ 31.

Definition color_fits (c : RGB) : Prop :=
  let '(r, g, b) := c in fits_int32 r /\ fits_int32 g /\ fits_int32 b.

(** * Properties *)

(** ** [hex_to_rgb] on examples *)

Example hex_to_rgb_white : hex_to_rgb "#FFFFFF" = Ok (255, 255, 255).
Proof. reflexivity. Qed.
Example hex_to_rgb_z : hex_to_rgb "#ZZZZZZ" = Raise ValueError.
Proof. reflexivity. Qed.
Example hex_to_rgb_long : hex_to_rgb "#FFFFFFF" = Ok (255, 255, 255).
Proof. reflexivity. Qed.
Example hex_to_rgb_short : hex_to_rgb "#12345" = Ok (18, 52, 5).
Proof. reflexivity. Qed.
Example hex_to_rgb_sign : hex_to_rgb "-1+2 3" = Ok (-1, 2, 3).
Proof. reflexivity. Qed.

(** ** Characters, by enumeration *)

Lemma in_all_ascii (c : ascii) : In c all_ascii.
Proof.
  rewrite <- (ascii_nat_embedding c). apply in_map, in_seq.
  pose proof (nat_ascii_bounded c). lia.
Qed.

Lemma forall_ascii (P : ascii -> bool) :
  forallb P all_ascii = true -> forall c, P c = true.
Proof.
  intros H c. rewrite forallb_forall in H. apply H, in_all_ascii.
Qed.

Lemma forall_ascii2 (P : ascii -> ascii -> bool) :
  forallb (fun a => forallb (P a) all_ascii) all_ascii = true ->
  forall a b, P a b = true.
Proof.
  intros H a b.
  apply (forall_ascii (P a)), (forall_ascii _ H).
Qed.

Lemma option_Z_eqb_eq a b : option_Z_eqb a b = true -> a = b.
Proof.
  destruct a, b; simpl; try discriminate; auto.
  intros H. apply Z.eqb_eq in H. now subst.
Qed.

Lemma parse_hex_pair c1 c2 :
  is_hex c1 = true -> is_hex c2 = true ->
  parse_int16 (String c1 (String c2 EmptyString)) = Some (byte_of c1 c2).
Proof.
  intros H1 H2. apply option_Z_eqb_eq.
  pose proof (forall_ascii2
    (fun a b => implb (is_hex a && is_hex b)
       (option_Z_eqb (parse_int16 (String a (String b EmptyString)))
          (Some (byte_of a b))))) as R.
  specialize (R ltac:(vm_compute; reflexivity) c1 c2). cbv beta in R.
  rewrite H1, H2 in R. exact R.
Qed.

Lemma hex_not_hash c : is_hex c = true -> Ascii.eqb c "#" = false.
Proof.
  intros H.
  pose proof (forall_ascii (fun a => implb (is_hex a) (negb (Ascii.eqb a "#")))
                ltac:(vm_compute; reflexivity) c) as R; cbv beta in R.
  rewrite H in R. simpl in R. now apply negb_true_iff in R.
Qed.

Lemma hex_digit_range c : is_hex c = true -> 0 <= digit_value c <= 15.
Proof.
  intros H.
  pose proof (forall_ascii
    (fun a => implb (is_hex a) ((0 <=? digit_value a) && (digit_value a <=? 15)))
    ltac:(vm_compute; reflexivity) c) as R; cbv beta in R.
  rewrite H in R. simpl in R. apply andb_true_iff in R. lia.
Qed.

Lemma parse_one_char c :
  parse_int16 (String c EmptyString) <> None -> int_char c = true.
Proof.
  intros H.
  pose proof (forall_ascii
    (fun a => implb (negb (option_Z_eqb (parse_int16 (String a EmptyString)) None))
                (int_char a))
    ltac:(vm_compute; reflexivity) c) as R; cbv beta in R.
  destruct (parse_int16 (String c EmptyString)); [exact R | congruence].
Qed.

Lemma parse_two_chars c1 c2 :
  parse_int16 (String c1 (String c2 EmptyString)) <> None ->
  int_char c1 = true /\ int_char c2 = true.
Proof.
  intros H.
  pose proof (forall_ascii2
    (fun a b =>
       implb (negb (option_Z_eqb
                      (parse_int16 (String a (String b EmptyString))) None))
         (int_char a && int_char b))
    ltac:(vm_compute; reflexivity) c1 c2) as R; cbv beta in R.
  destruct (parse_int16 (String c1 (String c2 EmptyString)));
    [apply andb_true_iff; exact R | congruence].
Qed.

Lemma int16_raise s e : int16 s = Raise e -> e = ValueError.
Proof. unfold int16. destruct (parse_int16 s); congruence. Qed.

Lemma int16_fails s : parse_int16 s = None -> int16 s = Raise ValueError.
Proof. unfold int16. now intros ->. Qed.

Lemma hex_to_rgb_raise s e : hex_to_rgb s = Raise e -> e = ValueError.
Proof.
  unfold hex_to_rgb.
  destruct (int16 (substring 0 2 _)) eqn:E1; simpl;
    [| intros [= <-]; eauto using int16_raise].
  destruct (int16 (substring 2 2 _)) eqn:E2; simpl;
    [| intros [= <-]; eauto using int16_raise].
  destruct (int16 (substring 4 2 _)) eqn:E3; simpl;
    [discriminate | intros [= <-]; eauto using int16_raise].
Qed.

(** The third slice decides the outcome once it cannot be read. *)
Lemma hex_to_rgb_slice_fails s :
  let t := lstrip "#" s in
  parse_int16 (substring 0 2 t) = None \/
  parse_int16 (substring 2 2 t) = None \/
  parse_int16 (substring 4 2 t) = None ->
  hex_to_rgb s = Raise ValueError.
Proof.
  intros t H. unfold hex_to_rgb. fold t. unfold int16.
  destruct (parse_int16 (substring 0 2 t)); simpl; [| reflexivity].
  destruct (parse_int16 (substring 2 2 t)); simpl; [| reflexivity].
  destruct (parse_int16 (substring 4 2 t)); simpl; [| reflexivity].
  destruct H as [H | [H | H]]; discriminate.
Qed.

Lemma parse_one_bad c :
  int_char c = false -> parse_int16 (String c EmptyString) = None.
Proof.
  intros H. destruct (parse_int16 (String c EmptyString)) eqn:E; [| reflexivity].
  assert (int_char c = true) by (apply parse_one_char; congruence). congruence.
Qed.

Lemma parse_two_bad c1 c2 :
  int_char c1 = false \/ int_char c2 = false ->
  parse_int16 (String c1 (String c2 EmptyString)) = None.
Proof.
  intros H.
  destruct (parse_int16 (String c1 (String c2 EmptyString))) eqn:E;
    [| reflexivity].
  assert (int_char c1 = true /\ int_char c2 = true) as [? ?]
    by (apply parse_two_chars; congruence).
  destruct H; congruence.
Qed.

Lemma substring_0_0 s : substring 0 0 s = EmptyString.
Proof. destruct s; reflexivity. Qed.

Lemma substring_2_cases n s :
  substring n 2 s = EmptyString \/
  (exists a, substring n 2 s = String a EmptyString) \/
  (exists a b, substring n 2 s = String a (String b EmptyString)).
Proof.
  revert s. induction n as [| n IH]; intros s.
  - destruct s as [| a [| b t]]; simpl; rewrite ?substring_0_0; eauto.
  - destruct s as [| a t]; simpl; [auto | apply IH].
Qed.

(** ** Texts of any characters *)

Lemma example_unicode_latin1 : @latin1_rows example_unicode.
Proof.
  intros c Hc. cbn [Text.is_whitespace Text.to_decimal example_unicode].
  unfold example_whitespace, example_decimal.
  destruct (N.eqb_spec c 5760); [lia |].
  destruct (N.leb_spec 8192 c); [lia |].
  destruct (N.eqb_spec c 8232); [lia |].
  destruct (N.eqb_spec c 8233); [lia |].
  destruct (N.eqb_spec c 8239); [lia |].
  destruct (N.eqb_spec c 8287); [lia |].
  destruct (N.eqb_spec c 12288); [lia |].
  destruct (N.leb_spec 1632 c); [lia |].
  destruct (N.leb_spec 65296 c); [lia |].
  cbn [andb orb]. now rewrite !orb_false_r.
Qed.

Lemma N_of_ascii_below (a : ascii) : (N_of_ascii a < 256)%N.
Proof. apply N_ascii_bounded. Qed.

Lemma text_lstrip_of_string s :
  Text.lstrip 35 (text_of_string s) = text_of_string (lstrip "#" s).
Proof.
  induction s as [| a s IH]; [reflexivity |].
  unfold text_of_string in *. cbn [list_ascii_of_string map Text.lstrip lstrip].
  destruct (Ascii.eqb_spec a "#") as [-> | Hne].
  - cbn. exact IH.
  - destruct (N.eqb_spec (N_of_ascii a) 35) as [E | _]; [| reflexivity].
    exfalso. apply Hne. rewrite <- (ascii_N_embedding a), E. reflexivity.
Qed.

Lemma text_slice_of_string i n s :
  Text.slice i n (text_of_string s) = text_of_string (substring i n s).
Proof.
  unfold Text.slice, text_of_string. revert s n.
  induction i as [| i IH]; intros s n.
  - cbn [skipn]. revert n. induction s as [| a s IHs]; intros n.
    + destruct n; reflexivity.
    + destruct n as [| n]; [reflexivity |].
      cbn [substring list_ascii_of_string map firstn]. now rewrite IHs.
  - destruct s as [| a s]; [destruct n; reflexivity |].
    cbn [substring list_ascii_of_string map skipn]. apply IH.
Qed.

Lemma as_string_of_string s : Text.as_string (text_of_string s) = s.
Proof.
  induction s as [| a s IH]; [reflexivity |].
  unfold text_of_string in *. cbn [list_ascii_of_string map Text.as_string].
  now rewrite ascii_N_embedding, IH.
Qed.

Lemma is_ascii_of_string s :
  Text.is_ascii (text_of_string s)
  = forallb (fun a => (N_of_ascii a <? 128)%N) (list_ascii_of_string s).
Proof.
  unfold Text.is_ascii, text_of_string.
  induction (list_ascii_of_string s) as [| a l IH]; [reflexivity |].
  simpl. now rewrite IH.
Qed.

Lemma transform_of_string `{Text.Unicode} s :
  latin1_rows -> Text.transform (text_of_string s) = latin1_transform s.
Proof.
  intros Hrows. induction s as [| a s IH]; [reflexivity |].
  unfold text_of_string in *.
  cbn [list_ascii_of_string map Text.transform latin1_transform].
  rewrite ascii_N_embedding, IH.
  destruct (N.ltb_spec (N_of_ascii a) 127) as [| Hge]; [reflexivity |].
  pose proof (N_of_ascii_below a) as Hlt.
  destruct (Hrows (N_of_ascii a) ltac:(lia)) as [-> ->].
  reflexivity.
Qed.

(** On the texts of a [string], [int] reads what [Py.int16] reads. *)
Lemma text_int16_of_string `{Text.Unicode} n s :
  latin1_rows ->
  Text.int16 (text_of_string (substring n 2 s)) = int16 (substring n 2 s).
Proof.
  intros Hrows. unfold Text.int16.
  rewrite is_ascii_of_string, as_string_of_string, transform_of_string
    by exact Hrows.
  fold (latin1_to_ascii (substring n 2 s)). unfold int16.
  enough (E : parse_int16 (latin1_to_ascii (substring n 2 s))
              = parse_int16 (substring n 2 s)) by now rewrite E.
  destruct (substring_2_cases n s) as [-> | [(a & ->) | (a & b & ->)]].
  - reflexivity.
  - apply option_Z_eqb_eq.
    exact (forall_ascii
      (fun a => option_Z_eqb
                  (parse_int16 (latin1_to_ascii (String a EmptyString)))
                  (parse_int16 (String a EmptyString)))
      ltac:(vm_compute; reflexivity) a).
  - apply option_Z_eqb_eq.
    exact (forall_ascii2
      (fun a b =>
         option_Z_eqb
           (parse_int16 (latin1_to_ascii (String a (String b EmptyString))))
           (parse_int16 (String a (String b EmptyString))))
      ltac:(vm_compute; reflexivity) a b).
Qed.

Lemma text_hex_to_rgb_of_string `{Text.Unicode} s :
  latin1_rows -> Text.hex_to_rgb (text_of_string s) = hex_to_rgb s.
Proof.
  intros Hrows. unfold Text.hex_to_rgb, hex_to_rgb.
  rewrite text_lstrip_of_string, !text_slice_of_string.
  rewrite !text_int16_of_string by exact Hrows.
  reflexivity.
Qed.

Lemma text_int16_raise `{Text.Unicode} t e :
  Text.int16 t = Raise e -> e = ValueError.
Proof. unfold Text.int16. apply int16_raise. Qed.

(** A slice that cannot be read decides the outcome. *)
Lemma text_hex_to_rgb_slice_fails `{Text.Unicode} t :
  let u := Text.lstrip 35 t in
  Text.int16 (Text.slice 0 2 u) = Raise ValueError \/
  Text.int16 (Text.slice 2 2 u) = Raise ValueError \/
  Text.int16 (Text.slice 4 2 u) = Raise ValueError ->
  Text.hex_to_rgb t = Raise ValueError.
Proof.
  intros u Hbad. unfold Text.hex_to_rgb. fold u.
  destruct (Text.int16 (Text.slice 0 2 u)) as [r | e] eqn:E1; cbn [Py.bind];
    [| now rewrite (text_int16_raise _ _ E1)].
  destruct (Text.int16 (Text.slice 2 2 u)) as [g | e] eqn:E2; cbn [Py.bind];
    [| now rewrite (text_int16_raise _ _ E2)].
  destruct (Text.int16 (Text.slice 4 2 u)) as [b | e] eqn:E3; cbn [Py.bind];
    [| now rewrite (text_int16_raise _ _ E3)].
  destruct Hbad as [Hbad | [Hbad | Hbad]]; discriminate.
Qed.

Lemma text_int_char_ascii `{Text.Unicode} c :
  (c < 128)%N -> text_int_char c = false -> int_char (ascii_of_N c) = false.
Proof.
  intros Hc. unfold text_int_char.
  destruct (N.ltb_spec c 127) as [| Hge]; [auto |].
  replace c with 127%N by lia. reflexivity.
Qed.

Lemma text_int_char_beyond `{Text.Unicode} c :
  (127 <= c)%N -> text_int_char c = false ->
  Text.is_whitespace c = false /\ Text.to_decimal c = None.
Proof.
  intros Hc. unfold text_int_char.
  destruct (N.ltb_spec c 127); [lia |].
  destruct (Text.is_whitespace c); [discriminate |].
  destruct (Text.to_decimal c); [discriminate | auto].
Qed.

Lemma text_one_bad `{Text.Unicode} c :
  text_int_char c = false -> Text.int16 [c] = Raise ValueError.
Proof.
  intros Hbad. unfold Text.int16. apply int16_fails.
  cbn [Text.is_ascii forallb Text.as_string Text.transform].
  destruct (N.ltb_spec c 128) as [Hlt | Hge]; cbn [andb].
  - apply parse_one_bad. now apply text_int_char_ascii.
  - destruct (N.ltb_spec c 127); [lia |].
    destruct (text_int_char_beyond c ltac:(lia) Hbad) as [-> ->].
    reflexivity.
Qed.

(** A character of a text that is not ASCII, as [int] reads it: [None]
    where the text stops. *)
Lemma transform_two `{Text.Unicode} a b :
  text_int_char a = false \/ text_int_char b = false ->
  parse_int16 (Text.transform [a; b]) = None.
Proof.
  intros Hbad.
  assert (Q : int_char "?" = false) by reflexivity.
  assert (Hb : text_int_char b = false ->
               exists x, Text.transform [b] = String x EmptyString /\
                         int_char x = false).
  { intros B. cbn [Text.transform].
    destruct (N.ltb_spec b 127) as [Hlt | Hge].
    - eexists. split; [reflexivity |]. apply text_int_char_ascii; [lia | exact B].
    - destruct (text_int_char_beyond b Hge B) as [-> ->]. eauto. }
  assert (Hb' : exists x, Text.transform [b] = String x EmptyString).
  { cbn [Text.transform]. destruct (b <? 127)%N; [eauto |].
    destruct (Text.is_whitespace b); [eauto |].
    destruct (Text.to_decimal b); eauto. }
  cbn [Text.transform]. fold (Text.transform [b]).
  destruct (N.ltb_spec a 127) as [Hlt | Hge].
  - destruct Hbad as [A | B].
    + destruct Hb' as (x & ->). apply parse_two_bad. left.
      apply text_int_char_ascii; [lia | exact A].
    + destruct (Hb B) as (x & -> & X). apply parse_two_bad. now right.
  - destruct (Text.is_whitespace a) eqn:Wa.
    + destruct Hbad as [A | B].
      * unfold text_int_char in A. destruct (N.ltb_spec a 127); [lia |].
        rewrite Wa in A. discriminate.
      * destruct (Hb B) as (x & -> & X). apply parse_two_bad. now right.
    + destruct (Text.to_decimal a) as [d |] eqn:Da.
      * destruct Hbad as [A | B].
        -- unfold text_int_char in A. destruct (N.ltb_spec a 127); [lia |].
           rewrite Wa, Da in A. discriminate.
        -- destruct (Hb B) as (x & -> & X). apply parse_two_bad. now right.
      * now apply parse_one_bad.
Qed.

Lemma text_two_bad `{Text.Unicode} a b :
  text_int_char a = false \/ text_int_char b = false ->
  Text.int16 [a; b] = Raise ValueError.
Proof.
  intros Hbad. unfold Text.int16. apply int16_fails.
  destruct (Text.is_ascii [a; b]) eqn:A; [| now apply transform_two].
  cbn [Text.is_ascii forallb] in A.
  apply andb_true_iff in A. destruct A as [Ha A].
  apply andb_true_iff in A. destruct A as [Hb _].
  apply N.ltb_lt in Ha, Hb. cbn [Text.as_string].
  apply parse_two_bad.
  destruct Hbad as [B | B]; [left | right]; now apply text_int_char_ascii.
Qed.

Lemma hex_code_ascii c : is_hex c = true -> (N_of_ascii c <? 128)%N = true.
Proof.
  intros H.
  pose proof (forall_ascii
    (fun a => implb (is_hex a) (N_of_ascii a <? 128)%N)
    ltac:(vm_compute; reflexivity) c) as R; cbv beta in R.
  now rewrite H in R.
Qed.

Lemma hex_code_not_hash c : is_hex c = true -> (N_of_ascii c =? 35)%N = false.
Proof.
  intros H.
  pose proof (forall_ascii
    (fun a => implb (is_hex a) (negb (N_of_ascii a =? 35)%N))
    ltac:(vm_compute; reflexivity) c) as R; cbv beta in R.
  rewrite H in R. simpl in R. now apply negb_true_iff in R.
Qed.

Lemma text_hex_pair `{Text.Unicode} c1 c2 :
  is_hex c1 = true -> is_hex c2 = true ->
  Text.int16 [N_of_ascii c1; N_of_ascii c2] = Ok (byte_of c1 c2).
Proof.
  intros H1 H2. unfold Text.int16. cbn [Text.is_ascii forallb].
  rewrite (hex_code_ascii c1 H1), (hex_code_ascii c2 H2). cbn [andb].
  cbn [Text.as_string]. rewrite !ascii_N_embedding.
  unfold int16. now rewrite parse_hex_pair.
Qed.

(** ** The error monad and the loops *)

Lemma bind_ok {A B : Type} (m : result A) (k : A -> result B) (b : B) :
  Py.bind m k = Ok b -> exists a, m = Ok a /\ k a = Ok b.
Proof. destruct m; simpl; [eauto | discriminate]. Qed.

Ltac bind_inv H :=
  let a := fresh "img" in
  let E := fresh "E" in
  apply bind_ok in H; destruct H as (a & E & H).

Lemma in_range (n x : Z) : In x (range n) <-> 0 <= x < n.
Proof.
  unfold range. rewrite in_map_iff. split.
  - intros (k & <- & Hk). apply in_seq in Hk. lia.
  - intros H. exists (Z.to_nat x). split; [lia |]. apply in_seq. lia.
Qed.

Lemma all_from_spec (p : Z -> bool) count k :
  all_from count k p = true ->
  forall j, k <= j < k + Z.of_nat count -> p j = true.
Proof.
  revert k. induction count as [| c IH]; intros k E j Hj; [lia |].
  cbn [all_from] in E. apply andb_true_iff in E. destruct E as [E0 E1].
  destruct (Z.eq_dec j k) as [-> | N]; [exact E0 |].
  apply (IH (k + 1) E1). lia.
Qed.

(** An invariant of the loop state holds after the loop. *)
Lemma for_each_invariant {A S : Type} (I : S -> Prop) (xs : list A)
  (body : A -> S -> result S) :
  (forall x s s', In x xs -> I s -> body x s = Ok s' -> I s') ->
  forall s s', I s -> for_each xs body s = Ok s' -> I s'.
Proof.
  induction xs as [| x xs IH]; simpl; intros Hbody s s' Hs H.
  - now injection H as <-.
  - apply bind_ok in H. destruct H as (s1 & E & H).
    apply (IH (fun y t t' Hy => Hbody y t t' (or_intror Hy)) s1 s');
      [| exact H].
    apply (Hbody x s s1); auto.
Qed.

(** ** Mode and size through the library calls *)

Lemma new_shape m sz ink im :
  new m sz ink = Ok im -> shape im = (m, fst sz, snd sz).
Proof.
  unfold new. destruct (_ || _); [discriminate |]. now intros [= <-].
Qed.

Lemma putpixel_shape im xy ink im' :
  putpixel im xy ink = Ok im' -> shape im' = shape im.
Proof.
  unfold putpixel. destruct (inside im _ _); [| discriminate].
  now intros [= <-].
Qed.

Lemma paste_shape dst src at_ mask im' :
  paste dst src at_ mask = Ok im' -> shape im' = shape dst.
Proof.
  unfold paste. destruct at_ as [x0 y0]. destruct mask as [m |].
  - destruct (_ && _); [| discriminate]. now intros [= <-].
  - now intros [= <-].
Qed.

Lemma putalpha_shape im alpha im' :
  putalpha im alpha = Ok im' -> shape im' = (RGBA, width im, height im).
Proof.
  unfold putalpha. destruct (Mode_eqb (mode im) RGBA);
    (destruct (_ && _); [| discriminate]); now intros [= <-].
Qed.

Lemma fill_region_shape im region ink :
  shape (fill_region im region ink) = shape im.
Proof. reflexivity. Qed.

Lemma Mode_eqb_eq a b : Mode_eqb a b = true <-> a = b.
Proof. destruct a, b; simpl; split; congruence. Qed.

Lemma draw_modules_shape qr module_size border dark_color img img' :
  draw_modules qr module_size border dark_color img = Ok img' ->
  shape img' = shape img.
Proof.
  unfold draw_modules.
  apply (for_each_invariant (fun i => shape i = shape img)); [| reflexivity].
  intros y s s' _ Hs.
  apply (for_each_invariant (fun i => shape i = shape img)); [| exact Hs].
  clear s s' Hs. intros x s s' _ Hs.
  destruct (get_module qr x y); [| now intros [= <-]].
  apply (for_each_invariant (fun i => shape i = shape img)); [| exact Hs].
  clear s s' Hs. intros dy s s' _ Hs.
  apply (for_each_invariant (fun i => shape i = shape img)); [| exact Hs].
  clear s s' Hs. intros dx s s' _ Hs H.
  apply putpixel_shape in H. congruence.
Qed.

Lemma base_image_shape qr module_size border light dark opts img :
  base_image qr module_size border light dark opts = Ok img ->
  shape img =
    (if style_is opts "Gradient Halo" then RGBA else ModeRGB,
     image_size_of qr module_size border,
     image_size_of qr module_size border).
Proof.
  unfold base_image. intros H. bind_inv H.
  apply draw_modules_shape in H. rewrite H.
  destruct (style_is opts "Gradient Halo"); now apply new_shape in E.
Qed.

Lemma logo_background_shape `{Backend} img image_size module_size light dark
  logo opts img' :
  mode img = (if style_is opts "Gradient Halo" then RGBA else ModeRGB) ->
  logo_background img image_size module_size light dark logo opts = Ok img' ->
  shape img' = shape img.
Proof.
  unfold logo_background, halo. intros Hm.
  destruct (style_is opts "Gradient Halo").
  - intros E. apply putalpha_shape in E. rewrite E. unfold shape.
    now rewrite Hm.
  - destruct (style_is opts "Radial Gradient").
    + intros E. bind_inv E. now apply paste_shape in E.
    + now intros [= <-].
Qed.

Lemma logo_border_shape `{Backend} img module_size dark logo logo_x logo_y
  opts img' :
  logo_border img module_size dark logo logo_x logo_y opts = Ok img' ->
  shape img' = shape img.
Proof.
  unfold logo_border. destruct (dict_get (opt_border opts) false).
  - intros E. bind_inv E. bind_inv E. now apply paste_shape in E.
  - now intros [= <-].
Qed.

Lemma integrate_logo_shape `{Backend} img image_size module_size light dark
  logo opts img' :
  mode img = (if style_is opts "Gradient Halo" then RGBA else ModeRGB) ->
  integrate_logo img image_size module_size light dark logo opts = Ok img' ->
  shape img' = shape img.
Proof.
  unfold integrate_logo. intros Hm E.
  bind_inv E. bind_inv E. bind_inv E.
  apply paste_shape in E. apply logo_border_shape in E2.
  apply logo_background_shape in E0; [congruence | exact Hm].
Qed.

(** The canvas before flattening: its mode follows the background style,
    and its size is the image size of line 21. *)
Lemma render_canvas_shape `{Backend} qr module_size border light dark logo opts
  img :
  fst (render_canvas qr module_size border light dark logo opts) = Ok img ->
  shape img =
    (if style_is opts "Gradient Halo" then RGBA else ModeRGB,
     image_size_of qr module_size border,
     image_size_of qr module_size border).
Proof.
  unfold render_canvas.
  destruct (base_image qr module_size border light dark opts) as [img0 |]
    eqn:E0; [| discriminate].
  apply base_image_shape in E0.
  destruct logo as [logo |]; simpl.
  - destruct (logo_max_size _ _) as [n |]; simpl; [| discriminate].
    destruct (thumbnail logo _) as [logo' |]; simpl; [| discriminate].
    intros E. apply integrate_logo_shape in E; [congruence |].
    unfold shape in E0. congruence.
  - now intros [= <-].
Qed.

Lemma flatten_shape light img img' :
  mode img = RGBA \/ mode img = ModeRGB ->
  flatten light img = Ok img' ->
  shape img' = (ModeRGB, width img, height img).
Proof.
  unfold flatten. intros Hm.
  destruct (Mode_eqb (mode img) RGBA) eqn:E.
  - intros H. bind_inv H. apply paste_shape in H. apply new_shape in E0.
    simpl in E0. congruence.
  - intros [= <-]. destruct Hm as [Hm | Hm].
    + apply Mode_eqb_eq in Hm. congruence.
    + unfold shape. now rewrite Hm.
Qed.

Lemma create_qr_image_outcome `{Backend} qr module_size border light dark logo
  opts :
  fst (create_qr_image qr module_size border light dark logo opts) =
  (img <- fst (render_canvas qr module_size border light dark logo opts) ;;
   flatten light img) /\
  snd (create_qr_image qr module_size border light dark logo opts) =
  snd (render_canvas qr module_size border light dark logo opts).
Proof.
  unfold create_qr_image.
  destruct (render_canvas qr module_size border light dark logo opts).
  split; reflexivity.
Qed.

(** The returned image is an RGB image of the size of line 21. *)
Lemma create_qr_image_shape `{Backend} qr module_size border light dark logo
  opts img :
  fst (create_qr_image qr module_size border light dark logo opts) = Ok img ->
  shape img =
    (ModeRGB, image_size_of qr module_size border,
     image_size_of qr module_size border).
Proof.
  rewrite (proj1 (create_qr_image_outcome _ _ _ _ _ _ _)). intros E.
  bind_inv E. apply render_canvas_shape in E0.
  apply flatten_shape in E.
  - unfold shape in E0. injection E0 as _ Hw Hh. congruence.
  - unfold shape in E0. injection E0 as Hm _ _.
    destruct (style_is opts "Gradient Halo"); auto.
Qed.

(** ** The module rasterizer *)

(** A loop whose every round paints, in one ink, the pixels its round
    covers, paints the pixels that some round covers. *)
Lemma for_each_paint {A : Type} (xs : list A)
  (body : A -> Image -> result Image) (cover : A -> Z -> Z -> bool)
  (ink : Pixel) (sh : Mode * Z * Z) :
  (forall a img, In a xs -> shape img = sh ->
     exists img', body a img = Ok img' /\ shape img' = sh /\
       forall x y, getpixel img' x y =
                   if cover a x y then ink else getpixel img x y) ->
  forall img, shape img = sh ->
    exists img', for_each xs body img = Ok img' /\ shape img' = sh /\
      forall x y, getpixel img' x y =
                  if existsb (fun a => cover a x y) xs then ink
                  else getpixel img x y.
Proof.
  induction xs as [| a xs IH]; intros Hbody img Hsh.
  - exists img. simpl. auto.
  - destruct (Hbody a img (or_introl eq_refl) Hsh) as (img1 & E1 & Hsh1 & P1).
    destruct (IH (fun b i Hb => Hbody b i (or_intror Hb)) img1 Hsh1)
      as (img2 & E2 & Hsh2 & P2).
    exists img2. simpl. rewrite E1. simpl. split; [exact E2 |].
    split; [exact Hsh2 |]. intros x y. rewrite P2, P1.
    destruct (cover a x y), (existsb _ xs); reflexivity.
Qed.

Lemma putpixel_paints im x y ink :
  0 <= x < width im -> 0 <= y < height im ->
  exists im', putpixel im (x, y) ink = Ok im' /\ shape im' = shape im /\
    forall x' y', getpixel im' x' y' =
                  if (x' =? x) && (y' =? y) then ink else getpixel im x' y'.
Proof.
  intros Hx Hy. unfold putpixel. simpl.
  destruct (Z.ltb_spec x 0); [lia |]. destruct (Z.ltb_spec y 0); [lia |].
  unfold inside.
  destruct (Z.leb_spec 0 x); [| lia]. destruct (Z.ltb_spec x (width im)); [| lia].
  destruct (Z.leb_spec 0 y); [| lia]. destruct (Z.ltb_spec y (height im)); [| lia].
  simpl. eexists. split; [reflexivity |]. split; reflexivity.
Qed.

Lemma covers_spec qr module_size border x y :
  covers qr module_size border x y = true <->
  in_dark_block qr module_size border x y.
Proof.
  unfold covers, in_dark_block. rewrite existsb_exists. split.
  - intros (my & Hmy & H). apply existsb_exists in H.
    destruct H as (mx & Hmx & H). apply andb_true_iff in H.
    destruct H as [Hmod H]. apply existsb_exists in H.
    destruct H as (dy & Hdy & H). apply existsb_exists in H.
    destruct H as (dx & Hdx & H). apply andb_true_iff in H.
    rewrite !Z.eqb_eq in H. apply in_range in Hmy, Hmx, Hdy, Hdx.
    exists mx, my. repeat split; try assumption; lia.
  - intros (mx & my & Hmx & Hmy & Hmod & Hx & Hy).
    exists my. split; [now apply in_range |]. apply existsb_exists.
    exists mx. split; [now apply in_range |]. rewrite Hmod. simpl.
    apply existsb_exists.
    exists (y - (my + border) * module_size).
    split; [apply in_range; lia |]. apply existsb_exists.
    exists (x - (mx + border) * module_size).
    split; [apply in_range; lia |]. apply andb_true_iff.
    rewrite !Z.eqb_eq. lia.
Qed.

(** Lines 31-36 paint the blocks of the dark modules and nothing else. *)
Lemma draw_modules_paints qr module_size border dark img :
  1 <= module_size -> 0 <= border ->
  width img = image_size_of qr module_size border ->
  height img = image_size_of qr module_size border ->
  exists img', draw_modules qr module_size border dark img = Ok img' /\
    shape img' = shape img /\
    forall x y, getpixel img' x y =
                if covers qr module_size border x y
                then getink (mode img) dark else getpixel img x y.
Proof.
  intros Hm Hb Hw Hh. unfold draw_modules, covers.
  apply (for_each_paint _ _ _ _ (shape img)); [| reflexivity].
  intros my i1 Hmy Hs1. apply in_range in Hmy.
  apply (for_each_paint _ _
           (fun mx x y => get_module qr mx my && _) _ (shape img));
    [| exact Hs1].
  intros mx i2 Hmx Hs2. apply in_range in Hmx.
  destruct (get_module qr mx my); simpl.
  2:{ exists i2. auto. }
  apply (for_each_paint _ _ _ _ (shape img)); [| exact Hs2].
  intros dy i3 Hdy Hs3. apply in_range in Hdy.
  apply (for_each_paint _ _ _ _ (shape img)); [| exact Hs3].
  intros dx i4 Hdx Hs4. apply in_range in Hdx.
  assert (Hm4 : mode i4 = mode img) by (unfold shape in Hs4; congruence).
  assert (Hw4 : width i4 = width img) by (unfold shape in Hs4; congruence).
  assert (Hh4 : height i4 = height img) by (unfold shape in Hs4; congruence).
  rewrite Hm4.
  destruct (putpixel_paints i4 ((mx + border) * module_size + dx)
              ((my + border) * module_size + dy) (getink (mode img) dark))
    as (i5 & E & Hs5 & P).
  - rewrite Hw4, Hw. unfold image_size_of. nia.
  - rewrite Hh4, Hh. unfold image_size_of. nia.
  - exists i5. split; [exact E |]. split; [congruence | exact P].
Qed.

(** ** Colors and blending *)

Lemma clip8_byte v : 0 <= v <= 255 -> clip8 v = v.
Proof. unfold clip8. lia. Qed.

Lemma clip8_range v : 0 <= clip8 v <= 255.
Proof. unfold clip8. lia. Qed.

Lemma getink_rgb c : color_ok c -> getink ModeRGB c = rgb_pixel c.
Proof.
  destruct c as [[r g] b]. simpl. intros (? & ? & ?).
  now rewrite !clip8_byte.
Qed.

Lemma getink_rgba c : color_ok c -> getink RGBA c = rgb_pixel c ++ [255].
Proof.
  destruct c as [[r g] b]. simpl. intros (? & ? & ?).
  now rewrite !clip8_byte.
Qed.

(** An opaque source replaces what lies under it, a transparent one leaves
    it. *)
Lemma div255_255 i : 0 <= i <= 255 -> div255 (i * 255) = i.
Proof.
  intros Hi. unfold div255. rewrite !Z.shiftr_div_pow2 by lia.
  change (2 ^ 8) with 256.
  pose proof (Z.div_mod (i * 255 + 128) 256 ltac:(lia)).
  pose proof (Z.mod_pos_bound (i * 255 + 128) 256 ltac:(lia)).
  set (u := (i * 255 + 128) / 256) in *.
  pose proof (Z.div_mod (u + (i * 255 + 128)) 256 ltac:(lia)).
  pose proof (Z.mod_pos_bound (u + (i * 255 + 128)) 256 ltac:(lia)).
  set (q := (u + (i * 255 + 128)) / 256) in *.
  lia.
Qed.

Lemma blend8_opaque o i : 0 <= i <= 255 -> blend8 255 o i = i.
Proof.
  intros Hi. unfold blend8.
  replace (o * (255 - 255) + i * 255) with (i * 255) by lia.
  now apply div255_255.
Qed.

Lemma blend8_transparent o i : 0 <= o <= 255 -> blend8 0 o i = o.
Proof.
  intros Ho. unfold blend8.
  replace (o * (255 - 0) + i * 0) with (o * 255) by lia.
  now apply div255_255.
Qed.

Lemma base_image_pixels qr module_size border light dark opts :
  1 <= module_size -> 0 <= border -> 0 <= get_size qr ->
  let m := if style_is opts "Gradient Halo" then RGBA else ModeRGB in
  exists img,
    base_image qr module_size border light dark opts = Ok img /\
    shape img = (m, image_size_of qr module_size border,
                 image_size_of qr module_size border) /\
    forall x y, getpixel img x y =
                if covers qr module_size border x y
                then getink m dark else getink m light.
Proof.
  intros Hm Hb Hs m. unfold base_image.
  assert (Hsize : 0 <= image_size_of qr module_size border)
    by (unfold image_size_of; nia).
  set (e := image_size_of qr module_size border) in *.
  assert (exists img0,
    (if style_is opts "Gradient Halo"
     then new RGBA (e, e) (getink RGBA light)
     else new ModeRGB (e, e) (getink ModeRGB light)) = Ok img0 /\
    shape img0 = (m, e, e) /\
    forall x y, getpixel img0 x y = getink m light) as (img0 & E0 & S0 & P0).
  { unfold m, new. simpl. destruct (Z.ltb_spec e 0); [lia |]. simpl.
    destruct (style_is opts "Gradient Halo"); eexists;
      (split; [reflexivity |]); split; reflexivity. }
  rewrite E0. simpl. subst e.
  destruct (draw_modules_paints qr module_size border dark img0 Hm Hb)
    as (img & E & S & P).
  - unfold shape in S0. congruence.
  - unfold shape in S0. congruence.
  - exists img. split; [exact E |]. split; [congruence |].
    intros x y. rewrite P, P0.
    replace (mode img0) with m by (unfold shape in S0; congruence).
    reflexivity.
Qed.

(** Without a logo the call returns, and the returned pixels are those of
    the base image, whatever the background style. *)
Lemma create_qr_image_no_logo `{Backend} qr module_size border light dark opts :
  1 <= module_size -> 0 <= border -> 0 <= get_size qr ->
  exists img,
    create_qr_image qr module_size border light dark None opts
      = (Ok img, None) /\
    forall x y,
      0 <= x < image_size_of qr module_size border ->
      0 <= y < image_size_of qr module_size border ->
      getpixel img x y =
        if covers qr module_size border x y
        then getink ModeRGB dark else getink ModeRGB light.
Proof.
  intros Hm Hb Hs.
  destruct (base_image_pixels qr module_size border light dark opts Hm Hb Hs)
    as (img & E & S & P).
  unfold create_qr_image, render_canvas. rewrite E. simpl.
  unfold flatten.
  assert (Hmode : mode img =
            if style_is opts "Gradient Halo" then RGBA else ModeRGB)
    by (unfold shape in S; congruence).
  assert (Hw : width img = image_size_of qr module_size border)
    by (unfold shape in S; congruence).
  assert (Hh : height img = image_size_of qr module_size border)
    by (unfold shape in S; congruence).
  rewrite Hmode in *.
  destruct (style_is opts "Gradient Halo"); simpl.
  - unfold new, size. simpl. rewrite Hw, Hh.
    destruct (Z.ltb_spec (image_size_of qr module_size border) 0).
    { unfold image_size_of in *. nia. }
    simpl. unfold paste. simpl. rewrite Hmode. simpl.
    rewrite ?Hw, ?Hh, !Z.eqb_refl. simpl. eexists. split; [reflexivity |].
    intros x y Hx Hy. simpl. rewrite !Z.sub_0_r.
    unfold inside. rewrite Hw, Hh.
    destruct (Z.leb_spec 0 x); [| lia].
    destruct (Z.ltb_spec x (image_size_of qr module_size border)); [| lia].
    destruct (Z.leb_spec 0 y); [| lia].
    destruct (Z.ltb_spec y (image_size_of qr module_size border)); [| lia].
    simpl. unfold mask_value. rewrite Hmode, P.
    destruct light as [[lr lg] lb].
    destruct (covers qr module_size border x y);
      [destruct dark as [[dr dg] db] |]; simpl;
      unfold blend_pixel; simpl;
      rewrite !blend8_opaque by apply clip8_range; reflexivity.
  - exists img. split; [reflexivity |]. intros x y _ _. apply P.
Qed.

(** ** The alpha of the halo *)

Lemma halo_alpha_at image_size module_size w h x y :
  halo_alpha image_size module_size (w, h) x y =
  alpha_at (Z.max w h) module_size
    ((2 * x - image_size) ^ 2 + (2 * y - image_size) ^ 2).
Proof. reflexivity. Qed.

Lemma sqrt_fade_bounds m n k :
  0 <= m -> 1 <= k -> m * m < n < (m + 4 * k) ^ 2 ->
  255 * m <= Z.sqrt (65025 * n) < 255 * m + 1020 * k.
Proof.
  intros Hm Hk [Hlo Hhi]. rewrite Z.pow_2_r in Hhi. split.
  - apply Z.sqrt_le_square; nia.
  - apply Z.sqrt_lt_square; nia.
Qed.

Lemma alpha_at_inner m k n : n <= m * m -> alpha_at m k n = 0.
Proof.
  intros H. unfold alpha_at. destruct (Z.leb_spec n (m * m)); [reflexivity | lia].
Qed.

Lemma alpha_at_outer m k n :
  0 <= m -> 1 <= k -> (m + 4 * k) ^ 2 <= n -> alpha_at m k n = 255.
Proof.
  intros Hm Hk H. unfold alpha_at.
  destruct (Z.ltb_spec n ((m + 4 * k) ^ 2)); [lia |].
  rewrite Z.pow_2_r in H.
  destruct (Z.leb_spec n (m * m)); [nia |].
  now rewrite andb_false_r.
Qed.

Lemma alpha_at_middle m k n :
  0 <= m -> 1 <= k -> m * m < n < (m + 4 * k) ^ 2 ->
  alpha_at m k n = (Z.sqrt (65025 * n) - 255 * m) / (4 * k).
Proof.
  intros Hm Hk H.
  pose proof (sqrt_fade_bounds m n k Hm Hk H) as Hr.
  unfold alpha_at.
  destruct (Z.leb_spec n (m * m)); [lia |].
  destruct (Z.ltb_spec 0 (m + 4 * k)); [| lia].
  destruct (Z.ltb_spec n ((m + 4 * k) ^ 2)); [| lia].
  cbn [andb]. apply Z.quot_div_nonneg; lia.
Qed.

Lemma alpha_at_middle_floor m k n :
  0 <= m -> 1 <= k -> m * m < n < (m + 4 * k) ^ 2 ->
  let a := alpha_at m k n in
  0 <= a <= 254 /\
  (4 * k * a + 255 * m) ^ 2 <= 65025 * n < (4 * k * (a + 1) + 255 * m) ^ 2.
Proof.
  intros Hm Hk H a.
  pose proof (sqrt_fade_bounds m n k Hm Hk H) as Hb.
  assert (E : a = (Z.sqrt (65025 * n) - 255 * m) / (4 * k))
    by now apply alpha_at_middle.
  assert (Hn : 0 <= 65025 * n) by nia.
  pose proof (Z.sqrt_spec (65025 * n) Hn) as Hs. unfold Z.succ in Hs.
  set (r := Z.sqrt (65025 * n)) in *.
  assert (Hq : 4 * k * a <= r - 255 * m < 4 * k * (a + 1)).
  { rewrite E. split.
    - apply Z.mul_div_le. lia.
    - pose proof (Z.mul_succ_div_gt (r - 255 * m) (4 * k)) as G.
      unfold Z.succ in G. lia. }
  assert (0 <= a) by (rewrite E; apply Z.div_pos; lia).
  assert (a < 255) by (rewrite E; apply Z.div_lt_upper_bound; lia).
  rewrite !Z.pow_2_r. split; [lia |]. split; nia.
Qed.

Lemma alpha_at_range m k n :
  0 <= m -> 1 <= k -> 0 <= alpha_at m k n <= 255.
Proof.
  intros Hm Hk.
  destruct (Z.le_gt_cases n (m * m)) as [A | A].
  { rewrite alpha_at_inner by assumption. lia. }
  destruct (Z.lt_ge_cases n ((m + 4 * k) ^ 2)) as [B | B].
  - pose proof (alpha_at_middle_floor m k n Hm Hk (conj A B)). simpl in *. lia.
  - rewrite alpha_at_outer by assumption. lia.
Qed.

Lemma alpha_at_mono m k n n' :
  0 <= m -> 1 <= k -> n <= n' -> alpha_at m k n <= alpha_at m k n'.
Proof.
  intros Hm Hk Hle.
  pose proof (alpha_at_range m k n Hm Hk).
  pose proof (alpha_at_range m k n' Hm Hk).
  destruct (Z.le_gt_cases n (m * m)) as [A | A].
  { rewrite (alpha_at_inner m k n) by assumption. lia. }
  destruct (Z.lt_ge_cases n' ((m + 4 * k) ^ 2)) as [B | B].
  2:{ rewrite (alpha_at_outer m k n') by assumption. lia. }
  rewrite !alpha_at_middle by lia.
  apply Z.div_le_mono; [lia |].
  assert (Z.sqrt (65025 * n) <= Z.sqrt (65025 * n'))
    by (apply Z.sqrt_le_mono; lia).
  lia.
Qed.

(** ** The rings of the radial gradient *)

Lemma find_app {A : Type} (f : A -> bool) (l1 l2 : list A) :
  find f (l1 ++ l2) =
  match find f l1 with
  | Some a => Some a
  | None => find f l2
  end.
Proof.
  induction l1 as [| a l1 IH]; simpl; [reflexivity |].
  destruct (f a); [reflexivity | exact IH].
Qed.

(** Ellipses drawn one after the other, each with the ink computed for
    it: a pixel shows the last one that covers it. *)
Lemma for_each_ellipses `{Backend} {A : Type} (xs : list A) (box : A -> Box)
  (ink : A -> result Pixel) :
  forall img img',
    for_each xs (fun a img => p <- ink a ;; draw_ellipse img (box a) p) img
      = Ok img' ->
    shape img' = shape img /\
    forall x y,
      match find (fun a => match ellipse_region (box a) with
                           | Some region => region x y
                           | None => false
                           end) (rev xs) with
      | Some a => ink a = Ok (getpixel img' x y)
      | None => getpixel img' x y = getpixel img x y
      end.
Proof.
  induction xs as [| a xs IH]; simpl; intros img img' E.
  - injection E as <-. auto.
  - apply bind_ok in E. destruct E as (img1 & E1 & E).
    destruct (IH _ _ E) as [S P]. apply bind_ok in E1.
    destruct E1 as (p & Ep & E1). unfold draw_ellipse in E1.
    destruct (ellipse_region (box a)) as [region |] eqn:R; [| discriminate].
    injection E1 as <-. split; [exact S |].
    intros x y. specialize (P x y). rewrite find_app. simpl. rewrite R.
    destruct (find _ (rev xs)); [exact P |]. simpl in P.
    destruct (region x y); congruence.
Qed.

(** The color of ring 0: its ratio is zero, and the sum is the dark channel
    itself. *)
Lemma ring_ratio_edge g : 0 < g <= 65536 -> ring_ratio 0 g = 0%float.
Proof.
  intros Hg.
  assert (R : all_from (Z.to_nat 65536) 1
                (fun k => PrimFloat.Leibniz.eqb (ring_ratio 0 k) 0%float)
              = true)
    by (vm_compute; reflexivity).
  apply FloatAxioms.Leibniz.eqb_spec.
  apply (all_from_spec _ _ _ R). lia.
Qed.

(** The three products written with integers are the binary64 ones, for
    every size up to 65536. *)
Lemma returns_Z_spec r v : returns_Z r v = true -> r = Ok v.
Proof.
  destruct r as [a |]; simpl; [| discriminate].
  intros E. apply Z.eqb_eq in E. now subst.
Qed.

Lemma int_of_float_shift_eq f : int_of_float f = int_of_float_shift f.
Proof.
  unfold int_of_float, int_of_float_shift.
  destruct (Prim2SF f) as [| | | s m e]; try reflexivity.
  destruct (Z.leb_spec 0 e).
  - now rewrite Z.shiftl_mul_pow2.
  - now rewrite Z.shiftr_div_pow2 by lia.
Qed.

Lemma grad_size_binary64 w h :
  0 <= Z.max w h <= 65536 ->
  int_of_float (float_of_int (Z.max w h) * 1.2)%float
    = Ok (grad_size_of (w, h)).
Proof.
  intros Hn. unfold grad_size_of. cbn [fst snd].
  assert (R : all_from (Z.to_nat 65537) 0
                (fun n => returns_Z
                            (int_of_float_shift (float_of_int n * 1.2)%float)
                            (Z.quot (6 * n) 5)) = true)
    by (vm_compute; reflexivity).
  rewrite int_of_float_shift_eq.
  apply returns_Z_spec. apply (all_from_spec _ _ _ R). lia.
Qed.

Lemma corner_radius_binary64 n :
  0 <= n <= 65536 ->
  int_of_float (float_of_int n * 0.2)%float = Ok (Z.quot n 5).
Proof.
  intros Hn.
  assert (R : all_from (Z.to_nat 65537) 0
                (fun n => returns_Z
                            (int_of_float_shift (float_of_int n * 0.2)%float)
                            (Z.quot n 5)) = true)
    by (vm_compute; reflexivity).
  rewrite int_of_float_shift_eq.
  apply returns_Z_spec. apply (all_from_spec _ _ _ R). lia.
Qed.

Lemma border_width_binary64 m :
  0 <= m <= 65536 ->
  r <- int_of_float (float_of_int m * 0.75)%float ;; Ok (Z.max 1 r)
    = Ok (border_width_of m).
Proof.
  intros Hm. unfold border_width_of.
  assert (R : all_from (Z.to_nat 65537) 0
                (fun n => returns_Z
                            (int_of_float_shift (float_of_int n * 0.75)%float)
                            (Z.quot (3 * n) 4)) = true)
    by (vm_compute; reflexivity).
  rewrite int_of_float_shift_eq.
  rewrite (returns_Z_spec _ _ (all_from_spec _ _ _ R m ltac:(lia))).
  reflexivity.
Qed.

Lemma ring_channel_zero l d :
  0 <= l <= 255 -> 0 <= d <= 255 -> ring_channel l d 0%float = Ok d.
Proof.
  intros Hl Hd.
  assert (R : all_from (Z.to_nat 256) 0 (fun a =>
                all_from (Z.to_nat 256) 0 (fun b =>
                  returns_Z
                    (int_of_float_shift
                       (float_of_int a * 0 + float_of_int b * (1 - 0))%float)
                    b)) = true)
    by (vm_compute; reflexivity).
  pose proof (all_from_spec _ _ _ R l ltac:(lia)) as R1. cbv beta in R1.
  unfold ring_channel. rewrite int_of_float_shift_eq.
  apply returns_Z_spec. apply (all_from_spec _ _ _ R1). lia.
Qed.

Lemma ring_color_edge light dark g :
  color_ok light -> color_ok dark -> 0 < g <= 65536 ->
  ring_color light dark 0 g = Ok dark.
Proof.
  destruct light as [[lr lg] lb], dark as [[dr dg] db].
  intros (? & ? & ?) (? & ? & ?) Hg. unfold ring_color.
  rewrite (ring_ratio_edge g Hg), !ring_channel_zero by assumption.
  reflexivity.
Qed.

(** ** Flattening *)

(** [blend8] is source-over blending, rounded to the nearest integer. *)
Lemma div255_nearest t :
  0 <= t <= 65025 -> -127 <= t - 255 * div255 t <= 127.
Proof.
  intros Ht. unfold div255. rewrite !Z.shiftr_div_pow2 by lia.
  change (2 ^ 8) with 256.
  pose proof (Z.div_mod (t + 128) 256 ltac:(lia)).
  pose proof (Z.mod_pos_bound (t + 128) 256 ltac:(lia)).
  set (u := (t + 128) / 256) in *.
  pose proof (Z.div_mod (u + (t + 128)) 256 ltac:(lia)).
  pose proof (Z.mod_pos_bound (u + (t + 128)) 256 ltac:(lia)).
  set (q := (u + (t + 128)) / 256) in *.
  lia.
Qed.

Lemma blend8_source_over a o i :
  0 <= a <= 255 -> 0 <= o <= 255 -> 0 <= i <= 255 ->
  -127 <= o * (255 - a) + i * a - 255 * blend8 a o i <= 127.
Proof.
  intros Ha Ho Hi. unfold blend8. apply div255_nearest. nia.
Qed.

Lemma base_image_size_nonneg qr module_size border light dark opts img :
  base_image qr module_size border light dark opts = Ok img ->
  0 <= image_size_of qr module_size border.
Proof.
  unfold base_image. intros E. bind_inv E. clear E.
  destruct (style_is opts "Gradient Halo"); unfold new in E0;
    cbn [fst snd] in E0;
    destruct (Z.ltb_spec (image_size_of qr module_size border) 0);
    simpl in E0; (discriminate || lia).
Qed.

Lemma render_canvas_size_nonneg `{Backend} qr module_size border light dark
  logo opts canvas :
  fst (render_canvas qr module_size border light dark logo opts) = Ok canvas ->
  0 <= image_size_of qr module_size border.
Proof.
  unfold render_canvas.
  destruct (base_image qr module_size border light dark opts) eqn:E;
    [| discriminate].
  intros _. eapply base_image_size_nonneg, E.
Qed.

Lemma string_eqb_false a b : a <> b -> String.eqb a b = false.
Proof. intros H. now apply String.eqb_neq. Qed.

(** ** The size of a thumbnail *)

Lemma Qdiv_le_Z a c z :
  0 < c -> a <= z * c -> (inject_Z a / inject_Z c <= inject_Z z)%Q.
Proof.
  intros Hc H. apply Qle_shift_div_r.
  - change 0%Q with (inject_Z 0). now rewrite <- Zlt_Qlt.
  - rewrite <- inject_Z_mult, <- Zle_Qle. exact H.
Qed.

Lemma inject_Z_nonzero z : z <> 0 -> ~ (inject_Z z == 0)%Q.
Proof. intros H E. apply H. unfold Qeq in E. simpl in E. lia. Qed.

Lemma Qceiling_le_Z q z : (q <= inject_Z z)%Q -> Qceiling q <= z.
Proof.
  intros H. apply Qceiling_resp_le in H. now rewrite Qceiling_Z in H.
Qed.

Lemma round_aspect_bounds c number bound :
  1 <= bound -> (number <= inject_Z bound)%Q ->
  1 <= round_aspect c number <= bound.
Proof.
  intros Hb H. unfold round_aspect.
  pose proof (Qle_floor_ceiling number) as F. rewrite <- Zle_Qle in F.
  pose proof (Qceiling_le_Z _ _ H).
  destruct c; lia.
Qed.

Lemma aspect_le_square w h n :
  0 < h -> 0 < n ->
  Qle_bool (inject_Z w / inject_Z h) (inject_Z n / inject_Z n) = (w <=? h).
Proof.
  intros Hh Hn.
  assert (E : (inject_Z n / inject_Z n == inject_Z 1)%Q).
  { field. apply inject_Z_nonzero. lia. }
  destruct (Z.leb_spec w h) as [Hle | Hgt].
  - apply Qle_bool_iff. rewrite E. apply Qdiv_le_Z; lia.
  - destruct (Qle_bool _ _) eqn:B; [| reflexivity].
    apply Qle_bool_iff in B. rewrite E in B.
    assert (G : (inject_Z w <= inject_Z 1 * inject_Z h)%Q).
    { setoid_replace (inject_Z w)
        with (inject_Z w / inject_Z h * inject_Z h)%Q
        by (field; apply inject_Z_nonzero; lia).
      apply Qmult_le_compat_r; [exact B |].
      change 0%Q with (inject_Z 0). rewrite <- Zle_Qle. lia. }
    rewrite <- inject_Z_mult, <- Zle_Qle in G. lia.
Qed.

(** A logo of at least one pixel each way and a square request of at
    least one pixel: the logo is left alone when it fits, and otherwise its
    longer edge becomes the requested edge and no edge grows. *)
Lemma thumbnail_size_square `{Backend} w h n :
  1 <= w -> 1 <= h -> 1 <= n ->
  (Z.max w h <= n /\ thumbnail_size w h n n = Ok None) \/
  (n < Z.max w h /\
   exists w' h',
     thumbnail_size w h n n = Ok (Some (w', h')) /\
     1 <= w' <= w /\ 1 <= h' <= h /\ Z.max w' h' = n).
Proof.
  intros Hw Hh Hn. unfold thumbnail_size.
  destruct (Z.leb_spec w n) as [A | A]; simpl.
  - destruct (Z.leb_spec h n) as [B | B]; simpl.
    + left. split; [lia | reflexivity].
    + right. split; [lia |].
      destruct (Z.eqb_spec h 0); [lia |]. destruct (Z.eqb_spec n 0); [lia |].
      rewrite aspect_le_square by lia.
      destruct (Z.leb_spec w h); [| lia].
      eexists _, n. split; [reflexivity |].
      match goal with
      | |- 1 <= round_aspect ?c ?q <= _ /\ _ =>
          assert (R : 1 <= round_aspect c q <= Z.min n w)
      end.
      { apply round_aspect_bounds; [lia |].
        setoid_replace (inject_Z n * (inject_Z w / inject_Z h))%Q
          with (inject_Z (n * w) / inject_Z h)%Q
          by (rewrite inject_Z_mult; field; apply inject_Z_nonzero; lia).
        apply Qdiv_le_Z; nia. }
      lia.
  - right. split; [lia |].
    destruct (Z.eqb_spec h 0); [lia |]. destruct (Z.eqb_spec n 0); [lia |].
    rewrite aspect_le_square by lia.
    destruct (Z.leb_spec w h) as [C | C].
    + eexists _, n. split; [reflexivity |].
      match goal with
      | |- 1 <= round_aspect ?c ?q <= _ /\ _ =>
          assert (R : 1 <= round_aspect c q <= Z.min n w)
      end.
      { apply round_aspect_bounds; [lia |].
        setoid_replace (inject_Z n * (inject_Z w / inject_Z h))%Q
          with (inject_Z (n * w) / inject_Z h)%Q
          by (rewrite inject_Z_mult; field; apply inject_Z_nonzero; lia).
        apply Qdiv_le_Z; nia. }
      lia.
    + eexists n, _. split; [reflexivity |].
      match goal with
      | |- _ /\ 1 <= round_aspect ?c ?q <= _ /\ _ =>
          assert (R : 1 <= round_aspect c q <= Z.min n h)
      end.
      { apply round_aspect_bounds; [lia |].
        setoid_replace (inject_Z n / (inject_Z w / inject_Z h))%Q
          with (inject_Z (n * h) / inject_Z w)%Q
          by (rewrite inject_Z_mult; field; split;
              apply inject_Z_nonzero; lia).
        apply Qdiv_le_Z; nia. }
      lia.
Qed.

Lemma thumbnail_square `{Backend} logo n :
  1 <= width logo -> 1 <= height logo -> 1 <= n ->
  exists logo',
    thumbnail logo (n, n) = Ok logo' /\
    mode logo' = mode logo /\
    1 <= width logo' <= width logo /\ 1 <= height logo' <= height logo /\
    (Z.max (width logo) (height logo) <= n -> logo' = logo) /\
    (n < Z.max (width logo) (height logo) ->
     Z.max (width logo') (height logo') = n /\
     getpixel logo' = resize_lanczos logo (size logo')).
Proof.
  intros Hw Hh Hn. unfold thumbnail. cbn [fst snd].
  destruct (thumbnail_size_square (width logo) (height logo) n Hw Hh Hn)
    as [[Hfit ->] | (Hbig & w' & h' & -> & Hw' & Hh' & Hmax)]; cbn [Py.bind].
  - exists logo. repeat split; lia.
  - cbn [fst snd].
    destruct ((width logo =? w') && (height logo =? h')) eqn:T.
    { apply andb_true_iff in T. rewrite !Z.eqb_eq in T. lia. }
    unfold resize. cbn [fst snd].
    destruct (Z.ltb_spec w' 1); [lia |]. destruct (Z.ltb_spec h' 1); [lia |].
    cbn [orb]. eexists. split; [reflexivity |].
    simpl. repeat split; try lia.
Qed.

(** Once the base image is drawn, the logo object the call leaves is the
    result of [thumbnail]. *)
Lemma logo_after_call `{Backend} qr module_size border light dark logo opts
  n logo' :
  1 <= module_size -> 0 <= border -> 0 <= get_size qr ->
  logo_max_size (image_size_of qr module_size border) opts = Ok n ->
  thumbnail logo (n, n) = Ok logo' ->
  snd (create_qr_image qr module_size border light dark (Some logo) opts)
    = Some logo'.
Proof.
  intros Hm Hb Hs N T.
  destruct (base_image_pixels qr module_size border light dark opts Hm Hb Hs)
    as (img & E & _).
  rewrite (proj2 (create_qr_image_outcome _ _ _ _ _ _ _)).
  unfold render_canvas. rewrite E, N, T. reflexivity.
Qed.

(** ** Well-formed pixels *)

Lemma image_wf_bands im : image_wf im -> image_bands im.
Proof. intros H x y. apply H. Qed.

Lemma getink_wf m c : pixel_wf m (getink m c).
Proof.
  destruct c as [[r g] b]. unfold pixel_wf, byte.
  destruct m; simpl; (split; [reflexivity |]);
    repeat constructor; try apply clip8_range; lia.
Qed.

Lemma blend_pixel_opaque dst src :
  Forall byte src -> (length dst <= length src)%nat ->
  blend_pixel 255 dst src = firstn (length dst) src.
Proof.
  unfold blend_pixel. revert src.
  induction dst as [| o dst IH]; intros src Hs Hl; [reflexivity |].
  destruct src as [| i src]; [simpl in Hl; lia |].
  inversion Hs; subst. simpl. rewrite blend8_opaque by assumption.
  f_equal. apply IH; [assumption | simpl in Hl; lia].
Qed.

Lemma blend_pixel_transparent dst src :
  Forall byte dst -> (length dst <= length src)%nat ->
  blend_pixel 0 dst src = dst.
Proof.
  unfold blend_pixel. revert src.
  induction dst as [| o dst IH]; intros src Hd Hl; [reflexivity |].
  destruct src as [| i src]; [simpl in Hl; lia |].
  inversion Hd; subst. simpl. rewrite blend8_transparent by assumption.
  f_equal. apply IH; [assumption | simpl in Hl; lia].
Qed.

Lemma blend_pixel_length a dst src :
  (length dst <= length src)%nat ->
  length (blend_pixel a dst src) = length dst.
Proof.
  intros H. unfold blend_pixel. rewrite length_map, length_combine. lia.
Qed.

Lemma pasted_pixel_wf from to p :
  pixel_wf from p ->
  (bands to <= length (pasted_pixel from to p))%nat /\
  Forall byte (pasted_pixel from to p) /\
  firstn (bands to) (pasted_pixel from to p) = convert_pixel from to p.
Proof.
  intros [Hlen Hb]. unfold pasted_pixel.
  assert (Hluma : forall r g b, byte r -> byte g -> byte b ->
            byte (Z.shiftr (r * 19595 + g * 38470 + b * 7471 + 32768) 16)).
  { unfold byte. intros r g b Hr Hg Hb'. rewrite Z.shiftr_div_pow2 by lia.
    change (2 ^ 16) with 65536. split.
    - apply Z.div_pos; lia.
    - assert ((r * 19595 + g * 38470 + b * 7471 + 32768) / 65536 < 256);
        [| lia].
      apply Z.div_lt_upper_bound; lia. }
  assert (H255 : byte 255) by (unfold byte; lia).
  destruct from, to; simpl in *;
    repeat (destruct p as [| ? p]; simpl in Hlen; try discriminate);
    repeat match goal with
           | Hf : Forall byte (_ :: _) |- _ => inversion Hf; subst; clear Hf
           end;
    simpl; repeat split; auto; try lia.
Qed.

Lemma paste_pixels dst src x0 y0 mask im' :
  paste dst src (x0, y0) mask = Ok im' ->
  forall x y,
    getpixel im' x y =
    if inside src (x - x0) (y - y0) then
      blend_pixel (opacity mask (x - x0) (y - y0)) (getpixel dst x y)
        (pasted_pixel (mode src) (mode dst) (getpixel src (x - x0) (y - y0)))
    else getpixel dst x y.
Proof.
  unfold paste, pasted_pixel, opacity. intros E x y.
  destruct (Mode_eqb (mode dst) (mode src)) eqn:Em.
  - destruct mask as [m |].
    + destruct (_ && _); [| discriminate]. now injection E as <-.
    + now injection E as <-.
  - destruct (mode dst) eqn:Ed, (mode src) eqn:Es; try discriminate Em;
      simpl in E; destruct mask as [m |];
      try (destruct (_ && _); [| discriminate]); injection E as <-; simpl;
      unfold inside; simpl; rewrite ?Es, ?Ed; reflexivity.
Qed.

(** Where the mask is opaque the pasted image shows, converted to the mode
    of the destination. *)
Lemma paste_covered dst src x0 y0 mask im' x y :
  paste dst src (x0, y0) (Some mask) = Ok im' ->
  image_bands dst -> image_wf src ->
  inside src (x - x0) (y - y0) = true ->
  mask_value mask (x - x0) (y - y0) = 255 ->
  getpixel im' x y =
    convert_pixel (mode src) (mode dst) (getpixel src (x - x0) (y - y0)).
Proof.
  intros E Hd Hs Hin Hm. rewrite (paste_pixels _ _ _ _ _ _ E), Hin.
  cbn [opacity]. rewrite Hm.
  destruct (pasted_pixel_wf (mode src) (mode dst) _ (Hs (x - x0) (y - y0)))
    as (Hl & Hb & Hc).
  rewrite blend_pixel_opaque; [| exact Hb | rewrite Hd; exact Hl].
  rewrite Hd. exact Hc.
Qed.

(** Outside the pasted box, and where the mask is transparent, the
    destination is unchanged. *)
Lemma paste_uncovered dst src x0 y0 mask im' x y :
  paste dst src (x0, y0) (Some mask) = Ok im' ->
  image_wf src ->
  pixel_wf (mode dst) (getpixel dst x y) ->
  inside src (x - x0) (y - y0) = false \/
  mask_value mask (x - x0) (y - y0) = 0 ->
  getpixel im' x y = getpixel dst x y.
Proof.
  intros E Hs [Hl Hb] Hcase. rewrite (paste_pixels _ _ _ _ _ _ E).
  destruct (inside src (x - x0) (y - y0)) eqn:Hin; [| reflexivity].
  destruct Hcase as [|Hm]; [discriminate |]. cbn [opacity]. rewrite Hm.
  destruct (pasted_pixel_wf (mode src) (mode dst) _ (Hs (x - x0) (y - y0)))
    as (Hl' & _ & _).
  apply blend_pixel_transparent; [exact Hb | lia].
Qed.

Lemma paste_bands dst src at_ mask im' :
  paste dst src at_ mask = Ok im' ->
  image_bands dst -> image_wf src -> image_bands im'.
Proof.
  intros E Hd Hs x y.
  pose proof (paste_shape _ _ _ _ _ E) as S. unfold shape in S.
  injection S as -> _ _. destruct at_ as [x0 y0].
  rewrite (paste_pixels _ _ _ _ _ _ E).
  destruct (inside src _ _); [| apply Hd].
  destruct (pasted_pixel_wf (mode src) (mode dst) _ (Hs (x - x0) (y - y0)))
    as (Hl & _ & _).
  rewrite blend_pixel_length; [apply Hd | rewrite Hd; exact Hl].
Qed.

Lemma new_wf m sz ink im :
  new m sz ink = Ok im -> pixel_wf m ink -> image_wf im.
Proof.
  unfold new. destruct (_ || _); [discriminate |]. intros [= <-] H x y.
  exact H.
Qed.

Lemma putpixel_bands im xy ink im' :
  putpixel im xy ink = Ok im' -> image_bands im ->
  length ink = bands (mode im) -> image_bands im'.
Proof.
  unfold putpixel. destruct (inside im _ _); [| discriminate].
  intros [= <-] Hb Hl x y. simpl. destruct (_ && _); [exact Hl | apply Hb].
Qed.

Lemma draw_modules_bands qr module_size border dark img img' :
  draw_modules qr module_size border dark img = Ok img' ->
  image_bands img -> image_bands img'.
Proof.
  intros E Hb.
  assert (I : image_bands img' /\ mode img' = mode img); [| apply I].
  revert E. unfold draw_modules.
  apply (for_each_invariant
           (fun i => image_bands i /\ mode i = mode img)); [| auto].
  intros y s s' _ Hs.
  apply (for_each_invariant
           (fun i => image_bands i /\ mode i = mode img)); [| exact Hs].
  clear s s' Hs. intros x s s' _ Hs.
  destruct (get_module qr x y); [| now intros [= <-]].
  apply (for_each_invariant
           (fun i => image_bands i /\ mode i = mode img)); [| exact Hs].
  clear s s' Hs. intros dy s s' _ Hs.
  apply (for_each_invariant
           (fun i => image_bands i /\ mode i = mode img)); [| exact Hs].
  clear s s' Hs. intros dx s s' _ [Hs Hm] E. split.
  - eapply putpixel_bands; [exact E | exact Hs | apply getink_wf].
  - apply putpixel_shape in E. unfold shape in E. congruence.
Qed.

Lemma base_image_bands qr module_size border light dark opts img :
  base_image qr module_size border light dark opts = Ok img ->
  image_bands img.
Proof.
  unfold base_image. intros E. bind_inv E.
  eapply draw_modules_bands; [exact E |]. apply image_wf_bands.
  destruct (style_is opts "Gradient Halo");
    (eapply new_wf; [exact E0 | apply getink_wf]).
Qed.

Lemma fill_region_wf im region ink :
  image_wf im -> pixel_wf (mode im) ink -> image_wf (fill_region im region ink).
Proof.
  intros Hi Hp x y. simpl. destruct (region x y); [exact Hp | apply Hi].
Qed.

Lemma radial_gradient_wf `{Backend} light dark logo_size grad :
  radial_gradient light dark logo_size = Ok grad ->
  image_wf grad /\ mode grad = ModeRGB.
Proof.
  unfold radial_gradient. intros E. bind_inv E. revert E.
  apply (for_each_invariant (fun i => image_wf i /\ mode i = ModeRGB)).
  - intros i s s' _ [Hs Hm] Ei. bind_inv Ei. revert Ei. unfold draw_ellipse.
    destruct (ellipse_region _); [| discriminate]. intros [= <-].
    split; [| exact Hm]. apply fill_region_wf; [exact Hs |].
    rewrite Hm. apply getink_wf.
  - split.
    + eapply new_wf; [exact E0 |]. split; [reflexivity |].
      unfold byte. repeat constructor; lia.
    + apply new_shape in E0. unfold shape in E0. congruence.
Qed.

Lemma logo_background_bands `{Backend} img image_size module_size light dark
  logo opts bg :
  logo_background img image_size module_size light dark logo opts = Ok bg ->
  mode img = (if style_is opts "Gradient Halo" then RGBA else ModeRGB) ->
  image_bands img -> image_bands bg.
Proof.
  unfold logo_background. intros E Hm Hb.
  destruct (style_is opts "Gradient Halo").
  - unfold halo, putalpha in E. rewrite Hm in E. cbn [Mode_eqb] in E.
    destruct (_ && _); [| discriminate]. injection E as <-.
    intros x y. specialize (Hb x y). rewrite Hm in Hb. simpl.
    destruct (getpixel img x y) as [| ? [| ? [| ? [| ? [| ? ?]]]]];
      simpl in Hb; try discriminate; reflexivity.
  - destruct (style_is opts "Radial Gradient").
    + bind_inv E. eapply paste_bands; [exact E | exact Hb |].
      now apply radial_gradient_wf in E0.
    + now injection E as <-.
Qed.

(** A shape mask is an image of mode L whose values are 0 and 255. *)
Lemma logo_mask_wf `{Backend} logo_shape logo_size mask :
  logo_mask logo_shape logo_size = Ok mask ->
  image_wf mask /\ size mask = logo_size /\
  forall x y, mask_value mask x y = 0 \/ mask_value mask x y = 255.
Proof.
  unfold logo_mask. intros E. bind_inv E.
  unfold new in E0. destruct (_ || _); [discriminate |]. injection E0 as <-.
  assert (Hfill : forall region,
    let m := fill_region
               (mkImage L (fst logo_size) (snd logo_size) (fun _ _ => [0]))
               region [255] in
    image_wf m /\ size m = logo_size /\
    forall x y, mask_value m x y = 0 \/ mask_value m x y = 255).
  { intros region. simpl. split; [| split].
    - intros x y. simpl. unfold pixel_wf, byte.
      destruct (region x y); (split; [reflexivity |]);
        repeat constructor; lia.
    - unfold size. simpl. now destruct logo_size.
    - intros x y. unfold mask_value. simpl. destruct (region x y); auto. }
  destruct (String.eqb logo_shape "Circle").
  - unfold draw_ellipse in E. destruct (ellipse_region _); [| discriminate].
    injection E as <-. apply Hfill.
  - destruct (String.eqb logo_shape "Rounded Rectangle").
    + unfold draw_rounded_rectangle, draw_rectangle in E.
      destruct (_ && _); [injection E as <-; apply Hfill |].
      destruct (rounded_region _ _); [| discriminate].
      injection E as <-. apply Hfill.
    + unfold draw_rectangle in E. injection E as <-. apply Hfill.
Qed.

(** The pixels of the flattened image. *)
Lemma flatten_pixels light canvas img :
  flatten light canvas = Ok img ->
  forall x y,
    0 <= x < width canvas -> 0 <= y < height canvas ->
    getpixel img x y =
      if Mode_eqb (mode canvas) RGBA
      then blend_pixel (nth 3 (getpixel canvas x y) 0)
             (getink ModeRGB light) (getpixel canvas x y)
      else getpixel canvas x y.
Proof.
  unfold flatten. intros E x y Hx Hy.
  destruct (Mode_eqb (mode canvas) RGBA) eqn:Em.
  - apply Mode_eqb_eq in Em. bind_inv E.
    rewrite (paste_pixels _ _ _ _ _ _ E). rewrite !Z.sub_0_r.
    unfold inside.
    destruct (Z.leb_spec 0 x); [| lia].
    destruct (Z.ltb_spec x (width canvas)); [| lia].
    destruct (Z.leb_spec 0 y); [| lia].
    destruct (Z.ltb_spec y (height canvas)); [| lia].
    simpl. unfold mask_value. rewrite Em.
    unfold new in E0. destruct (_ || _); [discriminate |].
    injection E0 as <-. reflexivity.
  - now injection E as <-.
Qed.

Lemma create_with_logo_inv `{Backend} qr module_size border light dark logo
  opts img logo' :
  create_qr_image qr module_size border light dark (Some logo) opts
    = (Ok img, Some logo') ->
  exists base canvas,
    base_image qr module_size border light dark opts = Ok base /\
    integrate_logo base (image_size_of qr module_size border) module_size
      light dark logo' opts = Ok canvas /\
    flatten light canvas = Ok img.
Proof.
  unfold create_qr_image, render_canvas.
  destruct (base_image qr module_size border light dark opts) as [base |];
    [| discriminate].
  destruct (logo_max_size _ _) as [n |]; [| discriminate].
  destruct (thumbnail logo _) as [logo2 |]; [| discriminate].
  intros E. injection E as E <-. bind_inv E. eauto.
Qed.

Lemma inside_same_size a b x y :
  size a = size b -> inside a x y = inside b x y.
Proof. unfold size, inside. now intros [= -> ->]. Qed.

Lemma convert_pixel_same m p : m <> L -> convert_pixel m m p = p.
Proof. destruct m; [congruence | |]; intros _; now destruct p. Qed.

(** ** Renders with a logo return *)

Lemma logo_mask_returns `{Backend} logo_shape w h :
  accepts_ordered_boxes -> 0 <= w -> 0 <= h ->
  exists mask, logo_mask logo_shape (w, h) = Ok mask.
Proof.
  intros Hacc Hw Hh. unfold logo_mask, new. cbn [fst snd].
  destruct (Z.ltb_spec w 0); [lia |]. destruct (Z.ltb_spec h 0); [lia |].
  cbn [orb Py.bind].
  destruct (Hacc 0 0 w h Hw Hh) as [He Hr].
  destruct (String.eqb logo_shape "Circle").
  - unfold draw_ellipse. destruct (ellipse_region (0, 0, w, h));
      [eauto | congruence].
  - destruct (String.eqb logo_shape "Rounded Rectangle").
    + unfold draw_rounded_rectangle, draw_rectangle.
      destruct (_ && _); [eauto |].
      specialize (Hr (Z.quot (Z.min w h) 5)).
      destruct (rounded_region (0, 0, w, h) _); [eauto | congruence].
    + unfold draw_rectangle. eauto.
Qed.

Lemma paste_returns dst src at_ mask :
  size mask = size src -> exists im', paste dst src at_ (Some mask) = Ok im'.
Proof.
  unfold size. intros [= Hw Hh]. unfold paste. destruct at_ as [x0 y0].
  destruct (Mode_eqb (mode dst) (mode src)).
  - rewrite Hw, Hh, !Z.eqb_refl. simpl. eauto.
  - destruct (mode dst), (mode src); simpl; rewrite Hw, Hh, !Z.eqb_refl;
      simpl; eauto.
Qed.

Lemma flatten_returns light canvas :
  mode canvas = RGBA \/ mode canvas = ModeRGB ->
  0 <= width canvas -> 0 <= height canvas ->
  exists img, flatten light canvas = Ok img.
Proof.
  intros Hm Hw Hh. unfold flatten.
  destruct (Mode_eqb (mode canvas) RGBA); [| eauto].
  unfold new, size. cbn [fst snd].
  destruct (Z.ltb_spec (width canvas) 0); [lia |].
  destruct (Z.ltb_spec (height canvas) 0); [lia |].
  cbn [orb Py.bind]. apply paste_returns. reflexivity.
Qed.

Lemma border_width_of_pos module_size : 1 <= border_width_of module_size.
Proof. unfold border_width_of. lia. Qed.

(** With a module size of at least 1, a non-negative border, a logo of at
    least one pixel each way, a size bound of at least 1, a library that
    accepts ordered boxes, and any background style but the radial one, the
    call returns an image. *)
Lemma create_qr_image_returns `{Backend} qr module_size border light dark logo
  opts n :
  1 <= module_size -> 0 <= border -> 0 <= get_size qr ->
  1 <= width logo -> 1 <= height logo ->
  logo_max_size (image_size_of qr module_size border) opts = Ok n -> 1 <= n ->
  accepts_ordered_boxes ->
  style_is opts "Gradient Halo" = true \/
  style_is opts "Radial Gradient" = false ->
  exists img,
    fst (create_qr_image qr module_size border light dark (Some logo) opts)
      = Ok img.
Proof.
  intros Hm Hb Hs Hw Hh N Hn Hacc Hstyle.
  destruct (base_image_pixels qr module_size border light dark opts Hm Hb Hs)
    as (base & Ebase & Sbase & _).
  destruct (thumbnail_square logo n Hw Hh Hn)
    as (logo' & T & _ & Tw & Th & _).
  assert (exists canvas,
    fst (render_canvas qr module_size border light dark (Some logo) opts)
      = Ok canvas) as (canvas & Ec).
  { unfold render_canvas. rewrite Ebase, N, T. cbn [fst].
    unfold integrate_logo.
    assert (exists bg,
      logo_background base (image_size_of qr module_size border) module_size
        light dark logo' opts = Ok bg) as (bg & ->).
    { unfold logo_background, shape in *. injection Sbase as Mb Wb Hb'.
      destruct (style_is opts "Gradient Halo").
      - unfold halo, putalpha, fromarray. rewrite Mb. simpl.
        rewrite Wb, Hb', !Z.eqb_refl. simpl. eauto.
      - destruct Hstyle as [? | ->]; [discriminate | eauto]. }
    cbn [Py.bind].
    destruct (logo_mask_returns (dict_get (opt_shape opts) "Square"%string)
                (width logo') (height logo') Hacc) as (mask & Emask);
      [lia | lia |].
    unfold size at 1. rewrite Emask. cbn [Py.bind].
    destruct (logo_mask_wf _ _ _ Emask) as (_ & Smask & _).
    assert (exists fr,
      logo_border bg module_size dark logo'
        ((image_size_of qr module_size border - width logo') / 2)
        ((image_size_of qr module_size border - height logo') / 2) opts
        = Ok fr) as (fr & ->).
    { unfold logo_border. destruct (dict_get (opt_border opts) false);
        [| eauto].
      pose proof (border_width_of_pos module_size) as Hbw.
      unfold border_frame_size_of.
      set (bw := border_width_of module_size) in *.
      change (@border_mask H) with (@logo_mask H).
      destruct (logo_mask_returns (dict_get (opt_shape opts) "Square"%string)
                  (width logo' + bw * 2) (height logo' + bw * 2) Hacc)
        as (fmask & Efmask); [lia | lia |].
      rewrite Efmask. cbn [Py.bind].
      destruct (logo_mask_wf _ _ _ Efmask) as (_ & Sfmask & _).
      unfold new. cbn [fst snd].
      destruct (Z.ltb_spec (width logo' + bw * 2) 0); [lia |].
      destruct (Z.ltb_spec (height logo' + bw * 2) 0); [lia |].
      cbn [orb Py.bind]. apply paste_returns. exact Sfmask. }
    cbn [Py.bind]. apply paste_returns. exact Smask. }
  pose proof (render_canvas_size_nonneg _ _ _ _ _ _ _ _ Ec) as Hsize.
  pose proof (render_canvas_shape _ _ _ _ _ _ _ _ Ec) as Sc.
  unfold shape in Sc. injection Sc as Mc Wc Hc.
  destruct (flatten_returns light canvas) as (img & E); [| lia | lia |].
  { rewrite Mc. destruct (style_is opts "Gradient Halo"); auto. }
  exists img.
  now rewrite (proj1 (create_qr_image_outcome _ _ _ _ _ _ _)), Ec.
Qed.

(** ** The examples *)

Lemma example_logo_wf w h : image_wf (example_logo w h).
Proof.
  intros x y. simpl. split; [reflexivity |]. unfold byte.
  pose proof (Z.mod_pos_bound x 256 ltac:(lia)).
  pose proof (Z.mod_pos_bound y 256 ltac:(lia)).
  repeat constructor; lia.
Qed.

Lemma example_backend_accepts : @accepts_ordered_boxes example_backend.
Proof. intros x0 y0 x1 y1 _ _. split; [| intros r]; discriminate. Qed.



(** ** Renders pixel by pixel *)

Lemma block_division m k x :
  1 <= m -> (k * m <= x < k * m + m <-> x / m = k).
Proof.
  intros Hm. split.
  - intros Hx. symmetry. apply (Z.div_unique x m k (x - k * m)); lia.
  - intros <-. pose proof (Z.div_mod x m ltac:(lia)).
    pose proof (Z.mod_pos_bound x m ltac:(lia)). lia.
Qed.

Lemma covers_dark_under qr module_size border x y :
  1 <= module_size ->
  covers qr module_size border x y = dark_under qr module_size border x y.
Proof.
  intros Hm. apply eq_true_iff_eq. rewrite covers_spec.
  unfold in_dark_block, dark_under, module_under.
  rewrite !andb_true_iff, !Z.leb_le, !Z.ltb_lt. split.
  - intros (mx & my & Hmx & Hmy & Hmod & Hx & Hy).
    apply block_division in Hx, Hy; try assumption.
    rewrite Hx, Hy.
    replace (mx + border - border) with mx by lia.
    replace (my + border - border) with my by lia.
    repeat split; try lia. exact Hmod.
  - intros ((((A & B) & C) & D) & E).
    exists (x / module_size - border), (y / module_size - border).
    repeat split; try lia; try exact E.
    + apply (block_division module_size (x / module_size - border + border) x);
        [lia | lia].
    + apply (block_division module_size (x / module_size - border + border) x);
        [lia | lia].
    + apply (block_division module_size (y / module_size - border + border) y);
        [lia | lia].
    + apply (block_division module_size (y / module_size - border + border) y);
        [lia | lia].
Qed.

Lemma inside_in_rect im x0 y0 x y :
  inside im (x - x0) (y - y0) = in_rect x0 y0 (width im) (height im) x y.
Proof.
  unfold inside, in_rect. apply eq_true_iff_eq.
  rewrite !andb_true_iff, !Z.leb_le, !Z.ltb_lt. lia.
Qed.

Lemma in_rect_bounds x0 y0 w h x y :
  in_rect x0 y0 w h x y = true ->
  0 <= x - x0 < w /\ 0 <= y - y0 < h.
Proof.
  unfold in_rect. rewrite !andb_true_iff, !Z.leb_le, !Z.ltb_lt. lia.
Qed.

(** The frame of lines 92-108, pixel by pixel. *)
Lemma logo_border_pixels `{Backend} bg module_size dark logo logo_x logo_y
  opts fr :
  logo_border bg module_size dark logo logo_x logo_y opts = Ok fr ->
  mode bg = canvas_mode_of opts ->
  let bw := border_width_of module_size in
  if dict_get (opt_border opts) false then
    exists fmask,
      logo_mask (dict_get (opt_shape opts) "Square"%string)
        (border_frame_size_of logo bw) = Ok fmask /\
      forall x y,
        getpixel fr x y =
          if in_rect (logo_x - bw) (logo_y - bw) (width logo + bw * 2)
               (height logo + bw * 2) x y
          then blend_pixel
                 (mask_value fmask (x - (logo_x - bw)) (y - (logo_y - bw)))
                 (getpixel bg x y) (getink (canvas_mode_of opts) dark)
          else getpixel bg x y
  else fr = bg.
Proof.
  intros E Mbg bw. unfold logo_border in E. fold bw in E.
  destruct (dict_get (opt_border opts) false); [| now injection E as <-].
  apply bind_ok in E. destruct E as (fmask & Efmask & E).
  apply bind_ok in E. destruct E as (frame & Eframe & E).
  change (border_mask (dict_get (opt_shape opts) "Square"%string))
    with (logo_mask (dict_get (opt_shape opts) "Square"%string)) in Efmask.
  exists fmask. split; [exact Efmask |]. intros x y.
  assert (Fmode : (if Mode_eqb (mode bg) RGBA then RGBA else ModeRGB)
                  = canvas_mode_of opts).
  { rewrite Mbg. unfold canvas_mode_of.
    destruct (style_is opts "Gradient Halo"); reflexivity. }
  rewrite Fmode in Eframe.
  pose proof (new_shape _ _ _ _ Eframe) as Sframe.
  unfold shape, border_frame_size_of in Sframe. cbn [fst snd] in Sframe.
  injection Sframe as Mf Wf Hf.
  assert (Pframe : forall x y,
            getpixel frame x y = getink (canvas_mode_of opts) dark).
  { unfold new in Eframe. destruct (_ || _); [discriminate |].
    now injection Eframe as <-. }
  rewrite (paste_pixels _ _ _ _ _ _ E), inside_in_rect, Wf, Hf.
  destruct (in_rect _ _ _ _ x y); [| reflexivity].
  cbn [opacity]. f_equal. unfold pasted_pixel.
  rewrite Mf, Mbg, Pframe.
  unfold canvas_mode_of. destruct (style_is opts "Gradient Halo"); reflexivity.
Qed.

(** Outside the rectangle of the frame, and without a frame, the frame
    step leaves the background as it is. *)
Lemma logo_border_outside `{Backend} bg module_size dark logo logo_x logo_y
  opts fr x y :
  logo_border bg module_size dark logo logo_x logo_y opts = Ok fr ->
  mode bg = canvas_mode_of opts ->
  let bw := border_width_of module_size in
  (dict_get (opt_border opts) false = true ->
   in_rect (logo_x - bw) (logo_y - bw) (width logo + bw * 2)
     (height logo + bw * 2) x y = false) ->
  getpixel fr x y = getpixel bg x y.
Proof.
  intros E Mbg bw Hout.
  pose proof (logo_border_pixels _ _ _ _ _ _ _ _ E Mbg) as F.
  cbv zeta in F. fold bw in F.
  destruct (dict_get (opt_border opts) false); [| now subst].
  destruct F as (fmask & _ & F). now rewrite F, (Hout eq_refl).
Qed.

(** A render with a logo that returns, pixel by pixel: the logo through its
    mask over the framed background, flattened. *)
Lemma logo_layers `{Backend} qr module_size border light dark logo opts img
  logo' :
  create_qr_image qr module_size border light dark (Some logo) opts
    = (Ok img, Some logo') ->
  let image_size := image_size_of qr module_size border in
  let logo_x := (image_size - width logo') / 2 in
  let logo_y := (image_size - height logo') / 2 in
  exists base bg fr mask,
    base_image qr module_size border light dark opts = Ok base /\
    logo_background base image_size module_size light dark logo' opts
      = Ok bg /\
    logo_border bg module_size dark logo' logo_x logo_y opts = Ok fr /\
    logo_mask (dict_get (opt_shape opts) "Square"%string) (size logo')
      = Ok mask /\
    mode bg = canvas_mode_of opts /\ image_bands bg /\
    forall x y,
      0 <= x < image_size -> 0 <= y < image_size ->
      getpixel img x y =
        flat_pixel opts light
          (if in_rect logo_x logo_y (width logo') (height logo') x y
           then blend_pixel (mask_value mask (x - logo_x) (y - logo_y))
                  (getpixel fr x y)
                  (pasted_pixel (mode logo') (canvas_mode_of opts)
                     (getpixel logo' (x - logo_x) (y - logo_y)))
           else getpixel fr x y).
Proof.
  intros E image_size logo_x logo_y.
  destruct (create_with_logo_inv _ _ _ _ _ _ _ _ _ E)
    as (base & canvas & Ebase & Eint & Eflat).
  pose proof (base_image_shape _ _ _ _ _ _ _ Ebase) as Sbase.
  pose proof (base_image_bands _ _ _ _ _ _ _ Ebase) as Bbase.
  unfold integrate_logo in Eint. fold image_size logo_x logo_y in Eint.
  apply bind_ok in Eint. destruct Eint as (bg & Ebg & Eint).
  apply bind_ok in Eint. destruct Eint as (mask & Emask & Eint).
  apply bind_ok in Eint. destruct Eint as (fr & Efr & Ecanvas).
  assert (Mbase : mode base = canvas_mode_of opts)
    by (unfold shape in Sbase; unfold canvas_mode_of; congruence).
  pose proof (logo_background_shape _ _ _ _ _ _ _ _ Mbase Ebg) as Sbg.
  pose proof (logo_background_bands _ _ _ _ _ _ _ _ Ebg Mbase Bbase) as Bbg.
  pose proof (logo_border_shape _ _ _ _ _ _ _ _ Efr) as Sfr.
  pose proof (paste_shape _ _ _ _ _ Ecanvas) as Scanvas.
  assert (Mbg : mode bg = canvas_mode_of opts)
    by (unfold shape in *; congruence).
  assert (Mfr : mode fr = canvas_mode_of opts)
    by (unfold shape in *; congruence).
  assert (Mcanvas : mode canvas = canvas_mode_of opts)
    by (unfold shape in *; congruence).
  assert (Wcanvas : width canvas = image_size)
    by (unfold shape in *; unfold image_size; congruence).
  assert (Hcanvas : height canvas = image_size)
    by (unfold shape in *; unfold image_size; congruence).
  exists base, bg, fr, mask.
  repeat (split; [assumption |]).
  intros x y Hx Hy.
  rewrite (flatten_pixels _ _ _ Eflat x y) by lia.
  rewrite Mcanvas. unfold flat_pixel, canvas_mode_of at 1.
  rewrite (paste_pixels _ _ _ _ _ _ Ecanvas), inside_in_rect, Mfr.
  cbn [opacity].
  destruct (style_is opts "Gradient Halo"); reflexivity.
Qed.

(** A render whose logo fits the bound returns and leaves the logo as it
    is. *)
Lemma create_qr_image_fits `{Backend} qr module_size border light dark logo
  opts n :
  1 <= module_size -> 0 <= border -> 0 <= get_size qr ->
  1 <= width logo -> 1 <= height logo ->
  logo_max_size (image_size_of qr module_size border) opts = Ok n -> 1 <= n ->
  Z.max (width logo) (height logo) <= n ->
  accepts_ordered_boxes ->
  style_is opts "Gradient Halo" = true \/
  style_is opts "Radial Gradient" = false ->
  exists img,
    create_qr_image qr module_size border light dark (Some logo) opts
      = (Ok img, Some logo).
Proof.
  intros Hm Hb Hs Hw Hh N Hn Hfit Hacc Hstyle.
  destruct (create_qr_image_returns qr module_size border light dark logo opts
              n Hm Hb Hs Hw Hh N Hn Hacc Hstyle) as (img & E).
  destruct (thumbnail_square logo n Hw Hh Hn)
    as (logo' & T & _ & _ & _ & Tfit & _).
  rewrite (Tfit Hfit) in T.
  pose proof (logo_after_call qr module_size border light dark logo opts n
                logo Hm Hb Hs N T) as S.
  exists img.
  destruct (create_qr_image qr module_size border light dark (Some logo) opts)
    as [r l].
  simpl in E, S. now subst.
Qed.

(** A loop one of whose rounds raises whatever the state raises. *)
Lemma for_each_raises {A S : Type} (xs : list A) (body : A -> S -> result S)
  (a : A) :
  In a xs -> (forall s, exists e, body a s = Raise e) ->
  forall s, exists e, for_each xs body s = Raise e.
Proof.
  induction xs as [| x xs IH]; intros Hin Hbody s; [contradiction |].
  simpl. destruct Hin as [-> | Hin].
  - destruct (Hbody s) as (e & ->). simpl. eauto.
  - destruct (body x s) as [s' | e]; simpl; [| eauto].
    now apply IH.
Qed.

Lemma radial_gradient_raises `{Backend} light dark w h :
  refuses_inverted_boxes -> 2 <= Z.max w h ->
  exists e, radial_gradient light dark (w, h) = Raise e.
Proof.
  intros Hstrict Hmax. unfold radial_gradient.
  set (g := grad_size_of (w, h)).
  assert (Hg : 2 <= g).
  { unfold g, grad_size_of. cbn [fst snd].
    rewrite Z.quot_div_nonneg by lia.
    apply Z.div_le_lower_bound; lia. }
  unfold new. cbn [fst snd].
  destruct (Z.ltb_spec g 0); [lia |]. cbn [orb Py.bind].
  apply (for_each_raises _ _ (g - 1)); [apply in_range; lia |].
  intros s. destruct (ring_color light dark (g - 1) g) as [fill | e];
    cbn [Py.bind]; [| eauto].
  unfold draw_ellipse, ring_box. rewrite Hstrict by lia. eauto.
Qed.

(** The gradient buffer of lines 65-74, pixel by pixel. *)
Lemma radial_gradient_pixels `{Backend} light dark logo_size grad :
  radial_gradient light dark logo_size = Ok grad ->
  let g := grad_size_of logo_size in
  width grad = g /\ height grad = g /\
  forall u v,
    match find (fun i => ring_covers g i u v) (rev (range g)) with
    | Some i =>
        exists fill,
          ring_color light dark i g = Ok fill /\
          getpixel grad u v = getink ModeRGB fill
    | None => getpixel grad u v = [0; 0; 0]
    end.
Proof.
  intros E g. unfold radial_gradient in E. fold g in E.
  apply bind_ok in E. destruct E as (img0 & E0 & E).
  pose proof (for_each_ellipses (range g) (fun i => ring_box i g)
                (fun i => fill <- ring_color light dark i g ;;
                          Ok (getink ModeRGB fill)) img0 grad) as F.
  destruct F as [S P].
  { rewrite <- E. clear E. generalize img0.
    induction (range g) as [| i l IH]; intros im; [reflexivity |].
    simpl. destruct (ring_color light dark i g); simpl; [| reflexivity].
    destruct (draw_ellipse im _ _); simpl; [apply IH | reflexivity]. }
  unfold new in E0. cbn [fst snd] in E0.
  destruct (_ || _); [discriminate |]. injection E0 as <-.
  unfold shape in S. simpl in S. injection S as _ Sw Sh.
  split; [exact Sw |]. split; [exact Sh |]. intros u v.
  specialize (P u v). unfold ring_covers.
  destruct (find _ (rev (range g))) as [i |]; [| exact P].
  destruct (ring_color light dark i g) as [fill |]; [| discriminate].
  simpl in P. exists fill. split; [reflexivity | congruence].
Qed.

Lemma example_radial_returns :
  exists img,
    @create_qr_image example_backend example_qr 4 2 white blue
      (Some (example_logo 5 5)) radial_options
    = (Ok img, Some (example_logo 5 5)).
Proof.
  assert (A : is_ok (fst (@create_qr_image example_backend example_qr 4 2
                            white blue (Some (example_logo 5 5))
                            radial_options)) = true)
    by (vm_compute; reflexivity).
  assert (B : snd (@create_qr_image example_backend example_qr 4 2
                     white blue (Some (example_logo 5 5)) radial_options)
              = Some (example_logo 5 5)).
  { apply (@logo_after_call example_backend example_qr 4 2 white blue
             (example_logo 5 5) radial_options 6);
      [lia | lia | simpl; lia | reflexivity | reflexivity]. }
  destruct (@create_qr_image example_backend example_qr 4 2 white blue
              (Some (example_logo 5 5)) radial_options) as [[img | e] l];
    [| discriminate].
  exists img. simpl in B. now subst.
Qed.

(** ** A bound below one pixel *)

Lemma aspect_vs_square w h n :
  0 < h -> n <> 0 ->
  Qle_bool (inject_Z w / inject_Z h) (inject_Z n / inject_Z n) = (w <=? h).
Proof.
  intros Hh Hn.
  assert (E : (inject_Z n / inject_Z n == inject_Z 1)%Q).
  { field. apply inject_Z_nonzero. lia. }
  destruct (Z.leb_spec w h) as [Hle | Hgt].
  - apply Qle_bool_iff. rewrite E. apply Qdiv_le_Z; lia.
  - destruct (Qle_bool _ _) eqn:B; [| reflexivity].
    apply Qle_bool_iff in B. rewrite E in B.
    assert (G : (inject_Z w <= inject_Z 1 * inject_Z h)%Q).
    { setoid_replace (inject_Z w)
        with (inject_Z w / inject_Z h * inject_Z h)%Q
        by (field; apply inject_Z_nonzero; lia).
      apply Qmult_le_compat_r; [exact B |].
      change 0%Q with (inject_Z 0). rewrite <- Zle_Qle. lia. }
    rewrite <- inject_Z_mult, <- Zle_Qle in G. lia.
Qed.

(** A bound below one pixel: [thumbnail] raises and the logo stays. *)
Lemma thumbnail_below_one `{Backend} logo n :
  1 <= width logo -> 1 <= height logo -> n <= 0 ->
  thumbnail logo (n, n)
    = Raise (if n =? 0 then ZeroDivisionError else ValueError).
Proof.
  intros Hw Hh Hn. unfold thumbnail, thumbnail_size. cbn [fst snd].
  destruct (Z.leb_spec (width logo) n); [lia |]. cbn [andb].
  destruct (Z.eqb_spec (height logo) 0); [lia |].
  destruct (Z.eqb_spec n 0) as [-> | Hn0]; [reflexivity |].
  rewrite aspect_vs_square by lia.
  destruct (width logo <=? height logo); cbn [Py.bind fst snd].
  - destruct (Z.eqb_spec (height logo) n); [lia |].
    rewrite andb_false_r. unfold resize. cbn [fst snd].
    destruct (Z.ltb_spec n 1); [| lia]. now rewrite orb_true_r.
  - destruct (Z.eqb_spec (width logo) n); [lia |]. cbn [andb].
    unfold resize. cbn [fst snd].
    destruct (Z.ltb_spec n 1); [| lia]. reflexivity.
Qed.

(** ** Well-formed canvases *)

Lemma blend8_byte a o i :
  0 <= a <= 255 -> 0 <= o <= 255 -> 0 <= i <= 255 ->
  0 <= blend8 a o i <= 255.
Proof.
  intros Ha Ho Hi. pose proof (blend8_source_over a o i Ha Ho Hi). nia.
Qed.

Lemma blend_pixel_bytes a dst src :
  byte a -> Forall byte dst -> Forall byte src ->
  Forall byte (blend_pixel a dst src).
Proof.
  unfold blend_pixel, byte. intros Ha Hd. revert src.
  induction Hd as [| o dst Ho Hd IH]; intros src Hs; [constructor |].
  destruct Hs as [| i src Hi Hs]; [constructor |].
  simpl. constructor; [now apply blend8_byte | now apply IH].
Qed.

(** Pasting well-formed images through a mask of bytes gives a
    well-formed image. *)
Lemma paste_wf dst src at_ mask im' :
  paste dst src at_ mask = Ok im' ->
  image_wf dst -> image_wf src ->
  (forall x y, byte (opacity mask x y)) ->
  image_wf im'.
Proof.
  intros E Hd Hs Hm x y.
  pose proof (paste_shape _ _ _ _ _ E) as S. unfold shape in S.
  injection S as -> _ _. destruct at_ as [x0 y0].
  rewrite (paste_pixels _ _ _ _ _ _ E).
  destruct (inside src _ _); [| apply Hd].
  destruct (pasted_pixel_wf (mode src) (mode dst) _ (Hs (x - x0) (y - y0)))
    as (Hl & Hb & _).
  destruct (Hd x y) as [Ld Bd]. split.
  - rewrite blend_pixel_length; [exact Ld | rewrite Ld; exact Hl].
  - now apply blend_pixel_bytes.
Qed.

Lemma mask_opacity_byte `{Backend} logo_shape sz mask x y :
  logo_mask logo_shape sz = Ok mask -> byte (opacity (Some mask) x y).
Proof.
  intros E. destruct (logo_mask_wf _ _ _ E) as (_ & _ & V).
  cbn [opacity]. unfold byte. destruct (V x y) as [-> | ->]; lia.
Qed.

(** The canvas before flattening is well formed when the logo that is
    pasted on it is. *)
Lemma integrate_logo_wf `{Backend} qr module_size border light dark logo opts
  base canvas :
  1 <= module_size -> 0 <= border -> 0 <= get_size qr ->
  base_image qr module_size border light dark opts = Ok base ->
  integrate_logo base (image_size_of qr module_size border) module_size light
    dark logo opts = Ok canvas ->
  image_wf logo -> 0 <= width logo -> 0 <= height logo ->
  image_wf canvas.
Proof.
  intros Hm Hb Hs Ebase Eint Hlogo Hw Hh.
  destruct (base_image_pixels qr module_size border light dark opts Hm Hb Hs)
    as (base' & Ebase' & Sbase & Pbase).
  rewrite Ebase in Ebase'. injection Ebase' as <-.
  unfold shape in Sbase. injection Sbase as Mb Wb Hb'.
  assert (Wbase : image_wf base).
  { intros x y. rewrite Pbase, Mb.
    destruct (covers qr module_size border x y); apply getink_wf. }
  unfold integrate_logo in Eint.
  apply bind_ok in Eint. destruct Eint as (bg & Ebg & Eint).
  apply bind_ok in Eint. destruct Eint as (mask & Emask & Eint).
  apply bind_ok in Eint. destruct Eint as (fr & Efr & Ecanvas).
  assert (Wbg : image_wf bg).
  { unfold logo_background in Ebg.
    destruct (style_is opts "Gradient Halo") eqn:Hhalo.
    - unfold halo, putalpha, fromarray in Ebg. rewrite Mb in Ebg.
      cbn [Mode_eqb width height] in Ebg.
      destruct (_ && _); [| discriminate]. injection Ebg as <-.
      intros x y. cbn [mode getpixel]. unfold mask_value. cbn [mode getpixel nth].
      destruct (Wbase x y) as [Lb Bb]. rewrite Mb in Lb.
      destruct (getpixel base x y) as [| r [| g [| b0 [| a [| ? ?]]]]];
        try discriminate Lb.
      cbn [firstn app]. split; [reflexivity |].
      inversion Bb as [| ? ? Br Bb1]; subst.
      inversion Bb1 as [| ? ? Bg Bb2]; subst.
      inversion Bb2 as [| ? ? Bbl _]; subst.
      apply Forall_cons; [exact Br |]. apply Forall_cons; [exact Bg |].
      apply Forall_cons; [exact Bbl |]. apply Forall_cons; [| constructor].
      unfold size. rewrite halo_alpha_at. apply alpha_at_range; lia.
    - destruct (style_is opts "Radial Gradient").
      + apply bind_ok in Ebg. destruct Ebg as (grad & Egrad & Ebg).
        apply (paste_wf _ _ _ _ _ Ebg Wbase).
        * now apply radial_gradient_wf in Egrad.
        * intros x y. cbn [opacity]. unfold byte. lia.
      + now injection Ebg as <-. }
  assert (Wfr : image_wf fr).
  { unfold logo_border in Efr.
    destruct (dict_get (opt_border opts) false);
      [| now injection Efr as <-].
    apply bind_ok in Efr. destruct Efr as (fmask & Efmask & Efr).
    apply bind_ok in Efr. destruct Efr as (frame & Eframe & Efr).
    apply (paste_wf _ _ _ _ _ Efr Wbg).
    - eapply new_wf; [exact Eframe | apply getink_wf].
    - intros x y.
      change (border_mask (dict_get (opt_shape opts) "Square"%string))
        with (logo_mask (dict_get (opt_shape opts) "Square"%string)) in Efmask.
      now apply (mask_opacity_byte _ _ _ x y Efmask). }
  apply (paste_wf _ _ _ _ _ Ecanvas Wfr Hlogo).
  intros x y. now apply (mask_opacity_byte _ _ _ x y Emask).
Qed.

Lemma render_canvas_wf `{Backend} qr module_size border light dark logo opts
  canvas logo' :
  1 <= module_size -> 0 <= border -> 0 <= get_size qr ->
  render_canvas qr module_size border light dark logo opts
    = (Ok canvas, logo') ->
  (forall l, logo' = Some l ->
             image_wf l /\ 0 <= width l /\ 0 <= height l) ->
  image_wf canvas.
Proof.
  intros Hm Hb Hs E Hl. unfold render_canvas in E.
  destruct (base_image qr module_size border light dark opts) as [base |]
    eqn:Ebase; [| discriminate].
  destruct logo as [logo |].
  - destruct (logo_max_size _ _) as [n |]; [| discriminate].
    destruct (thumbnail logo _) as [logo2 |]; [| discriminate].
    injection E as E <-.
    destruct (Hl logo2 eq_refl) as (W & W0 & H0).
    now apply (integrate_logo_wf qr module_size border light dark logo2 opts
                 base canvas).
  - injection E as <- _.
    destruct (base_image_pixels qr module_size border light dark opts Hm Hb Hs)
      as (base' & Ebase' & Sbase & Pbase).
    rewrite Ebase in Ebase'. injection Ebase' as <-.
    unfold shape in Sbase. injection Sbase as Mb _ _.
    intros x y. rewrite Pbase, Mb.
    destruct (covers qr module_size border x y); apply getink_wf.
Qed.

(** ** The three layers *)



(** ** A ring of the gradient at one quarter *)

(** The ring a quarter of the way in: its ratio is one quarter, and a
    channel is the mean of the light color and three times the dark one,
    rounded down. *)
Lemma ring_ratio_quarter i :
  0 < i <= 16384 -> ring_ratio i (4 * i) = 0.25%float.
Proof.
  intros Hi.
  assert (R : all_from (Z.to_nat 16384) 1
                (fun k => PrimFloat.Leibniz.eqb (ring_ratio k (4 * k))
                            0.25%float) = true)
    by (vm_compute; reflexivity).
  apply FloatAxioms.Leibniz.eqb_spec.
  apply (all_from_spec _ _ _ R). lia.
Qed.

Lemma ring_channel_quarter l d :
  0 <= l <= 255 -> 0 <= d <= 255 ->
  ring_channel l d 0.25%float = Ok ((l + 3 * d) / 4).
Proof.
  intros Hl Hd.
  assert (R : all_from (Z.to_nat 256) 0 (fun a =>
                all_from (Z.to_nat 256) 0 (fun b =>
                  returns_Z
                    (int_of_float_shift
                       (float_of_int a * 0.25
                        + float_of_int b * (1 - 0.25))%float)
                    ((a + 3 * b) / 4))) = true)
    by (vm_compute; reflexivity).
  pose proof (all_from_spec _ _ _ R l ltac:(lia)) as R1. cbv beta in R1.
  unfold ring_channel. rewrite int_of_float_shift_eq.
  apply returns_Z_spec. apply (all_from_spec _ _ _ R1). lia.
Qed.

(** * The claims *)

(** ** C1: the size of the returned image *)

(** C1.  For a module size of at least 1, a non-negative border and a
    grid of size [s], every image that [create_qr_image] returns, with or
    without a logo and whatever the shape and the background style, is a
    square of edge [(s + 2 * border) * module_size].  Without a logo the call
    does return; with a logo of at least one pixel each way and a size bound
    of at least 1 it returns in the solid and halo styles, as long as the
    library draws the shapes it is asked for. *)
Theorem create_qr_image_edge `{Backend} qr module_size border light dark logo
  opts :
  1 <= module_size -> 0 <= border -> 0 <= get_size qr ->
  (forall img,
      fst (create_qr_image qr module_size border light dark logo opts) = Ok img ->
      width img = (get_size qr + 2 * border) * module_size /\
      height img = (get_size qr + 2 * border) * module_size) /\
  (logo = None ->
   exists img,
     fst (create_qr_image qr module_size border light dark logo opts) = Ok img) /\
  (forall logo_image n,
      logo = Some logo_image ->
      1 <= width logo_image -> 1 <= height logo_image ->
      logo_max_size (image_size_of qr module_size border) opts = Ok n ->
      1 <= n ->
      accepts_ordered_boxes ->
      style_is opts "Gradient Halo" = true \/
      style_is opts "Radial Gradient" = false ->
      exists img,
        fst (create_qr_image qr module_size border light dark logo opts)
          = Ok img).
Proof.
  intros Hm Hb Hs. split; [| split].
  - intros img E. apply create_qr_image_shape in E.
    unfold shape, image_size_of in E. injection E as _ Hw Hh.
    rewrite Hw, Hh. split; f_equal; lia.
  - intros ->.
    destruct (create_qr_image_no_logo qr module_size border light dark opts
                Hm Hb Hs) as (img & E & _).
    exists img. now rewrite E.
  - intros logo_image n -> Hw Hh N Hn Hacc Hstyle.
    now apply (create_qr_image_returns _ _ _ _ _ _ _ n).
Qed.

(** C1 on the grid of two modules, with modules of 3 pixels and a border
    of one module: an edge of 12 pixels. *)
Lemma create_qr_image_edge_witness :
  1 <= 3 /\ 0 <= 1 /\ 0 <= get_size example_qr /\
  (forall img,
      fst (@create_qr_image example_backend example_qr 3 1 white black None
             no_options) = Ok img ->
      width img = 12 /\ height img = 12) /\
  exists img,
    fst (@create_qr_image example_backend example_qr 3 1 white black None
           no_options) = Ok img.
Proof.
  assert (H1 : 1 <= 3) by lia. assert (H2 : 0 <= 1) by lia.
  assert (H3 : 0 <= get_size example_qr) by (simpl; lia).
  split; [exact H1 |]. split; [exact H2 |]. split; [exact H3 |].
  destruct (@create_qr_image_edge example_backend example_qr 3 1 white black
              None no_options H1 H2 H3) as (A & B & _).
  split; [exact A | exact (B eq_refl)].
Defined.

(** ** C2: the two colors of a render without logo *)

(** C2.  Without a logo, for a module size of at least 1, a non-negative
    border and byte-valued colors, the call returns an image in which every
    pixel of the block of a dark module is [dark_color] and every other
    pixel is [light_color]; the quiet zone of [border] modules around the
    grid is [light_color] throughout. *)
Theorem no_logo_two_colors `{Backend} qr module_size border light dark opts :
  1 <= module_size -> 0 <= border -> 0 <= get_size qr ->
  color_ok light -> color_ok dark ->
  exists img,
    create_qr_image qr module_size border light dark None opts
      = (Ok img, None) /\
    forall x y,
      0 <= x < (get_size qr + 2 * border) * module_size ->
      0 <= y < (get_size qr + 2 * border) * module_size ->
      (in_dark_block qr module_size border x y ->
       getpixel img x y = rgb_pixel dark) /\
      (~ in_dark_block qr module_size border x y ->
       getpixel img x y = rgb_pixel light) /\
      (x < border * module_size \/
       (get_size qr + border) * module_size <= x \/
       y < border * module_size \/
       (get_size qr + border) * module_size <= y ->
       getpixel img x y = rgb_pixel light).
Proof.
  intros Hm Hb Hs Hl Hd.
  destruct (create_qr_image_no_logo qr module_size border light dark opts
              Hm Hb Hs) as (img & E & P).
  exists img. split; [exact E |]. intros x y Hx Hy.
  assert (Hp := P x y).
  unfold image_size_of in Hp.
  replace (border * 2) with (2 * border) in Hp by lia.
  specialize (Hp Hx Hy).
  rewrite (getink_rgb _ Hl), (getink_rgb _ Hd) in Hp.
  assert (Hnot : ~ in_dark_block qr module_size border x y ->
                 getpixel img x y = rgb_pixel light).
  { intros Hn. rewrite Hp.
    destruct (covers qr module_size border x y) eqn:C; [| reflexivity].
    apply covers_spec in C. contradiction. }
  split; [| split].
  - intros Hin. apply covers_spec in Hin. now rewrite Hp, Hin.
  - exact Hnot.
  - intros Hq. apply Hnot.
    intros (mx & my & Hmx & Hmy & _ & Hbx & Hby). nia.
Qed.

(** C2 on the same render: the dark block of the module (0, 0) and the
    quiet zone around the grid. *)
Lemma no_logo_two_colors_witness :
  1 <= 3 /\ 0 <= 1 /\ 0 <= get_size example_qr /\
  color_ok white /\ color_ok blue /\
  exists img,
    @create_qr_image example_backend example_qr 3 1 white blue None no_options
      = (Ok img, None) /\
    getpixel img 4 5 = [0; 0; 255] /\ getpixel img 1 7 = [255; 255; 255].
Proof.
  assert (H1 : 1 <= 3) by lia. assert (H2 : 0 <= 1) by lia.
  assert (H3 : 0 <= get_size example_qr) by (simpl; lia).
  assert (H4 : color_ok white) by (simpl; lia).
  assert (H5 : color_ok blue) by (simpl; lia).
  repeat (split; [assumption |]).
  destruct (@no_logo_two_colors example_backend example_qr 3 1 white blue
              no_options H1 H2 H3 H4 H5) as (img & E & P).
  exists img. split; [exact E |]. split.
  - apply (P 4 5); [simpl; lia | simpl; lia |].
    exists 0, 0. simpl. repeat split; lia.
  - apply (P 1 7); [simpl; lia | simpl; lia |]. left. lia.
Defined.

(** ** C3: the halo *)

(** C3, as the specification states it: in the fade zone the alpha value
    would be the quotient itself.  With an image of 42 pixels, modules of 2
    pixels and a logo of 8 by 8, the pixel (24, 25) lies at distance 5 from
    the center (21, 21), between the radii 4 and 8; the quotient is 63.75
    and the alpha written is 63. *)
Lemma halo_alpha_truncates :
  (2 * 24 - 42) ^ 2 + (2 * 25 - 42) ^ 2 = (2 * 5) ^ 2 /\
  halo_alpha 42 2 (8, 8) 24 25 = 63 /\
  (spec_halo_fade 5 (8 # 2) ((8 # 2) + 2 * 2) == 255 # 4)%Q /\
  ~ (inject_Z (halo_alpha 42 2 (8, 8)%Z 24 25)
     == spec_halo_fade 5 (8 # 2) ((8 # 2) + 2 * 2))%Q.
Proof.
  split; [reflexivity |]. split; [reflexivity |]. split; [reflexivity |].
  vm_compute. discriminate.
Qed.

(** C3, amended.  In the halo style the alpha band of every pixel of the
    canvas is set from its distance [d] to the center of the image.  With
    [m = max(logoWidth, logoHeight)], so that the inner radius is [m/2] and
    the outer one [m/2 + 2 * module_size], and with [n = 4*d*d]: the alpha is
    0 when [d <= innerRadius] ([n <= m*m]), 255 when [d >= outerRadius]
    ([n >= (m + 4*module_size)^2]), and between the radii it is the integer
    part [a] of [255 * (d - innerRadius) / (outerRadius - innerRadius)], that
    is [a <= 255 * (sqrt n - m) / (4 * module_size) < a + 1].  The alpha
    never decreases when the distance grows. *)
Theorem halo_alpha_profile image_size module_size w h :
  1 <= module_size -> 0 <= w -> 0 <= h ->
  let m := Z.max w h in
  let dist2 x y := (2 * x - image_size) ^ 2 + (2 * y - image_size) ^ 2 in
  let alpha := halo_alpha image_size module_size (w, h) in
  (forall img logo,
      mode img = RGBA ->
      width img = image_size -> height img = image_size ->
      size logo = (w, h) ->
      exists img',
        halo img image_size module_size logo = Ok img' /\
        forall x y, getpixel img' x y =
                    firstn 3 (getpixel img x y) ++ [alpha x y]) /\
  (forall x y, dist2 x y <= m * m -> alpha x y = 0) /\
  (forall x y, (m + 4 * module_size) ^ 2 <= dist2 x y -> alpha x y = 255) /\
  (forall x y, m * m < dist2 x y < (m + 4 * module_size) ^ 2 ->
     0 <= alpha x y <= 254 /\
     (4 * module_size * alpha x y + 255 * m) ^ 2 <= 65025 * dist2 x y
       < (4 * module_size * (alpha x y + 1) + 255 * m) ^ 2) /\
  (forall x y x' y', dist2 x y <= dist2 x' y' -> alpha x y <= alpha x' y').
Proof.
  intros Hk Hw Hh m dist2 alpha.
  assert (Hm : 0 <= m) by (unfold m; lia).
  assert (E : forall x y, alpha x y = alpha_at m module_size (dist2 x y))
    by reflexivity.
  split; [| split; [| split; [| split]]].
  - intros img logo Hmode Hiw Hih Hsz. unfold halo, putalpha, fromarray.
    simpl. rewrite Hsz, Hmode. simpl. rewrite Hiw, Hih, !Z.eqb_refl. simpl.
    eexists. split; reflexivity.
  - intros x y H. rewrite E. now apply alpha_at_inner.
  - intros x y H. rewrite E. now apply alpha_at_outer.
  - intros x y H. rewrite E. now apply alpha_at_middle_floor.
  - intros x y x' y' H. rewrite !E. now apply alpha_at_mono.
Qed.

(** C3 for an image of 42 pixels, modules of 2 pixels and a logo of 8 by
    8: the center, a pixel of the fade zone and a corner. *)
Lemma halo_alpha_profile_witness :
  1 <= 2 /\ 0 <= 8 /\
  halo_alpha 42 2 (8, 8) 21 21 = 0 /\
  0 <= halo_alpha 42 2 (8, 8) 24 25 <= 254 /\
  halo_alpha 42 2 (8, 8) 0 0 = 255.
Proof.
  assert (H1 : 1 <= 2) by lia. assert (H2 : 0 <= 8) by lia.
  split; [exact H1 |]. split; [exact H2 |].
  destruct (halo_alpha_profile 42 2 8 8 H1 H2 H2) as (_ & A & B & C & _).
  split; [| split].
  - apply (A 21 21). simpl. lia.
  - apply (C 24 25). simpl. lia.
  - apply (B 0 0). simpl. lia.
Defined.

(** ** C4: the radial gradient *)

(** C4, as the specification states it: the rings would be indexed from
    the center outward and filled with [lerpChannel(light, dark, ratio)], so
    that the edge of the disc is light and its center dark.  For a logo of
    5 by 5, white as light color and blue as dark color: ring 0 spans the
    whole buffer of 6 by 6, ring 1 lies inside it, ring 0 is filled with the
    dark color where [lerpChannel] gives the light one, and on the rendered
    buffer the pixel (0, 2) of the edge is dark while the pixel (2, 2) of the
    center is lighter. *)
Lemma radial_gradient_edge_is_dark :
  grad_size_of (5, 5) = 6 /\
  ring_box 0 6 = (0, 0, 5, 5) /\ ring_box 1 6 = (1, 1, 4, 4) /\
  ring_color (255, 255, 255) (0, 0, 255) 0 6 = Ok (0, 0, 255) /\
  spec_lerp_channel 255 0 (0 # 6) = 255 /\
  exists grad,
    @radial_gradient example_backend (255, 255, 255) (0, 0, 255) (5, 5)
      = Ok grad /\
    getpixel grad 0 2 = [0; 0; 255] /\
    getpixel grad 2 2 = [85; 85; 255].
Proof.
  repeat (split; [reflexivity |]).
  eexists. split; [reflexivity |]. split; reflexivity.
Qed.

(** C4, amended.  In the radial style the gradient buffer is a square of
    edge [g = floor(1.2 * max(logoWidth, logoHeight))].  Ring [i] is filled,
    per channel, with [int(light * ratio + dark * (1 - ratio))] for
    [ratio = i / g], computed in binary64 and truncated.  Ring 0 has the box
    of the whole buffer and every next ring a box inside the one before, so
    [i] counts from the edge inward: for byte colors, ring 0, at the edge, is
    exactly the dark color when the buffer has at most 65536 pixels a side,
    and the ring a quarter of the way in ([g = 4 * i]) holds
    [floor((light + 3 * dark) / 4)].  Whenever the buffer is produced it
    measures [g] by [g], and each of its pixels shows the innermost ring
    whose ellipse covers it, and black where no ring does. *)
Theorem radial_gradient_rings `{Backend} light dark w h :
  0 <= w -> 0 <= h -> color_ok light -> color_ok dark ->
  let g := grad_size_of (w, h) in
  g = 6 * Z.max w h / 5 /\
  (forall i,
      ring_color light dark i g =
        let ratio := (float_of_int i / float_of_int g)%float in
        let channel l d :=
          int_of_float
            (float_of_int l * ratio + float_of_int d * (1 - ratio))%float in
        r <- channel (fst (fst light)) (fst (fst dark)) ;;
        g' <- channel (snd (fst light)) (snd (fst dark)) ;;
        b <- channel (snd light) (snd dark) ;;
        Ok (r, g', b)) /\
  (0 < g <= 65536 -> ring_color light dark 0 g = Ok dark) /\
  (forall i,
      0 < i <= 16384 -> g = 4 * i ->
      ring_color light dark i g =
        Ok ((fst (fst light) + 3 * fst (fst dark)) / 4,
            (snd (fst light) + 3 * snd (fst dark)) / 4,
            (snd light + 3 * snd dark) / 4)) /\
  (forall x y, in_box (ring_box 0 g) x y = true <-> 0 <= x < g /\ 0 <= y < g) /\
  (forall i x y, in_box (ring_box (i + 1) g) x y = true ->
                 in_box (ring_box i g) x y = true) /\
  (forall grad,
      radial_gradient light dark (w, h) = Ok grad ->
      width grad = g /\ height grad = g /\
      forall x y,
        match find (fun i => ring_covers g i x y) (rev (range g)) with
        | Some i =>
            exists fill,
              ring_color light dark i g = Ok fill /\
              getpixel grad x y = getink ModeRGB fill
        | None => getpixel grad x y = [0; 0; 0]
        end).
Proof.
  intros Hw Hh Hl Hd g.
  assert (Eg : g = 6 * Z.max w h / 5).
  { unfold g, grad_size_of. cbn [fst snd]. apply Z.quot_div_nonneg; lia. }
  split; [exact Eg |]. split.
  { intros i. destruct light as [[lr lg] lb], dark as [[dr dg] db].
    reflexivity. }
  split; [intros Hg; now apply ring_color_edge |]. split.
  { intros i Hi E4. rewrite E4.
    destruct light as [[lr lg] lb], dark as [[dr dg] db].
    destruct Hl as (? & ? & ?), Hd as (? & ? & ?).
    unfold ring_color. rewrite (ring_ratio_quarter i Hi).
    rewrite !ring_channel_quarter by assumption. reflexivity. }
  split.
  { intros x y. unfold ring_box, in_box.
    rewrite !andb_true_iff, !Z.leb_le. lia. }
  split.
  { intros i x y. unfold ring_box, in_box.
    rewrite !andb_true_iff, !Z.leb_le. lia. }
  intros grad E. now apply (radial_gradient_pixels light dark (w, h) grad).
Qed.

(** C4 for a logo of 7 by 7 between white and blue: the buffer of 8 by 8,
    black in its corner, blue at its edge and lighter ring by ring. *)
Lemma radial_gradient_rings_witness :
  0 <= 7 /\ color_ok white /\ color_ok blue /\
  grad_size_of (7, 7) = 8 /\
  ring_color white blue 0 8 = Ok blue /\
  ring_color white blue 2 8 = Ok (63, 63, 255) /\
  exists grad,
    @radial_gradient example_backend white blue (7, 7) = Ok grad /\
    width grad = 8 /\
    getpixel grad 0 0 = [0; 0; 0] /\
    getpixel grad 0 3 = [0; 0; 255] /\
    getpixel grad 2 3 = [63; 63; 255] /\
    getpixel grad 3 3 = [95; 95; 255].
Proof.
  assert (H1 : 0 <= 7) by lia.
  assert (H4 : color_ok white) by (simpl; lia).
  assert (H5 : color_ok blue) by (simpl; lia).
  repeat (split; [assumption |]).
  destruct (@radial_gradient_rings example_backend white blue 7 7 H1 H1 H4 H5)
    as (A & _ & B & C & _ & _ & D).
  split; [exact A |].
  split; [apply B; vm_compute; split; congruence |].
  split; [apply (C 2); [lia | reflexivity] |].
  assert (exists grad,
            @radial_gradient example_backend white blue (7, 7) = Ok grad)
    as (grad & E) by (eexists; reflexivity).
  exists grad. split; [exact E |].
  destruct (D grad E) as (Dw & _ & P).
  split; [exact Dw |].
  pose proof (P 0 0) as P0. pose proof (P 0 3) as P1.
  pose proof (P 2 3) as P2. pose proof (P 3 3) as P3.
  vm_compute in P0, P1, P2, P3.
  destruct P1 as (f1 & F1 & G1). injection F1 as <-.
  destruct P2 as (f2 & F2 & G2). injection F2 as <-.
  destruct P3 as (f3 & F3 & G3). injection F3 as <-.
  split; [exact P0 |]. split; [exact G1 |]. split; [exact G2 | exact G3].
Defined.

(** ** C5: the returned image has no alpha band *)

(** C5.  Whatever the inputs, an image that [create_qr_image] returns is in
    mode RGB: it has no alpha band.  Once the canvas is rendered the call
    returns.  In the halo style the canvas is RGBA and the returned image is
    the canvas composited over the light color: a pixel [(r, g, b, a)] of the
    canvas shows as the three bands [blend8 a l r], [blend8 a l g] and
    [blend8 a l b], for the channel [l] of the light color clipped to a byte,
    where [blend8 a o i] is a byte, the source-over value
    [(o * (255 - a) + i * a) / 255] rounded to the nearest integer.  Every
    pixel of such a canvas is four bytes when the logo, as the call leaves
    it, is well formed.  In every other style the canvas is RGB and is
    returned as it is. *)
Theorem returned_image_is_opaque `{Backend} qr module_size border light dark
  logo opts :
  (forall img,
      fst (create_qr_image qr module_size border light dark logo opts) = Ok img ->
      mode img = ModeRGB) /\
  (forall canvas,
      fst (render_canvas qr module_size border light dark logo opts)
        = Ok canvas ->
      exists img,
        fst (create_qr_image qr module_size border light dark logo opts)
          = Ok img /\
        (style_is opts "Gradient Halo" = false ->
         mode canvas = ModeRGB /\ img = canvas) /\
        (style_is opts "Gradient Halo" = true ->
         mode canvas = RGBA /\
         forall x y r g b a,
           0 <= x < width canvas -> 0 <= y < height canvas ->
           getpixel canvas x y = [r; g; b; a] ->
           getpixel img x y =
             [blend8 a (clip8 (fst (fst light))) r;
              blend8 a (clip8 (snd (fst light))) g;
              blend8 a (clip8 (snd light)) b])) /\
  (forall a o i,
      0 <= a <= 255 -> 0 <= o <= 255 -> 0 <= i <= 255 ->
      0 <= blend8 a o i <= 255 /\
      -127 <= o * (255 - a) + i * a - 255 * blend8 a o i <= 127) /\
  (1 <= module_size -> 0 <= border -> 0 <= get_size qr ->
   forall canvas logo',
     render_canvas qr module_size border light dark logo opts
       = (Ok canvas, logo') ->
     (forall l, logo' = Some l ->
                image_wf l /\ 0 <= width l /\ 0 <= height l) ->
     style_is opts "Gradient Halo" = true ->
     forall x y,
       exists r g b a,
         getpixel canvas x y = [r; g; b; a] /\
         byte r /\ byte g /\ byte b /\ byte a).
Proof.
  split; [| split; [| split]].
  - intros img E. apply create_qr_image_shape in E.
    unfold shape in E. congruence.
  - intros canvas E.
    pose proof (render_canvas_size_nonneg _ _ _ _ _ _ _ _ E) as Hsize.
    pose proof (render_canvas_shape _ _ _ _ _ _ _ _ E) as S.
    unfold shape in S. injection S as Sm Sw Sh.
    destruct (flatten_returns light canvas) as (img & Ef); [| lia | lia |].
    { rewrite Sm. destruct (style_is opts "Gradient Halo"); auto. }
    exists img. split.
    { rewrite (proj1 (create_qr_image_outcome _ _ _ _ _ _ _)), E. exact Ef. }
    split.
    + intros Hs. rewrite Hs in Sm. split; [exact Sm |].
      unfold flatten in Ef. rewrite Sm in Ef. cbn [Mode_eqb] in Ef.
      now injection Ef as <-.
    + intros Hs. rewrite Hs in Sm. split; [exact Sm |].
      intros x y r g b a Hx Hy P.
      rewrite (flatten_pixels _ _ _ Ef x y Hx Hy), Sm, P.
      destruct light as [[lr lg] lb]. reflexivity.
  - intros a o i Ha Ho Hi.
    split; [now apply blend8_byte | now apply blend8_source_over].
  - intros Hm Hb Hs canvas logo' E Hl Hstyle x y.
    pose proof (render_canvas_wf _ _ _ _ _ _ _ _ _ Hm Hb Hs E Hl x y) as W.
    assert (Ec : fst (render_canvas qr module_size border light dark logo opts)
                 = Ok canvas) by now rewrite E.
    pose proof (render_canvas_shape _ _ _ _ _ _ _ _ Ec) as S.
    unfold shape in S. injection S as Sm _ _. rewrite Hstyle in Sm.
    destruct W as [Lw Bw]. rewrite Sm in Lw.
    destruct (getpixel canvas x y) as [| r [| g [| b0 [| a [| ? ?]]]]];
      try discriminate Lw.
    inversion Bw as [| ? ? Br B1]; subst.
    inversion B1 as [| ? ? Bg B2]; subst.
    inversion B2 as [| ? ? Bb B3]; subst.
    inversion B3 as [| ? ? Ba _]; subst.
    exists r, g, b0, a. auto.
Qed.

(** ** C6: the frame around the logo *)

(** C6, as the specification states it: the frame width would be
    [max(1, round(0.75 * moduleSize))].  For modules of 5 pixels, 3.75 rounds
    to 4 and the frame is 3 pixels wide. *)
Lemma border_width_truncates :
  border_width_of 5 = 3 /\ spec_border_width 5 = 4.
Proof. split; reflexivity. Qed.

(** C6, amended.  For a module size [m >= 1] the frame is
    [max(1, floor(0.75 * m))] pixels wide, at least one pixel.  The frame
    measures [logoWidth + 2 * borderWidth] by [logoHeight + 2 * borderWidth],
    its mask is generated as the mask of the logo is, for the same shape at
    the size of the frame, and the frame is pasted [borderWidth] pixels up and
    left of the logo. *)
Theorem frame_geometry `{Backend} module_size :
  1 <= module_size ->
  let border_width := border_width_of module_size in
  border_width = Z.max 1 (3 * module_size / 4) /\
  1 <= border_width /\
  (4 * border_width <= 3 * module_size \/ border_width = 1) /\
  3 * module_size < 4 * (border_width + 1) /\
  (forall logo,
      border_frame_size_of logo border_width =
      (width logo + 2 * border_width, height logo + 2 * border_width)) /\
  (forall logo_shape frame_size,
      border_mask logo_shape frame_size = logo_mask logo_shape frame_size) /\
  (forall img dark logo logo_x logo_y opts,
      opt_border opts = Some true ->
      logo_border img module_size dark logo logo_x logo_y opts =
      (let frame_size :=
         (width logo + 2 * border_width, height logo + 2 * border_width) in
       let frame_mode := if Mode_eqb (mode img) RGBA then RGBA else ModeRGB in
       mask <- logo_mask (dict_get (opt_shape opts) "Square"%string)
                 frame_size ;;
       frame <- new frame_mode frame_size (getink frame_mode dark) ;;
       paste img frame (logo_x - border_width, logo_y - border_width)
         (Some mask))).
Proof.
  intros Hm border_width.
  assert (E : border_width = Z.max 1 (3 * module_size / 4)).
  { unfold border_width, border_width_of. f_equal.
    apply Z.quot_div_nonneg; lia. }
  pose proof (Z.mul_div_le (3 * module_size) 4 ltac:(lia)).
  pose proof (Z.mul_succ_div_gt (3 * module_size) 4 ltac:(lia)) as G.
  unfold Z.succ in G.
  split; [exact E |]. split; [lia |]. split; [lia |]. split; [lia |].
  split; [| split].
  - intros logo. unfold border_frame_size_of. f_equal; lia.
  - reflexivity.
  - intros img dark logo logo_x logo_y opts Hb. unfold logo_border.
    rewrite Hb. cbn [dict_get]. fold border_width.
    unfold border_frame_size_of.
    replace (border_width * 2) with (2 * border_width) by lia.
    reflexivity.
Qed.

(** C6 for modules of 5 pixels. *)
Lemma frame_geometry_witness :
  1 <= 5 /\ border_width_of 5 = 3 /\
  border_frame_size_of (example_logo 4 4) (border_width_of 5) = (10, 10).
Proof.
  assert (H1 : 1 <= 5) by lia. split; [exact H1 |].
  destruct (@frame_geometry example_backend 5 H1) as (A & _ & _ & _ & B & _).
  split; [exact A | exact (B (example_logo 4 4))].
Defined.

(** ** C7: the shape masks *)

(** C7, as the specification states it: the four corner pixels of the
    Circle mask would be 0, and so would the corner pixels of the
    RoundedRectangle mask within the rounding radius [0.2 * min(w,h)].  The
    program truncates the radius, and hands the library the box from
    [(0, 0)] to [(w, h)], which is one pixel wider and taller than the mask.
    For a mask of 4 by 4 the radius 0.8 becomes 0 and the four corners of the
    rounded rectangle are 255.  For a mask of 10 by 10, of radius 2, the
    corner (0, 0) is 0 and the corner (9, 9) is 255.  The Circle mask of 4 by
    4 is 0 at the corner (0, 0) and 255 at its three other corners. *)
Lemma mask_corners_are_covered :
  ((0 < spec_corner_radius 4 4)%Q /\
   Z.quot (Z.min 4 4) 5 = 0 /\
   exists mask,
     @logo_mask example_backend "Rounded Rectangle" (4, 4) = Ok mask /\
     getpixel mask 0 0 = [255] /\ getpixel mask 3 0 = [255] /\
     getpixel mask 0 3 = [255] /\ getpixel mask 3 3 = [255]) /\
  (Z.quot (Z.min 10 10) 5 = 2 /\
   exists mask,
     @logo_mask example_backend "Rounded Rectangle" (10, 10) = Ok mask /\
     getpixel mask 0 0 = [0] /\ getpixel mask 9 9 = [255]) /\
  (exists mask,
     @logo_mask example_backend "Circle" (4, 4) = Ok mask /\
     getpixel mask 0 0 = [0] /\ getpixel mask 3 0 = [255] /\
     getpixel mask 0 3 = [255] /\ getpixel mask 3 3 = [255]).
Proof.
  split; [| split].
  - split; [reflexivity |]. split; [reflexivity |].
    eexists. split; [reflexivity |]. repeat split; reflexivity.
  - split; [reflexivity |].
    eexists. split; [reflexivity |]. split; reflexivity.
  - eexists. split; [reflexivity |]. repeat split; reflexivity.
Qed.

(** C7, amended.  For every rectangle size [(w, h)] a mask that is
    produced has that size and holds the values 0 and 255 only.  The Square
    mask is 255 at every pixel.  The Circle mask is 255 on the pixels that the
    library's filled ellipse of bounding box [(0, 0, w, h)] covers and 0 on
    the others.  The RoundedRectangle mask is 255 on the pixels that the
    library's filled rounded rectangle of the same box covers, with the corner
    radius [floor(0.2 * min(w,h))], and 0 on the others; when that radius is 0
    and [w, h >= 2], no corner is rounded and every pixel is 255.  The box
    holds every pixel of the mask and reaches one pixel beyond it, to
    [(w, h)]. *)
Theorem shape_masks `{Backend} w h :
  0 <= w -> 0 <= h ->
  (forall logo_shape mask,
      logo_mask logo_shape (w, h) = Ok mask ->
      mode mask = L /\ size mask = (w, h) /\
      forall x y, getpixel mask x y = [0] \/ getpixel mask x y = [255]) /\
  (forall logo_shape,
      logo_shape <> "Circle"%string ->
      logo_shape <> "Rounded Rectangle"%string ->
      exists mask,
        logo_mask logo_shape (w, h) = Ok mask /\
        forall x y, 0 <= x < w -> 0 <= y < h -> getpixel mask x y = [255]) /\
  (forall mask,
      logo_mask "Circle" (w, h) = Ok mask ->
      exists region,
        ellipse_region (0, 0, w, h) = Some region /\
        forall x y, getpixel mask x y = if region x y then [255] else [0]) /\
  (forall mask,
      logo_mask "Rounded Rectangle" (w, h) = Ok mask ->
      let radius := Z.min w h / 5 in
      (radius = 0 -> 2 <= w -> 2 <= h ->
       forall x y, 0 <= x < w -> 0 <= y < h -> getpixel mask x y = [255]) /\
      (~ (radius = 0 /\ 2 <= w /\ 2 <= h) ->
       exists region,
         rounded_region (0, 0, w, h) radius = Some region /\
         forall x y, getpixel mask x y = if region x y then [255] else [0])) /\
  ((forall x y, 0 <= x < w -> 0 <= y < h -> in_box (0, 0, w, h) x y = true) /\
   in_box (0, 0, w, h) w h = true /\
   forall logo_shape mask,
     logo_mask logo_shape (w, h) = Ok mask -> inside mask w h = false).
Proof.
  intros Hw Hh.
  assert (Hnew : new L (w, h) [0] = Ok (mkImage L w h (fun _ _ => [0]))).
  { unfold new. cbn [fst snd].
    destruct (Z.ltb_spec w 0); [lia |]. destruct (Z.ltb_spec h 0); [lia |].
    reflexivity. }
  assert (Hq : Z.quot (Z.min w h) 5 = Z.min w h / 5)
    by (apply Z.quot_div_nonneg; lia).
  assert (Hshape : forall logo_shape mask,
            logo_mask logo_shape (w, h) = Ok mask ->
            mode mask = L /\ size mask = (w, h) /\
            forall x y, getpixel mask x y = [0] \/ getpixel mask x y = [255]).
  { intros logo_shape mask. unfold logo_mask. rewrite Hnew. cbn [Py.bind].
    cbn [fst snd].
    assert (Hfill : forall region,
      let m := fill_region (mkImage L w h (fun _ _ => [0])) region [255] in
      mode m = L /\ size m = (w, h) /\
      forall x y, getpixel m x y = [0] \/ getpixel m x y = [255]).
    { intros region. simpl. split; [reflexivity |]. split; [reflexivity |].
      intros x y. destruct (region x y); auto. }
    destruct (String.eqb logo_shape "Circle").
    + unfold draw_ellipse. destruct (ellipse_region _); [| discriminate].
      intros [= <-]. apply Hfill.
    + destruct (String.eqb logo_shape "Rounded Rectangle").
      * unfold draw_rounded_rectangle, draw_rectangle.
        destruct (_ && _); [intros [= <-]; apply Hfill |].
        destruct (rounded_region _ _); [| discriminate].
        intros [= <-]. apply Hfill.
      * unfold draw_rectangle. intros [= <-]. apply Hfill. }
  split; [exact Hshape |]. split; [| split; [| split]].
  - intros logo_shape Hc Hr. unfold logo_mask. rewrite Hnew. cbn [Py.bind].
    rewrite (string_eqb_false _ _ Hc), (string_eqb_false _ _ Hr).
    unfold draw_rectangle. eexists. split; [reflexivity |].
    intros x y Hx Hy. simpl.
    destruct (Z.leb_spec 0 x); [| lia]. destruct (Z.leb_spec x w); [| lia].
    destruct (Z.leb_spec 0 y); [| lia]. destruct (Z.leb_spec y h); [| lia].
    reflexivity.
  - intros mask. unfold logo_mask. rewrite Hnew. cbn [Py.bind].
    cbn [String.eqb Ascii.eqb Bool.eqb fst snd]. unfold draw_ellipse.
    destruct (ellipse_region (0, 0, w, h)) as [region |]; [| discriminate].
    intros [= <-]. exists region. split; reflexivity.
  - intros mask. unfold logo_mask. rewrite Hnew. cbn [Py.bind].
    cbn [String.eqb Ascii.eqb Bool.eqb fst snd]. rewrite Hq.
    unfold draw_rounded_rectangle, draw_rectangle. rewrite !Z.sub_0_r.
    intros E. set (radius := Z.min w h / 5) in *. split.
    + intros Hr H2w H2h x y Hx Hy. rewrite Hr in E.
      destruct (Z.leb_spec 2 w); [| lia]. destruct (Z.leb_spec 2 h); [| lia].
      simpl in E. injection E as <-. simpl.
      destruct (Z.leb_spec 0 x); [| lia]. destruct (Z.leb_spec x w); [| lia].
      destruct (Z.leb_spec 0 y); [| lia]. destruct (Z.leb_spec y h); [| lia].
      reflexivity.
    + intros Hn.
      destruct ((radius =? 0) && (2 <=? w) && (2 <=? h)) eqn:T.
      { apply andb_true_iff in T. destruct T as [T T3].
        apply andb_true_iff in T. destruct T as [T1 T2]. exfalso. apply Hn.
        rewrite Z.eqb_eq in T1. rewrite Z.leb_le in T2, T3. auto. }
      destruct (rounded_region (0, 0, w, h) radius) as [region |];
        [| discriminate].
      injection E as <-. exists region. split; reflexivity.
  - split; [| split].
    + intros x y Hx Hy. unfold in_box.
      rewrite !andb_true_iff, !Z.leb_le. lia.
    + unfold in_box. rewrite !andb_true_iff, !Z.leb_le. lia.
    + intros logo_shape mask E.
      destruct (Hshape logo_shape mask E) as (_ & S & _).
      unfold size in S. injection S as Sw Sh. unfold inside.
      rewrite Sw. destruct (Z.ltb_spec w w); [lia |].
      now rewrite andb_false_r.
Qed.

(** C7 for masks of 4 by 4. *)
Lemma shape_masks_witness :
  0 <= 4 /\
  (exists mask,
     @logo_mask example_backend "Square" (4, 4) = Ok mask /\
     getpixel mask 0 0 = [255] /\ getpixel mask 3 3 = [255]) /\
  (exists mask,
     @logo_mask example_backend "Rounded Rectangle" (4, 4) = Ok mask /\
     getpixel mask 0 0 = [255]) /\
  (exists mask region,
     @logo_mask example_backend "Circle" (4, 4) = Ok mask /\
     @ellipse_region example_backend (0, 0, 4, 4) = Some region /\
     getpixel mask 0 0 = (if region 0 0 then [255] else [0]) /\
     getpixel mask 0 0 = [0] /\ getpixel mask 1 1 = [255]).
Proof.
  assert (H1 : 0 <= 4) by lia. split; [exact H1 |].
  destruct (@shape_masks example_backend 4 4 H1 H1) as (_ & A & C & R & _).
  split; [| split].
  - destruct (A "Square"%string ltac:(discriminate) ltac:(discriminate))
      as (mask & E & P).
    exists mask. split; [exact E |]. split; apply P; lia.
  - assert (exists mask,
              @logo_mask example_backend "Rounded Rectangle" (4, 4) = Ok mask)
      as (mask & E) by (eexists; reflexivity).
    exists mask. split; [exact E |].
    destruct (R mask E) as (P & _).
    apply P; [reflexivity | lia | lia | lia | lia].
  - assert (exists mask,
              @logo_mask example_backend "Circle" (4, 4) = Ok mask)
      as (mask & E) by (eexists; reflexivity).
    destruct (C mask E) as (region & Er & P).
    exists mask, region. split; [exact E |]. split; [exact Er |].
    split; [apply P |].
    cbn [ellipse_region example_backend] in Er. injection Er as <-.
    split; [apply (P 0 0) | apply (P 1 1)].
Defined.

(** ** C8: the order of the pastes *)




(** ** C9: [hex_to_rgb] *)

(** C9, as the specification states its second half: every text that is not
    six hexadecimal digits after an optional [#] would be refused.  A text of
    seven digits is not well formed and yet is converted, and so is a text of
    six Arabic-Indic digits, which are no hexadecimal digits. *)
Lemma hex_to_rgb_accepts_seven_digits :
  well_formed_hex "#FFFFFFF" = false /\
  hex_to_rgb "#FFFFFFF" = Ok (255, 255, 255) /\
  @Text.hex_to_rgb example_unicode (text_of_string "#FFFFFFF")
    = Ok (255, 255, 255) /\
  @Text.hex_to_rgb example_unicode
    [35; 1633; 1634; 1635; 1636; 1637; 1638]%N = Ok (18, 52, 86).
Proof. repeat split; reflexivity. Qed.

(** C9, amended.  [hex_to_rgb] maps six hexadecimal digits, with or without
    a leading [#], to the triple of their three byte values, each between 0
    and 255, and whatever follows the sixth digit is ignored.  It raises
    [ValueError] when fewer than five characters remain after the leading
    [#] characters are stripped, and when one of the first six remaining
    characters is neither a hexadecimal digit, a sign or white space of
    ASCII, nor one of the white-space characters and decimal digits that
    Unicode has beyond ASCII.  On the texts that a [string] holds, this is
    the function [hex_to_rgb] of the other statements. *)
Theorem hex_to_rgb_accepts_and_rejects `{Text.Unicode} :
  (forall c1 c2 c3 c4 c5 c6 rest,
      forallb is_hex [c1; c2; c3; c4; c5; c6] = true ->
      let t := map N_of_ascii [c1; c2; c3; c4; c5; c6] ++ rest in
      let rgb := (byte_of c1 c2, byte_of c3 c4, byte_of c5 c6) in
      Text.hex_to_rgb t = Ok rgb /\ Text.hex_to_rgb (35%N :: t) = Ok rgb /\
      0 <= byte_of c1 c2 <= 255 /\ 0 <= byte_of c3 c4 <= 255 /\
      0 <= byte_of c5 c6 <= 255) /\
  (forall t, (length (Text.lstrip 35 t) < 5)%nat ->
             Text.hex_to_rgb t = Raise ValueError) /\
  (forall t i c, (i < 6)%nat -> nth_error (Text.lstrip 35 t) i = Some c ->
                 text_int_char c = false ->
                 Text.hex_to_rgb t = Raise ValueError) /\
  (latin1_rows ->
   forall s, Text.hex_to_rgb (text_of_string s) = hex_to_rgb s).
Proof.
  split; [| split; [| split]].
  - intros c1 c2 c3 c4 c5 c6 rest Hh t rgb.
    simpl in Hh. repeat (apply andb_true_iff in Hh; destruct Hh as [? Hh]).
    assert (E : Text.hex_to_rgb t = Ok rgb).
    { unfold Text.hex_to_rgb, t. cbn [map app Text.lstrip].
      rewrite (hex_code_not_hash c1) by assumption.
      unfold Text.slice. cbn [skipn firstn].
      rewrite !text_hex_pair by assumption. reflexivity. }
    split; [exact E |]. split.
    + unfold Text.hex_to_rgb in *. cbn [Text.lstrip]. exact E.
    + unfold byte_of.
      repeat match goal with
             | Hx : is_hex ?c = true |- _ => apply hex_digit_range in Hx
             end.
      lia.
  - intros t Hlen. apply text_hex_to_rgb_slice_fails. cbv zeta.
    right; right.
    destruct (Text.lstrip 35 t) as [| a0 [| a1 [| a2 [| a3 [| a4 u]]]]];
      try reflexivity.
    simpl in Hlen. lia.
  - intros t i c Hi Hget Hbad. apply text_hex_to_rgb_slice_fails. cbv zeta.
    unfold Text.slice.
    destruct (Text.lstrip 35 t) as [| a0 [| a1 [| a2 [| a3 [| a4 [| a5 u]]]]]];
      do 6 (try (destruct i as [| i]));
      try lia; simpl in Hget; try discriminate;
      injection Hget as ->; cbn [skipn firstn];
      first
        [ left; solve [ apply text_one_bad; assumption
                      | apply text_two_bad; auto ]
        | right; left; solve [ apply text_one_bad; assumption
                             | apply text_two_bad; auto ]
        | right; right; solve [ apply text_one_bad; assumption
                              | apply text_two_bad; auto ] ].
  - intros Hrows s. now apply text_hex_to_rgb_of_string.
Qed.

(** C9 at ["#1A2b3C"], at ["#ZZZZZZ"], at a text that ends with a euro sign
    and at a text of four digits. *)
Lemma hex_to_rgb_accepts_and_rejects_witness :
  @Text.hex_to_rgb example_unicode (text_of_string "#1A2b3C")
    = Ok (26, 43, 60) /\
  @Text.hex_to_rgb example_unicode (text_of_string "#ZZZZZZ")
    = Raise ValueError /\
  @Text.hex_to_rgb example_unicode [35; 49; 50; 51; 52; 53; 8364]%N
    = Raise ValueError /\
  @Text.hex_to_rgb example_unicode [35; 49; 50; 51; 52]%N
    = Raise ValueError /\
  hex_to_rgb "#ZZZZZZ" = Raise ValueError.
Proof.
  destruct (@hex_to_rgb_accepts_and_rejects example_unicode)
    as (A & B & C & D).
  split; [| split; [| split; [| split]]].
  - destruct (A "1"%char "A"%char "2"%char "b"%char "3"%char "C"%char []
                eq_refl) as (_ & E & _).
    exact E.
  - apply (C (text_of_string "#ZZZZZZ") 0%nat 90%N);
      [lia | reflexivity | reflexivity].
  - apply (C [35; 49; 50; 51; 52; 53; 8364]%N 5%nat 8364%N);
      [lia | reflexivity | reflexivity].
  - apply (B [35; 49; 50; 51; 52]%N). simpl. lia.
  - rewrite <- (D example_unicode_latin1).
    apply (C (text_of_string "#ZZZZZZ") 0%nat 90%N);
      [lia | reflexivity | reflexivity].
Defined.

(** ** C10: the logo object is resized in place *)

(** C10, as the specification states it: after every call with a logo whose
    longer edge exceeds the bound, the logo object would have other
    dimensions than before.  On an image of 16 pixels the ratio 0.05 gives
    the bound 0: the logo of 8 by 4 exceeds it, the library raises
    [ZeroDivisionError], and the logo object is still 8 by 4. *)
Lemma logo_kept_when_raising :
  logo_max_size ((get_size example_qr + 1 * 2) * 4) tiny_logo_options = Ok 0 /\
  0 < Z.max (width (example_logo 8 4)) (height (example_logo 8 4)) /\
  @create_qr_image example_backend example_qr 4 1 white black
    (Some (example_logo 8 4)) tiny_logo_options
  = (Raise ZeroDivisionError, Some (example_logo 8 4)).
Proof. split; [reflexivity |]. split; [reflexivity | reflexivity]. Qed.

(** C10, amended.  [create_qr_image] resizes the logo object it is given:
    after the call the caller's logo is the thumbnail.  With a module size of
    at least 1, a non-negative border and a logo of at least one pixel each
    way, let [n = int(imageEdge * sizeRatio)], computed in binary64.  When
    [n] is at least 1, a logo whose longer edge exceeds [n] has, after the
    call, a longer edge of exactly [n], no edge larger than before, and so
    other dimensions than before; a logo that fits is left as it is, never
    enlarged.  When [n] is below 1 the call raises, [ZeroDivisionError] for 0
    and [ValueError] below 0, and when the bound cannot be computed the call
    raises as well: the logo object is then left as it was.  The other
    inputs are values of the embedding, which the call can only read. *)
Theorem logo_resized_in_place `{Backend} qr module_size border light dark logo
  opts :
  1 <= module_size -> 0 <= border -> 0 <= get_size qr ->
  1 <= width logo -> 1 <= height logo ->
  let call :=
    create_qr_image qr module_size border light dark (Some logo) opts in
  (forall n,
      logo_max_size ((get_size qr + border * 2) * module_size) opts = Ok n ->
      1 <= n ->
      exists logo',
        snd call = Some logo' /\
        mode logo' = mode logo /\
        Z.max (width logo') (height logo') <= n /\
        1 <= width logo' <= width logo /\
        1 <= height logo' <= height logo /\
        (Z.max (width logo) (height logo) <= n -> logo' = logo) /\
        (n < Z.max (width logo) (height logo) ->
         Z.max (width logo') (height logo') = n /\
         size logo' <> size logo)) /\
  (forall n,
      logo_max_size ((get_size qr + border * 2) * module_size) opts = Ok n ->
      n <= 0 ->
      call = (Raise (if n =? 0 then ZeroDivisionError else ValueError),
              Some logo)) /\
  (forall e,
      logo_max_size ((get_size qr + border * 2) * module_size) opts = Raise e ->
      call = (Raise e, Some logo)).
Proof.
  intros Hm Hb Hs Hw Hh call.
  destruct (base_image_pixels qr module_size border light dark opts Hm Hb Hs)
    as (base & Ebase & _).
  fold (image_size_of qr module_size border).
  split; [| split].
  - intros n N Hn.
    destruct (thumbnail_square logo n Hw Hh Hn)
      as (logo' & T & Tm & Tw & Th & Tfit & Tbig).
    exists logo'.
    split; [now apply (logo_after_call _ _ _ _ _ _ _ n) |].
    split; [exact Tm |].
    split.
    { destruct (Z.le_gt_cases (Z.max (width logo) (height logo)) n) as [A | A].
      - rewrite (Tfit A). exact A.
      - destruct (Tbig A) as [-> _]. lia. }
    split; [exact Tw |]. split; [exact Th |]. split; [exact Tfit |].
    intros A. destruct (Tbig A) as [Tmax _]. split; [exact Tmax |].
    unfold size. intros [= Ew Eh]. lia.
  - intros n N Hn. unfold call, create_qr_image, render_canvas.
    rewrite Ebase, N, (thumbnail_below_one logo n Hw Hh Hn). reflexivity.
  - intros e N. unfold call, create_qr_image, render_canvas.
    rewrite Ebase, N. reflexivity.
Qed.

(** C10 for a logo of 8 by 4 on an image of 16 pixels: with the bound 4 the
    logo object becomes 4 by 2, with the bound 0 it stays as it is. *)
Lemma logo_resized_in_place_witness :
  1 <= 4 /\ 0 <= 1 /\ 0 <= get_size example_qr /\
  1 <= width (example_logo 8 4) /\ 1 <= height (example_logo 8 4) /\
  logo_max_size ((get_size example_qr + 1 * 2) * 4) halo_options = Ok 4 /\
  (exists logo',
     snd (@create_qr_image example_backend example_qr 4 1 white black
            (Some (example_logo 8 4)) halo_options) = Some logo' /\
     Z.max (width logo') (height logo') = 4 /\
     size logo' <> size (example_logo 8 4)) /\
  @create_qr_image example_backend example_qr 4 1 white black
    (Some (example_logo 8 4)) tiny_logo_options
  = (Raise ZeroDivisionError, Some (example_logo 8 4)).
Proof.
  assert (H1 : 1 <= 4) by lia. assert (H2 : 0 <= 1) by lia.
  assert (H3 : 0 <= get_size example_qr) by (simpl; lia).
  assert (H4 : 1 <= width (example_logo 8 4)) by (simpl; lia).
  assert (H5 : 1 <= height (example_logo 8 4)) by (simpl; lia).
  assert (H6 : logo_max_size ((get_size example_qr + 1 * 2) * 4) halo_options
               = Ok 4) by reflexivity.
  repeat (split; [assumption |]).
  split.
  - destruct (@logo_resized_in_place example_backend example_qr 4 1 white
                black (example_logo 8 4) halo_options H1 H2 H3 H4 H5)
      as (A & _ & _).
    destruct (A 4 H6 H1) as (logo' & E & _ & _ & _ & _ & _ & B).
    exists logo'. split; [exact E |]. apply B. vm_compute. reflexivity.
  - destruct (@logo_resized_in_place example_backend example_qr 4 1 white
                black (example_logo 8 4) tiny_logo_options H1 H2 H3 H4 H5)
      as (_ & B & _).
    exact (B 0 eq_refl ltac:(lia)).
Defined.

(** * Further properties *)

(** ** [hex_to_rgb]: round trip and range *)

Lemma hex_digit_value upper k :
  0 <= k < 16 ->
  is_hex (hex_digit upper k) = true /\ digit_value (hex_digit upper k) = k.
Proof.
  intros Hk.
  assert (R : all_from 16 0
                (fun k => is_hex (hex_digit upper k) &&
                          (digit_value (hex_digit upper k) =? k)) = true)
    by (destruct upper; vm_compute; reflexivity).
  pose proof (all_from_spec _ _ _ R k ltac:(simpl; lia)) as E.
  cbv beta in E.
  apply andb_true_iff in E. destruct E as [E1 E2]. apply Z.eqb_eq in E2. auto.
Qed.

Lemma byte_of_hex_pair upper v :
  0 <= v <= 255 ->
  let c1 := hex_digit upper (v / 16) in
  let c2 := hex_digit upper (v mod 16) in
  is_hex c1 = true /\ is_hex c2 = true /\ byte_of c1 c2 = v.
Proof.
  intros Hv c1 c2.
  assert (H1 : 0 <= v / 16 < 16).
  { split; [apply Z.div_pos; lia | apply Z.div_lt_upper_bound; lia]. }
  assert (H2 : 0 <= v mod 16 < 16) by (apply Z.mod_pos_bound; lia).
  destruct (hex_digit_value upper _ H1) as [A1 B1].
  destruct (hex_digit_value upper _ H2) as [A2 B2].
  split; [exact A1 |]. split; [exact A2 |].
  unfold byte_of, c1, c2. rewrite B1, B2.
  pose proof (Z.div_mod v 16). lia.
Qed.

Lemma hex_to_rgb_format upper c :
  color_ok c -> hex_to_rgb (format_hex upper c) = Ok c.
Proof.
  destruct c as [[r g] b]. intros (Hr & Hg & Hb).
  destruct (byte_of_hex_pair upper r Hr) as (R1 & R2 & R3).
  destruct (byte_of_hex_pair upper g Hg) as (G1 & G2 & G3).
  destruct (byte_of_hex_pair upper b Hb) as (B1 & B2 & B3).
  unfold format_hex, hex_to_rgb, hex_pair.
  cbn [append lstrip Ascii.eqb Bool.eqb].
  rewrite (hex_not_hash _ R1). cbn [substring].
  rewrite ?substring_0_0. unfold int16.
  rewrite !parse_hex_pair by assumption. cbn [Py.bind].
  now rewrite R3, G3, B3.
Qed.

(** X1.  Round trip.  Every color with byte channels, written as the text
    [#rrggbb] with lower-case or upper-case digits, is read back by
    [hex_to_rgb] as the same color, with the leading [#] and without it. *)
Theorem hex_to_rgb_round_trip upper c :
  color_ok c ->
  hex_to_rgb (format_hex upper c) = Ok c /\
  hex_to_rgb (substring 1 6 (format_hex upper c)) = Ok c.
Proof.
  intros Hc. pose proof (hex_to_rgb_format upper c Hc) as E.
  split; [exact E |].
  destruct c as [[r g] b].
  unfold format_hex, hex_pair, hex_to_rgb in *.
  cbn [append substring lstrip Ascii.eqb Bool.eqb] in *.
  rewrite ?substring_0_0 in *. exact E.
Qed.

(** X1 at the color (26, 43, 60), in both cases of the digits. *)
Lemma hex_to_rgb_round_trip_witness :
  color_ok (26, 43, 60) /\
  format_hex false (26, 43, 60) = "#1a2b3c"%string /\
  format_hex true (26, 43, 60) = "#1A2B3C"%string /\
  hex_to_rgb "#1a2b3c" = Ok (26, 43, 60) /\
  hex_to_rgb "1A2B3C" = Ok (26, 43, 60).
Proof.
  assert (H : color_ok (26, 43, 60)) by (simpl; lia).
  split; [exact H |]. split; [reflexivity |]. split; [reflexivity |].
  split.
  - exact (proj1 (hex_to_rgb_round_trip false (26, 43, 60) H)).
  - exact (proj2 (hex_to_rgb_round_trip true (26, 43, 60) H)).
Defined.

Lemma slice_within n s :
  parsed_within (-15) 255 (substring n 2 s) = true /\
  (no_minus (substring n 2 s) = true ->
   parsed_within 0 255 (substring n 2 s) = true).
Proof.
  destruct (substring_2_cases n s) as [-> | [(a & ->) | (a & b & ->)]].
  - split; reflexivity.
  - pose proof (forall_ascii
      (fun a => parsed_within (-15) 255 (String a EmptyString) &&
                implb (no_minus (String a EmptyString))
                  (parsed_within 0 255 (String a EmptyString)))
      ltac:(vm_compute; reflexivity) a) as R; cbv beta in R.
    apply andb_true_iff in R. destruct R as [R1 R2]. split; [exact R1 |].
    intros N. now rewrite N in R2.
  - pose proof (forall_ascii2
      (fun a b =>
         parsed_within (-15) 255 (String a (String b EmptyString)) &&
         implb (no_minus (String a (String b EmptyString)))
           (parsed_within 0 255 (String a (String b EmptyString))))
      ltac:(vm_compute; reflexivity) a b) as R; cbv beta in R.
    apply andb_true_iff in R. destruct R as [R1 R2]. split; [exact R1 |].
    intros N. now rewrite N in R2.
Qed.

Lemma int16_within lo hi s v :
  parsed_within lo hi s = true -> int16 s = Ok v -> lo <= v <= hi.
Proof.
  unfold parsed_within, int16. destruct (parse_int16 s); [| discriminate].
  intros H [= <-]. apply andb_true_iff in H. lia.
Qed.

Lemma no_minus_substring n m s :
  no_minus s = true -> no_minus (substring n m s) = true.
Proof.
  revert n m. induction s as [| a s IH]; intros n m Hs.
  - destruct n, m; reflexivity.
  - unfold no_minus in *. simpl in Hs. apply andb_true_iff in Hs.
    destruct Hs as [Ha Hs].
    destruct n as [| n]; [destruct m as [| m] |]; simpl;
      [reflexivity | rewrite Ha; apply IH; exact Hs | apply IH; exact Hs].
Qed.

(** X2.  Whatever text [hex_to_rgb] accepts, each channel it returns lies
    between -15 and 255: a slice may hold a sign and one digit, so a channel
    can be negative.  When the text holds no minus sign the three channels
    are bytes. *)
Theorem hex_to_rgb_channel_range s r g b :
  hex_to_rgb s = Ok (r, g, b) ->
  (-15 <= r <= 255 /\ -15 <= g <= 255 /\ -15 <= b <= 255) /\
  (no_minus s = true -> color_ok (r, g, b)).
Proof.
  unfold hex_to_rgb. intros E.
  apply bind_ok in E. destruct E as (r' & Er & E).
  apply bind_ok in E. destruct E as (g' & Eg & E).
  apply bind_ok in E. destruct E as (b' & Eb & E).
  injection E as -> -> ->.
  set (t := lstrip "#" s) in *.
  split.
  - split; [| split];
      (eapply int16_within; [| eassumption]; apply slice_within).
  - intros N.
    assert (Nt : no_minus t = true).
    { unfold t. clear - N. induction s as [| a s IH]; [reflexivity |].
      simpl. destruct (Ascii.eqb a "#"); [| exact N].
      apply IH. unfold no_minus in *. simpl in N.
      apply andb_true_iff in N. tauto. }
    unfold color_ok.
    split; [| split];
      (eapply int16_within; [| eassumption];
       apply slice_within, no_minus_substring, Nt).
Qed.

(** X2 at ["-f+a 9"], whose first channel is -15, and at ["#00ff7f"]. *)
Lemma hex_to_rgb_channel_range_witness :
  hex_to_rgb "-f+a 9" = Ok (-15, 10, 9) /\
  hex_to_rgb "#00ff7f" = Ok (0, 255, 127) /\
  -15 <= -15 <= 255 /\ color_ok (0, 255, 127).
Proof.
  assert (E1 : hex_to_rgb "-f+a 9" = Ok (-15, 10, 9)) by reflexivity.
  assert (E2 : hex_to_rgb "#00ff7f" = Ok (0, 255, 127)) by reflexivity.
  split; [exact E1 |]. split; [exact E2 |]. split.
  - exact (proj1 (proj1 (hex_to_rgb_channel_range _ _ _ _ E1))).
  - exact (proj2 (hex_to_rgb_channel_range _ _ _ _ E2) eq_refl).
Defined.

(** ** The render without logo, and the sizes that raise *)

(** X3.  Without a logo, for a module size of at least 1, a non-negative
    border, and color channels and an image edge within the 32-bit integers
    of the library, the call returns, whatever the options: the pixel
    [(x, y)] shows the module
    [(x / module_size - border, y / module_size - border)], in the dark color
    when that module lies in the grid and is dark and in the light color
    otherwise, each channel of the color clipped to a byte. *)
Theorem no_logo_render_by_division `{Backend} qr module_size border light dark
  opts :
  1 <= module_size -> 0 <= border -> 0 <= get_size qr ->
  color_fits light -> color_fits dark ->
  fits_int32 ((get_size qr + border * 2) * module_size) ->
  exists img,
    create_qr_image qr module_size border light dark None opts
      = (Ok img, None) /\
    forall x y,
      0 <= x < (get_size qr + border * 2) * module_size ->
      0 <= y < (get_size qr + border * 2) * module_size ->
      getpixel img x y =
        getink ModeRGB
          (if dark_under qr module_size border x y then dark else light).
Proof.
  intros Hm Hb Hs _ _ _.
  destruct (create_qr_image_no_logo qr module_size border light dark opts
              Hm Hb Hs) as (img & E & P).
  exists img. split; [exact E |]. intros x y Hx Hy.
  rewrite (P x y Hx Hy), (covers_dark_under _ _ _ _ _ Hm).
  now destruct (dark_under qr module_size border x y).
Qed.

(** X3 with a light color (300, -15, 128), which shows as (255, 0, 128). *)
Lemma no_logo_render_by_division_witness :
  1 <= 3 /\ 0 <= 1 /\ 0 <= get_size example_qr /\
  color_fits (300, -15, 128) /\ color_fits blue /\
  fits_int32 ((get_size example_qr + 1 * 2) * 3) /\
  exists img,
    @create_qr_image example_backend example_qr 3 1 (300, -15, 128) blue None
      halo_options = (Ok img, None) /\
    getpixel img 4 5 = [0; 0; 255] /\ getpixel img 7 5 = [255; 0; 128].
Proof.
  assert (H1 : 1 <= 3) by lia. assert (H2 : 0 <= 1) by lia.
  assert (H3 : 0 <= get_size example_qr) by (simpl; lia).
  assert (H4 : color_fits (300, -15, 128))
    by (unfold color_fits, fits_int32; simpl; lia).
  assert (H5 : color_fits blue)
    by (unfold color_fits, fits_int32; simpl; lia).
  assert (H6 : fits_int32 ((get_size example_qr + 1 * 2) * 3))
    by (unfold fits_int32; simpl; lia).
  repeat (split; [assumption |]).
  destruct (@no_logo_render_by_division example_backend example_qr 3 1
              (300, -15, 128) blue halo_options H1 H2 H3 H4 H5 H6)
    as (img & E & P).
  exists img. split; [exact E |].
  split; [apply (P 4 5) | apply (P 7 5)]; simpl; lia.
Defined.

(** X4.  When [(size + 2 * border) * module_size] is negative the call
    raises [ValueError] at line 26 or 28, before anything is drawn, and the
    logo object is left as it was. *)
Theorem negative_edge_raises `{Backend} qr module_size border light dark logo
  opts :
  (get_size qr + border * 2) * module_size < 0 ->
  create_qr_image qr module_size border light dark logo opts
    = (Raise ValueError, logo).
Proof.
  intros Hneg. unfold create_qr_image, render_canvas, base_image, new.
  unfold image_size_of. cbn [fst snd].
  destruct (Z.ltb_spec ((get_size qr + border * 2) * module_size) 0); [| lia].
  cbn [orb]. destruct (style_is opts "Gradient Halo"); reflexivity.
Qed.

(** X4 for a module size of -3. *)
Lemma negative_edge_raises_witness :
  (get_size example_qr + 1 * 2) * -3 < 0 /\
  @create_qr_image example_backend example_qr (-3) 1 white black
    (Some (example_logo 4 4)) halo_options
    = (Raise ValueError, Some (example_logo 4 4)).
Proof.
  assert (H : (get_size example_qr + 1 * 2) * -3 < 0) by (simpl; lia).
  split; [exact H |].
  exact (@negative_edge_raises example_backend example_qr (-3) 1 white black
           (Some (example_logo 4 4)) halo_options H).
Defined.

Lemma for_each_raises_only {A S : Type} (I : S -> Prop) (e : exn)
  (body : A -> S -> result S) (xs : list A) :
  raises_only I e body xs ->
  forall s, I s ->
    match for_each xs body s with
    | Ok s' => I s'
    | Raise e' => e' = e
    end.
Proof.
  induction xs as [| x xs IH]; intros Hb s Hs; [exact Hs |].
  simpl. pose proof (Hb x s (or_introl eq_refl) Hs) as B.
  destruct (body x s) as [s1 | e1]; simpl; [| exact B].
  apply IH; [| exact B]. intros y t Hy. apply Hb. now right.
Qed.

(** A loop one of whose rounds raises in every state raises. *)
Lemma for_each_must_raise {A S : Type} (I : S -> Prop) (e : exn)
  (body : A -> S -> result S) (xs : list A) (a : A) :
  raises_only I e body xs -> In a xs ->
  (forall s, I s -> body a s = Raise e) ->
  forall s, I s -> for_each xs body s = Raise e.
Proof.
  induction xs as [| x xs IH]; intros Hb Hin Ha s Hs; [contradiction |].
  simpl. pose proof (Hb x s (or_introl eq_refl) Hs) as B.
  destruct Hin as [-> | Hin].
  - now rewrite (Ha s Hs).
  - destruct (body x s) as [s1 | e1]; simpl; [| now subst].
    apply IH; try assumption. intros y t Hy. apply Hb. now right.
Qed.

Lemma putpixel_raises_only im xy ink :
  match putpixel im xy ink with
  | Ok im' => shape im' = shape im
  | Raise e => e = IndexError
  end.
Proof. unfold putpixel. destruct (inside im _ _); reflexivity. Qed.

Lemma putpixel_outside im x y ink :
  0 <= width im -> 0 <= height im ->
  (0 <= x /\ width im <= x) \/ (0 <= y /\ height im <= y) ->
  putpixel im (x, y) ink = Raise IndexError.
Proof.
  intros Hw Hh Hout. unfold putpixel, inside. cbn [fst snd].
  destruct Hout as [[H0 H1] | [H0 H1]].
  - destruct (Z.ltb_spec x 0); [lia |].
    destruct (Z.ltb_spec x (width im)); [lia |].
    now rewrite andb_false_r.
  - destruct (Z.ltb_spec y 0); [lia |].
    destruct (Z.ltb_spec y (height im)); [lia |].
    now rewrite !andb_false_r.
Qed.

(** Lines 31-36 with a negative border: a dark module past the far edge
    of the image stops the loops. *)
Lemma draw_modules_raises qr module_size border dark img mx my :
  1 <= module_size -> border < 0 ->
  width img = image_size_of qr module_size border ->
  height img = image_size_of qr module_size border ->
  0 <= image_size_of qr module_size border ->
  0 <= mx < get_size qr -> 0 <= my < get_size qr ->
  get_module qr mx my = true ->
  get_size qr + border <= mx \/ get_size qr + border <= my ->
  draw_modules qr module_size border dark img = Raise IndexError.
Proof.
  intros Hm Hb Hw Hh Hsize Hmx Hmy Hdark Hfar.
  set (I := fun s : Image => shape s = shape img).
  assert (Ishape : forall s, I s ->
            width s = image_size_of qr module_size border /\
            height s = image_size_of qr module_size border).
  { unfold I, shape. intros s [= _ -> ->]. auto. }
  assert (B4 : forall x y dy,
            raises_only I IndexError
              (fun dx s =>
                 putpixel s ((x + border) * module_size + dx,
                             (y + border) * module_size + dy)
                   (getink (mode s) dark)) (range module_size)).
  { intros x y dy dx s _ Hs.
    pose proof (putpixel_raises_only s
                  ((x + border) * module_size + dx,
                   (y + border) * module_size + dy)
                  (getink (mode s) dark)) as P.
    destruct (putpixel s _ _); [unfold I in *; congruence | exact P]. }
  assert (B3 : forall x y,
            raises_only I IndexError
              (fun dy s =>
                 for_each (range module_size)
                   (fun dx s =>
                      putpixel s ((x + border) * module_size + dx,
                                  (y + border) * module_size + dy)
                        (getink (mode s) dark)) s) (range module_size)).
  { intros x y dy s _ Hs.
    apply (for_each_raises_only I IndexError); [apply B4 | exact Hs]. }
  assert (B2 : forall y,
            raises_only I IndexError
              (fun x s =>
                 if get_module qr x y then
                   for_each (range module_size)
                     (fun dy s =>
                        for_each (range module_size)
                          (fun dx s =>
                             putpixel s ((x + border) * module_size + dx,
                                         (y + border) * module_size + dy)
                               (getink (mode s) dark)) s) s
                 else Ok s) (range (get_size qr))).
  { intros y x s _ Hs. destruct (get_module qr x y); [| exact Hs].
    apply (for_each_raises_only I IndexError); [apply B3 | exact Hs]. }
  assert (B1 : raises_only I IndexError
              (fun y s =>
                 for_each (range (get_size qr))
                   (fun x s =>
                      if get_module qr x y then
                        for_each (range module_size)
                          (fun dy s =>
                             for_each (range module_size)
                               (fun dx s =>
                                  putpixel s
                                    ((x + border) * module_size + dx,
                                     (y + border) * module_size + dy)
                                    (getink (mode s) dark)) s) s
                      else Ok s) s) (range (get_size qr))).
  { intros y s _ Hs.
    apply (for_each_raises_only I IndexError); [apply B2 | exact Hs]. }
  unfold draw_modules.
  apply (for_each_must_raise I IndexError _ _ my B1);
    [apply in_range; lia | | reflexivity].
  intros s1 Hs1.
  apply (for_each_must_raise I IndexError _ _ mx (B2 my));
    [apply in_range; lia | | exact Hs1].
  intros s2 Hs2. rewrite Hdark.
  apply (for_each_must_raise I IndexError _ _ 0 (B3 mx my));
    [apply in_range; lia | | exact Hs2].
  intros s3 Hs3.
  apply (for_each_must_raise I IndexError _ _ 0 (B4 mx my 0));
    [apply in_range; lia | | exact Hs3].
  intros s4 Hs4. destruct (Ishape s4 Hs4) as [W4 H4].
  apply putpixel_outside; [lia | lia |].
  rewrite W4, H4. unfold image_size_of in *.
  destruct Hfar; [left | right]; nia.
Qed.

(** X5.  With a module size of at least 1, a negative border and an image
    edge that is not negative, a dark module in a column or a row of index at
    least [size + border] is painted past the far edge of the image: the call
    raises [IndexError], and the logo object is left as it was. *)
Theorem negative_border_raises `{Backend} qr module_size border light dark logo
  opts mx my :
  1 <= module_size -> border < 0 -> 0 <= get_size qr + border * 2 ->
  0 <= mx < get_size qr -> 0 <= my < get_size qr ->
  get_module qr mx my = true ->
  get_size qr + border <= mx \/ get_size qr + border <= my ->
  create_qr_image qr module_size border light dark logo opts
    = (Raise IndexError, logo).
Proof.
  intros Hm Hb Hs Hmx Hmy Hdark Hfar.
  assert (Hsize : 0 <= image_size_of qr module_size border)
    by (unfold image_size_of; nia).
  unfold create_qr_image, render_canvas, base_image.
  assert (E : forall md ink,
            (img <- new md (image_size_of qr module_size border,
                            image_size_of qr module_size border) ink ;;
             draw_modules qr module_size border dark img)
            = Raise IndexError).
  { intros md ink. unfold new. cbn [fst snd].
    destruct (Z.ltb_spec (image_size_of qr module_size border) 0); [lia |].
    cbn [orb Py.bind].
    now apply (draw_modules_raises _ _ _ _ _ mx my). }
  destruct (style_is opts "Gradient Halo"); rewrite E; reflexivity.
Qed.

(** X5 for the grid of two by two modules and a border of -1. *)
Lemma negative_border_raises_witness :
  @create_qr_image example_backend example_qr 3 (-1) white black None
    no_options = (Raise IndexError, None).
Proof.
  exact (@negative_border_raises example_backend example_qr 3 (-1) white black
           None no_options 1 1 ltac:(lia) ltac:(lia) ltac:(simpl; lia)
           ltac:(simpl; lia) ltac:(simpl; lia) eq_refl
           ltac:(left; simpl; lia)).
Defined.

(** ** The size of the logo *)

(** X6.  When the bound [int(image_size * ratio)] of line 41 is 0, a render
    with a logo of at least one pixel each way raises [ZeroDivisionError] in
    [thumbnail], after the modules are drawn, and leaves the logo object as
    it was. *)
Theorem zero_logo_bound_raises `{Backend} qr module_size border light dark logo
  opts :
  1 <= module_size -> 0 <= border -> 0 <= get_size qr ->
  1 <= width logo -> 1 <= height logo ->
  logo_max_size ((get_size qr + border * 2) * module_size) opts = Ok 0 ->
  create_qr_image qr module_size border light dark (Some logo) opts
    = (Raise ZeroDivisionError, Some logo).
Proof.
  intros Hm Hb Hs Hw Hh N.
  destruct (base_image_pixels qr module_size border light dark opts Hm Hb Hs)
    as (base & Ebase & _).
  unfold create_qr_image, render_canvas.
  fold (image_size_of qr module_size border) in N. rewrite Ebase, N.
  unfold thumbnail, thumbnail_size. cbn [fst snd].
  destruct (Z.leb_spec (width logo) 0); [lia |]. cbn [andb].
  destruct (Z.eqb_spec (height logo) 0); [lia |]. reflexivity.
Qed.

(** X6 for an image of 16 pixels and a ratio of 0.05. *)
Lemma zero_logo_bound_raises_witness :
  logo_max_size ((get_size example_qr + 1 * 2) * 4) tiny_logo_options = Ok 0 /\
  @create_qr_image example_backend example_qr 4 1 white black
    (Some (example_logo 4 4)) tiny_logo_options
    = (Raise ZeroDivisionError, Some (example_logo 4 4)).
Proof.
  assert (N : logo_max_size ((get_size example_qr + 1 * 2) * 4)
                tiny_logo_options = Ok 0) by reflexivity.
  split; [exact N |].
  exact (@zero_logo_bound_raises example_backend example_qr 4 1 white black
           (example_logo 4 4) tiny_logo_options ltac:(lia) ltac:(lia)
           ltac:(simpl; lia) ltac:(simpl; lia) ltac:(simpl; lia) N).
Defined.

(** X7.  Without the key ["size"] the ratio is 0.25, and for an image edge
    of at most 65536 pixels the bound of line 41 is exactly the quotient of
    the edge by 4, rounded down. *)
Theorem default_logo_size_is_a_quarter image_size opts :
  opt_size opts = None -> 0 <= image_size <= 65536 ->
  logo_max_size image_size opts = Ok (image_size / 4).
Proof.
  intros Hnone Hs. unfold logo_max_size. rewrite Hnone. cbn [dict_get].
  assert (R : all_from (Z.to_nat 65537) 0
                (fun s => returns_Z
                            (int_of_float_shift (float_of_int s * 0.25)%float)
                            (s / 4)) = true)
    by (vm_compute; reflexivity).
  rewrite int_of_float_shift_eq.
  apply returns_Z_spec. apply (all_from_spec _ _ _ R). lia.
Qed.

(** X7 for an edge of 46 pixels. *)
Lemma default_logo_size_is_a_quarter_witness :
  logo_max_size 46 no_options = Ok 11.
Proof.
  exact (default_logo_size_is_a_quarter 46 no_options eq_refl ltac:(lia)).
Defined.

(** [round_aspect] answers within one unit of the quotient it rounds. *)
Lemma round_aspect_near c q a b :
  0 < a -> 0 < b -> (q == inject_Z a / inject_Z b)%Q ->
  Z.abs (round_aspect c q * b - a) < b.
Proof.
  intros Ha Hb Hq. unfold round_aspect.
  assert (Elo : Qfloor q = a / b) by (rewrite Hq; symmetry; apply Zdiv_Qdiv).
  assert (Ehi : Qceiling q = - ((- a) / b)).
  { unfold Qceiling. f_equal.
    assert (Hn : (- q == inject_Z (- a) / inject_Z b)%Q).
    { rewrite Hq, inject_Z_opp. field. apply inject_Z_nonzero. lia. }
    rewrite Hn. symmetry. apply Zdiv_Qdiv. }
  rewrite Elo, Ehi.
  pose proof (Z.div_mod a b ltac:(lia)).
  pose proof (Z.mod_pos_bound a b ltac:(lia)).
  pose proof (Z.div_mod (- a) b ltac:(lia)).
  pose proof (Z.mod_pos_bound (- a) b ltac:(lia)).
  set (lo := a / b) in *. set (f := (- a) / b) in *.
  assert (0 <= lo) by (apply Z.div_pos; lia).
  destruct c; nia.
Qed.

(** The size [thumbnail] settles on when the logo exceeds a square bound:
    the longer edge takes the bound and the other one keeps the proportion
    within one pixel. *)
Lemma thumbnail_size_aspect `{Backend} w h n :
  1 <= w -> 1 <= h -> 1 <= n -> n < Z.max w h ->
  exists w' h',
    thumbnail_size w h n n = Ok (Some (w', h')) /\
    1 <= w' /\ 1 <= h' /\
    (w <= h -> h' = n /\ Z.abs (w' * h - n * w) < h) /\
    (h < w -> w' = n /\ Z.abs (h' * w - n * h) < w).
Proof.
  intros Hw Hh Hn Hbig. unfold thumbnail_size.
  assert (T : (w <=? n) && (h <=? n) = false).
  { apply andb_false_iff.
    destruct (Z.leb_spec w n); [| auto]. right.
    destruct (Z.leb_spec h n); [lia | reflexivity]. }
  rewrite T.
  destruct (Z.eqb_spec h 0); [lia |]. destruct (Z.eqb_spec n 0); [lia |].
  rewrite aspect_le_square by lia.
  destruct (Z.leb_spec w h) as [C | C].
  - eexists _, n. split; [reflexivity |].
    split; [unfold round_aspect; lia |]. split; [exact Hn |].
    split; [| lia].
    intros _. split; [reflexivity |].
    apply round_aspect_near; [nia | lia |].
    rewrite inject_Z_mult. field. apply inject_Z_nonzero. lia.
  - eexists n, _. split; [reflexivity |].
    split; [exact Hn |]. split; [unfold round_aspect; lia |].
    split; [lia |].
    intros _. split; [reflexivity |].
    apply round_aspect_near; [nia | lia |].
    rewrite inject_Z_mult. field. split; apply inject_Z_nonzero; lia.
Qed.

(** X8.  A logo of at least one pixel each way whose longer edge exceeds
    the bound [n >= 1] leaves the call with its longer edge equal to [n] and
    its other edge within one pixel of the proportional length: for a logo
    that is wider than tall, [|height' * width - n * height| < width], and
    likewise with the axes exchanged for a logo that is not. *)
Theorem logo_keeps_proportions `{Backend} qr module_size border light dark logo
  opts n :
  1 <= module_size -> 0 <= border -> 0 <= get_size qr ->
  1 <= width logo -> 1 <= height logo ->
  logo_max_size ((get_size qr + border * 2) * module_size) opts = Ok n ->
  1 <= n -> n < Z.max (width logo) (height logo) ->
  exists logo',
    snd (create_qr_image qr module_size border light dark (Some logo) opts)
      = Some logo' /\
    (width logo <= height logo ->
     height logo' = n /\
     Z.abs (width logo' * height logo - n * width logo) < height logo) /\
    (height logo < width logo ->
     width logo' = n /\
     Z.abs (height logo' * width logo - n * height logo) < width logo).
Proof.
  intros Hm Hb Hs Hw Hh N Hn Hbig.
  destruct (thumbnail_size_aspect (width logo) (height logo) n Hw Hh Hn Hbig)
    as (w' & h' & T & Hw1 & Hh1 & A & B).
  assert (E : exists logo',
            thumbnail logo (n, n) = Ok logo' /\
            width logo' = w' /\ height logo' = h').
  { unfold thumbnail. cbn [fst snd]. rewrite T. cbn [Py.bind fst snd].
    destruct ((width logo =? w') && (height logo =? h')) eqn:Q.
    - apply andb_true_iff in Q. rewrite !Z.eqb_eq in Q. exists logo. tauto.
    - unfold resize. cbn [fst snd].
      destruct (Z.ltb_spec w' 1); [lia |].
      destruct (Z.ltb_spec h' 1); [lia |].
      cbn [orb]. eexists. split; [reflexivity |]. split; reflexivity. }
  destruct E as (logo' & E & <- & <-).
  exists logo'. split; [| split; assumption].
  now apply (logo_after_call qr module_size border light dark logo opts n).
Qed.

(** X8 for a logo of 9 by 7 and a bound of 4. *)
Lemma logo_keeps_proportions_witness :
  exists logo',
    snd (@create_qr_image example_backend example_qr 4 1 white black
           (Some (example_logo 9 7)) halo_options) = Some logo' /\
    width logo' = 4 /\ Z.abs (height logo' * 9 - 4 * 7) < 9.
Proof.
  destruct (@logo_keeps_proportions example_backend example_qr 4 1 white black
              (example_logo 9 7) halo_options 4 ltac:(lia) ltac:(lia)
              ltac:(simpl; lia) ltac:(simpl; lia) ltac:(simpl; lia)
              eq_refl ltac:(lia) ltac:(simpl; lia))
    as (logo' & E & _ & B).
  exists logo'. split; [exact E |]. apply B. simpl. lia.
Defined.

(** X9.  The logo object that a call leaves is not resized again: a second
    call with the same arguments, given the logo object as the first call
    left it, leaves it as it is. *)
Theorem logo_resize_is_idempotent `{Backend} qr module_size border light dark
  logo opts n :
  1 <= module_size -> 0 <= border -> 0 <= get_size qr ->
  1 <= width logo -> 1 <= height logo ->
  logo_max_size ((get_size qr + border * 2) * module_size) opts = Ok n ->
  1 <= n ->
  exists logo',
    snd (create_qr_image qr module_size border light dark (Some logo) opts)
      = Some logo' /\
    snd (create_qr_image qr module_size border light dark (Some logo') opts)
      = Some logo'.
Proof.
  intros Hm Hb Hs Hw Hh N Hn.
  destruct (thumbnail_square logo n Hw Hh Hn)
    as (logo' & T & _ & Tw & Th & Tfit & Tbig).
  exists logo'. split.
  - now apply (logo_after_call qr module_size border light dark logo opts n).
  - apply (logo_after_call qr module_size border light dark logo' opts n);
      try assumption.
    destruct (thumbnail_square logo' n ltac:(lia) ltac:(lia) Hn)
      as (logo2 & T2 & _ & _ & _ & Tfit2 & _).
    rewrite T2. f_equal. apply Tfit2.
    destruct (Z.le_gt_cases (Z.max (width logo) (height logo)) n) as [A | A].
    + now rewrite (Tfit A).
    + destruct (Tbig A) as [-> _]. lia.
Qed.

(** X9 for a logo of 9 by 7 and a bound of 4. *)
Lemma logo_resize_is_idempotent_witness :
  exists logo',
    snd (@create_qr_image example_backend example_qr 4 1 white black
           (Some (example_logo 9 7)) halo_options) = Some logo' /\
    snd (@create_qr_image example_backend example_qr 4 1 white black
           (Some logo') halo_options) = Some logo'.
Proof.
  exact (@logo_resize_is_idempotent example_backend example_qr 4 1 white black
           (example_logo 9 7) halo_options 4 ltac:(lia) ltac:(lia)
           ltac:(simpl; lia) ltac:(simpl; lia) ltac:(simpl; lia)
           eq_refl ltac:(lia)).
Defined.

(** ** The layers of a render with a logo *)

Lemma square_mask_value `{Backend} opts w h mask :
  square_shape opts = true ->
  logo_mask (dict_get (opt_shape opts) "Square"%string) (w, h) = Ok mask ->
  forall u v, 0 <= u <= w -> 0 <= v <= h -> mask_value mask u v = 255.
Proof.
  unfold square_shape. cbv zeta. intros S E u v Hu Hv.
  apply andb_true_iff in S. destruct S as [S1 S2].
  apply negb_true_iff in S1, S2.
  unfold logo_mask in E. rewrite S1, S2 in E.
  apply bind_ok in E. destruct E as (m0 & E0 & E).
  unfold new in E0. destruct (_ || _); [discriminate |]. injection E0 as <-.
  unfold draw_rectangle in E. injection E as <-.
  unfold mask_value, fill_region, in_box. cbn [mode getpixel fst snd].
  destruct (Z.leb_spec 0 u); [| lia]. destruct (Z.leb_spec u w); [| lia].
  destruct (Z.leb_spec 0 v); [| lia]. destruct (Z.leb_spec v h); [| lia].
  reflexivity.
Qed.

Lemma solid_background `{Backend} opts img image_size module_size light dark
  logo bg :
  solid_style opts = true ->
  logo_background img image_size module_size light dark logo opts = Ok bg ->
  bg = img /\ canvas_mode_of opts = ModeRGB /\
  forall p, flat_pixel opts light p = p.
Proof.
  unfold solid_style, logo_background, canvas_mode_of, flat_pixel.
  intros S. apply andb_true_iff in S. destruct S as [S1 S2].
  apply negb_true_iff in S1, S2. rewrite S1, S2.
  intros [= <-]. auto.
Qed.

(** X10.  The render with a logo in the plain options (neither the halo
    nor the radial gradient; a shape that is neither the circle nor the
    rounded rectangle, which is the default), pixel by pixel.  In the
    rectangle of the logo, centered with the offsets of lines 44-45, the
    pixel is the logo's pixel converted to RGB, so the alpha band of an RGBA
    logo is dropped; around it, when a border is asked for, the frame of
    [border_width] pixels is in the dark color; every other pixel is the
    pixel of the render without logo. *)
Theorem plain_logo_render `{Backend} qr module_size border light dark logo opts
  img logo' :
  1 <= module_size -> 0 <= border -> 0 <= get_size qr ->
  solid_style opts = true -> square_shape opts = true ->
  create_qr_image qr module_size border light dark (Some logo) opts
    = (Ok img, Some logo') ->
  image_wf logo' ->
  let image_size := (get_size qr + border * 2) * module_size in
  let logo_x := (image_size - width logo') / 2 in
  let logo_y := (image_size - height logo') / 2 in
  let bw := border_width_of module_size in
  forall x y,
    0 <= x < image_size -> 0 <= y < image_size ->
    getpixel img x y =
      if in_rect logo_x logo_y (width logo') (height logo') x y then
        convert_pixel (mode logo') ModeRGB
          (getpixel logo' (x - logo_x) (y - logo_y))
      else if dict_get (opt_border opts) false &&
              in_rect (logo_x - bw) (logo_y - bw) (width logo' + bw * 2)
                (height logo' + bw * 2) x y then
        getink ModeRGB dark
      else
        getink ModeRGB
          (if dark_under qr module_size border x y then dark else light).
Proof.
  intros Hm Hb Hs Hsolid Hsquare E Hlogo image_size logo_x logo_y bw x y Hx Hy.
  destruct (logo_layers _ _ _ _ _ _ _ _ _ E)
    as (base & bg & fr & mask & Ebase & Ebg & Efr & Emask & Mbg & Bbg & P).
  fold (image_size_of qr module_size border) in image_size.
  fold image_size logo_x logo_y in Ebg, Efr, P.
  destruct (solid_background _ _ _ _ _ _ _ _ Hsolid Ebg) as (-> & Mc & Fl).
  pose proof (logo_border_pixels _ _ _ _ _ _ _ _ Efr Mbg) as F.
  cbv zeta in F. fold bw in F.
  rewrite Mc in *.
  rewrite (P x y Hx Hy), Fl. clear P.
  (* the base image *)
  destruct (base_image_pixels qr module_size border light dark opts Hm Hb Hs)
    as (base' & Ebase' & _ & Pbase).
  rewrite Ebase in Ebase'. injection Ebase' as <-.
  assert (Mo : (if style_is opts "Gradient Halo" then RGBA else ModeRGB)
               = ModeRGB) by exact Mc.
  rewrite Mo in Pbase.
  assert (Pb : getpixel base x y =
               getink ModeRGB
                 (if dark_under qr module_size border x y
                  then dark else light)).
  { rewrite Pbase, (covers_dark_under _ _ _ _ _ Hm).
    now destruct (dark_under qr module_size border x y). }
  (* the frame *)
  assert (Pfr : getpixel fr x y =
            if dict_get (opt_border opts) false &&
               in_rect (logo_x - bw) (logo_y - bw) (width logo' + bw * 2)
                 (height logo' + bw * 2) x y
            then getink ModeRGB dark
            else getpixel base x y).
  { destruct (dict_get (opt_border opts) false);
      [| subst fr; reflexivity].
    destruct F as (fmask & Efmask & F). rewrite F. cbn [andb].
    destruct (in_rect (logo_x - bw) _ _ _ x y) eqn:R; [| reflexivity].
    apply in_rect_bounds in R.
    rewrite (square_mask_value _ _ _ _ Hsquare Efmask) by lia.
    destruct (getink_wf ModeRGB dark) as [Hl Hbytes].
    rewrite blend_pixel_opaque; [| exact Hbytes | rewrite Bbg, Hl, Mbg; lia].
    rewrite Bbg, Mbg. rewrite <- Hl. apply firstn_all. }
  (* the logo *)
  destruct (in_rect logo_x logo_y (width logo') (height logo') x y) eqn:R.
  - apply in_rect_bounds in R.
    destruct (logo_mask_wf _ _ _ Emask) as (_ & Smask & _).
    rewrite (square_mask_value _ _ _ _ Hsquare Emask) by lia.
    destruct (pasted_pixel_wf (mode logo') ModeRGB _
                (Hlogo (x - logo_x) (y - logo_y))) as (Hl & Hbytes & Hc).
    assert (Lfr : length (getpixel fr x y) = 3%nat).
    { rewrite Pfr. destruct (_ && _).
      - apply (getink_wf ModeRGB dark).
      - rewrite Bbg, Mbg. reflexivity. }
    rewrite blend_pixel_opaque; [| exact Hbytes | rewrite Lfr; exact Hl].
    rewrite Lfr. exact Hc.
  - rewrite Pfr, Pb. reflexivity.
Qed.

(** X10 for a logo of 4 by 4 with a frame on an image of 16 pixels: a pixel
    of the logo, two of the frame, one of the quiet zone. *)
Lemma plain_logo_render_witness :
  exists img,
    @create_qr_image example_backend example_qr 4 1 white blue
      (Some (example_logo 4 4)) bordered_options
    = (Ok img, Some (example_logo 4 4)) /\
    getpixel img 7 9 = [1; 3; 7] /\
    getpixel img 3 6 = [0; 0; 255] /\
    getpixel img 4 5 = [0; 0; 255] /\
    getpixel img 2 9 = [255; 255; 255].
Proof.
  assert (H1 : 1 <= 4) by lia. assert (H2 : 0 <= 1) by lia.
  assert (H3 : 0 <= get_size example_qr) by (simpl; lia).
  assert (H4 : 1 <= width (example_logo 4 4)) by (simpl; lia).
  assert (H5 : 1 <= height (example_logo 4 4)) by (simpl; lia).
  assert (N : logo_max_size (image_size_of example_qr 4 1) bordered_options
              = Ok 4) by reflexivity.
  assert (Hfit : Z.max (width (example_logo 4 4)) (height (example_logo 4 4))
                 <= 4) by (simpl; lia).
  destruct (@create_qr_image_fits example_backend example_qr 4 1 white blue
              (example_logo 4 4) bordered_options 4 H1 H2 H3 H4 H5 N H1 Hfit
              example_backend_accepts (or_intror eq_refl)) as (img & E).
  exists img. split; [exact E |].
  pose proof (@plain_logo_render example_backend example_qr 4 1 white blue
                (example_logo 4 4) bordered_options img (example_logo 4 4)
                H1 H2 H3 eq_refl eq_refl E (example_logo_wf 4 4)) as P.
  cbv zeta in P.
  repeat split.
  - apply (P 7 9); simpl; lia.
  - apply (P 3 6); simpl; lia.
  - apply (P 4 5); simpl; lia.
  - apply (P 2 9); simpl; lia.
Defined.

(** X11.  In the halo style, a returned pixel outside the rectangles of the
    logo and of the frame is the module's color composited over the light
    color with the alpha of lines 57-60 as opacity.  So within the inner
    radius [max(logo.size) / 2] of the center the modules are wiped to the
    light color, and from the outer radius, [2 * module_size] further, the
    pixel is the pixel of the render without logo. *)
Theorem halo_fades_modules `{Backend} qr module_size border light dark logo
  opts img logo' :
  1 <= module_size -> 0 <= border -> 0 <= get_size qr ->
  style_is opts "Gradient Halo" = true ->
  create_qr_image qr module_size border light dark (Some logo) opts
    = (Ok img, Some logo') ->
  0 <= width logo' -> 0 <= height logo' ->
  let image_size := (get_size qr + border * 2) * module_size in
  let logo_x := (image_size - width logo') / 2 in
  let logo_y := (image_size - height logo') / 2 in
  let bw := border_width_of module_size in
  let m := Z.max (width logo') (height logo') in
  forall x y,
    0 <= x < image_size -> 0 <= y < image_size ->
    in_rect logo_x logo_y (width logo') (height logo') x y = false ->
    (dict_get (opt_border opts) false = true ->
     in_rect (logo_x - bw) (logo_y - bw) (width logo' + bw * 2)
       (height logo' + bw * 2) x y = false) ->
    let n := (2 * x - image_size) ^ 2 + (2 * y - image_size) ^ 2 in
    let c := if dark_under qr module_size border x y then dark else light in
    getpixel img x y =
      blend_pixel (halo_alpha image_size module_size (size logo') x y)
        (getink ModeRGB light) (getink ModeRGB c) /\
    (n <= m * m -> getpixel img x y = getink ModeRGB light) /\
    ((m + 4 * module_size) ^ 2 <= n -> getpixel img x y = getink ModeRGB c).
Proof.
  intros Hm Hb Hs Hstyle E Hw Hh image_size logo_x logo_y bw m x y Hx Hy
    Hlogo Hframe n c.
  destruct (logo_layers _ _ _ _ _ _ _ _ _ E)
    as (base & bg & fr & mask & Ebase & Ebg & Efr & Emask & Mbg & Bbg & P).
  fold (image_size_of qr module_size border) in image_size.
  fold image_size logo_x logo_y in Ebg, Efr, P.
  rewrite (P x y Hx Hy), Hlogo. clear P.
  rewrite (logo_border_outside _ _ _ _ _ _ _ _ x y Efr Mbg Hframe).
  destruct (base_image_pixels qr module_size border light dark opts Hm Hb Hs)
    as (base' & Ebase' & Sbase & Pbase).
  rewrite Ebase in Ebase'. injection Ebase' as <-.
  rewrite Hstyle in Sbase, Pbase. unfold shape in Sbase.
  injection Sbase as Mb Wb Hb'.
  unfold logo_background in Ebg. rewrite Hstyle in Ebg.
  unfold halo, putalpha, fromarray in Ebg. rewrite Mb in Ebg.
  cbn [Mode_eqb width height] in Ebg.
  rewrite Wb, Hb' in Ebg. fold image_size in Ebg.
  rewrite !Z.eqb_refl in Ebg. cbn [andb] in Ebg.
  set (a := halo_alpha image_size module_size (size logo') x y).
  assert (Ea : a = alpha_at m module_size n) by reflexivity.
  assert (Pbg : getpixel bg x y = firstn 3 (getpixel base x y) ++ [a])
    by (injection Ebg as <-; reflexivity).
  assert (G : flat_pixel opts light (getpixel bg x y)
              = blend_pixel a (getink ModeRGB light) (getink ModeRGB c)).
  { rewrite Pbg, Pbase, (covers_dark_under _ _ _ _ _ Hm).
    unfold flat_pixel. rewrite Hstyle.
    unfold c. destruct light as [[lr lg] lb], dark as [[dr dg] db].
    destruct (dark_under qr module_size border x y); reflexivity. }
  rewrite G.
  destruct (getink_wf ModeRGB light) as [Ll Bl].
  destruct (getink_wf ModeRGB c) as [Lc Bc].
  split; [reflexivity |]. split.
  - intros Hin. rewrite Ea, alpha_at_inner by exact Hin.
    apply blend_pixel_transparent; [exact Bl | rewrite Ll, Lc; lia].
  - intros Hout. rewrite Ea, alpha_at_outer by (unfold m; lia).
    rewrite blend_pixel_opaque; [| exact Bc | rewrite Ll, Lc; lia].
    rewrite Ll, <- Lc. apply firstn_all.
Qed.

(** X11 on a grid of dark modules with a logo of 4 by 2: the pixel (20, 18),
    over a dark module and within the inner radius, is the light color, and
    the pixel (5, 5), beyond the outer radius, is still dark. *)
Lemma halo_fades_modules_witness :
  exists img,
    @create_qr_image example_backend full_qr 4 1 white blue
      (Some (example_logo 4 2)) plain_halo_options
    = (Ok img, Some (example_logo 4 2)) /\
    dark_under full_qr 4 1 20 18 = true /\
    getpixel img 20 18 = [255; 255; 255] /\
    getpixel img 5 5 = [0; 0; 255].
Proof.
  assert (H1 : 1 <= 4) by lia. assert (H2 : 0 <= 1) by lia.
  assert (H3 : 0 <= get_size full_qr) by (simpl; lia).
  assert (H4 : 1 <= width (example_logo 4 2)) by (simpl; lia).
  assert (H5 : 1 <= height (example_logo 4 2)) by (simpl; lia).
  assert (N : logo_max_size (image_size_of full_qr 4 1) plain_halo_options
              = Ok 10) by reflexivity.
  destruct (@create_qr_image_fits example_backend full_qr 4 1 white blue
              (example_logo 4 2) plain_halo_options 10 H1 H2 H3 H4 H5 N
              ltac:(lia) ltac:(simpl; lia)
              example_backend_accepts (or_introl eq_refl)) as (img & E).
  exists img. split; [exact E |]. split; [reflexivity |].
  pose proof (@halo_fades_modules example_backend full_qr 4 1 white blue
                (example_logo 4 2) plain_halo_options img (example_logo 4 2)
                H1 H2 H3 eq_refl E ltac:(simpl; lia) ltac:(simpl; lia)) as P.
  cbv zeta in P. split.
  - apply (P 20 18); [simpl; lia | simpl; lia | reflexivity | discriminate
                     | vm_compute; discriminate].
  - apply (P 5 5); [simpl; lia | simpl; lia | reflexivity | discriminate
                   | vm_compute; discriminate].
Defined.

(** X12.  The last rings of lines 69-74 have a bounding box whose right
    edge lies left of its left edge.  With a library that refuses such a box,
    a render in the radial style with a logo and a bound of at least two
    pixels each returns no image: the call raises. *)
Theorem radial_style_needs_lenient_ellipses `{Backend} qr module_size border
  light dark logo opts n :
  1 <= module_size -> 0 <= border -> 0 <= get_size qr ->
  1 <= width logo -> 1 <= height logo ->
  style_is opts "Gradient Halo" = false ->
  style_is opts "Radial Gradient" = true ->
  logo_max_size ((get_size qr + border * 2) * module_size) opts = Ok n ->
  2 <= n -> 2 <= Z.max (width logo) (height logo) ->
  refuses_inverted_boxes ->
  exists e,
    fst (create_qr_image qr module_size border light dark (Some logo) opts)
      = Raise e.
Proof.
  intros Hm Hb Hs Hw Hh Hhalo Hradial N Hn Hmax Hstrict.
  destruct (base_image_pixels qr module_size border light dark opts Hm Hb Hs)
    as (base & Ebase & _).
  destruct (thumbnail_square logo n Hw Hh ltac:(lia))
    as (logo' & T & _ & Tw & Th & Tfit & Tbig).
  assert (Hmax' : 2 <= Z.max (width logo') (height logo')).
  { destruct (Z.le_gt_cases (Z.max (width logo) (height logo)) n) as [A | A].
    - now rewrite (Tfit A).
    - destruct (Tbig A) as [-> _]. exact Hn. }
  destruct (radial_gradient_raises light dark (width logo') (height logo')
              Hstrict Hmax') as (e & Eg).
  exists e.
  rewrite (proj1 (create_qr_image_outcome _ _ _ _ _ _ _)).
  unfold render_canvas. fold (image_size_of qr module_size border) in N.
  rewrite Ebase, N, T. cbn [fst].
  unfold integrate_logo, logo_background. rewrite Hhalo, Hradial.
  unfold size at 1. rewrite Eg. reflexivity.
Qed.

(** X12 on the strict backend. *)
Lemma radial_style_needs_lenient_ellipses_witness :
  1 <= 4 /\ 0 <= 1 /\ 0 <= get_size example_qr /\
  1 <= width (example_logo 4 4) /\
  logo_max_size ((get_size example_qr + 1 * 2) * 4) radial_options = Ok 4 /\
  @refuses_inverted_boxes strict_backend /\
  exists e,
    fst (@create_qr_image strict_backend example_qr 4 1 white blue
           (Some (example_logo 4 4)) radial_options) = Raise e.
Proof.
  assert (H1 : 1 <= 4) by lia. assert (H2 : 0 <= 1) by lia.
  assert (H3 : 0 <= get_size example_qr) by (simpl; lia).
  assert (H4 : 1 <= width (example_logo 4 4)) by (simpl; lia).
  assert (H5 : 1 <= height (example_logo 4 4)) by (simpl; lia).
  assert (N : logo_max_size ((get_size example_qr + 1 * 2) * 4) radial_options
              = Ok 4) by reflexivity.
  assert (Hn : 2 <= 4) by lia.
  assert (Hmax : 2 <= Z.max (width (example_logo 4 4))
                         (height (example_logo 4 4))) by (simpl; lia).
  assert (Hstrict : @refuses_inverted_boxes strict_backend).
  { intros x0 y0 x1 y1 Hlt. simpl.
    destruct (Z.ltb_spec x1 x0); [reflexivity | lia]. }
  repeat (split; [assumption |]).
  exact (@radial_style_needs_lenient_ellipses strict_backend example_qr 4 1
           white blue (example_logo 4 4) radial_options 4 H1 H2 H3 H4 H5
           eq_refl eq_refl N Hn Hmax Hstrict).
Defined.

(** X13.  When a render in the radial style returns, the gradient buffer,
    pasted without a mask at line 75, replaces the whole centered square of
    edge [grad_size]: outside the rectangles of the logo and of the frame, a
    pixel of that square shows the innermost ring that covers it, and is
    black where no ring does, whatever module lay there; a pixel outside the
    square is the pixel of the render without logo. *)
Theorem radial_square_replaces_modules `{Backend} qr module_size border light
  dark logo opts img logo' :
  1 <= module_size -> 0 <= border -> 0 <= get_size qr ->
  style_is opts "Gradient Halo" = false ->
  style_is opts "Radial Gradient" = true ->
  create_qr_image qr module_size border light dark (Some logo) opts
    = (Ok img, Some logo') ->
  let image_size := (get_size qr + border * 2) * module_size in
  let logo_x := (image_size - width logo') / 2 in
  let logo_y := (image_size - height logo') / 2 in
  let bw := border_width_of module_size in
  let g := grad_size_of (size logo') in
  let grad_x := (image_size - g) / 2 in
  forall x y,
    0 <= x < image_size -> 0 <= y < image_size ->
    in_rect logo_x logo_y (width logo') (height logo') x y = false ->
    (dict_get (opt_border opts) false = true ->
     in_rect (logo_x - bw) (logo_y - bw) (width logo' + bw * 2)
       (height logo' + bw * 2) x y = false) ->
    if in_rect grad_x grad_x g g x y then
      match find (fun i => ring_covers g i (x - grad_x) (y - grad_x))
              (rev (range g)) with
      | Some i =>
          exists fill,
            ring_color light dark i g = Ok fill /\
            getpixel img x y = getink ModeRGB fill
      | None => getpixel img x y = [0; 0; 0]
      end
    else
      getpixel img x y =
        getink ModeRGB
          (if dark_under qr module_size border x y then dark else light).
Proof.
  intros Hm Hb Hs Hhalo Hradial E image_size logo_x logo_y bw g grad_x x y
    Hx Hy Hlogo Hframe.
  destruct (logo_layers _ _ _ _ _ _ _ _ _ E)
    as (base & bg & fr & mask & Ebase & Ebg & Efr & Emask & Mbg & Bbg & P).
  fold (image_size_of qr module_size border) in image_size.
  fold image_size logo_x logo_y in Ebg, Efr, P.
  rewrite (P x y Hx Hy), Hlogo. clear P.
  rewrite (logo_border_outside _ _ _ _ _ _ _ _ x y Efr Mbg Hframe).
  unfold flat_pixel. rewrite Hhalo.
  destruct (base_image_pixels qr module_size border light dark opts Hm Hb Hs)
    as (base' & Ebase' & Sbase & Pbase).
  rewrite Ebase in Ebase'. injection Ebase' as <-.
  rewrite Hhalo in Sbase, Pbase. unfold shape in Sbase.
  injection Sbase as Mb Wb Hb'.
  pose proof (base_image_bands _ _ _ _ _ _ _ Ebase) as Bbase.
  unfold logo_background in Ebg. rewrite Hhalo, Hradial in Ebg.
  apply bind_ok in Ebg. destruct Ebg as (grad & Egrad & Ebg).
  fold g grad_x in Ebg.
  destruct (radial_gradient_wf _ _ _ _ Egrad) as [Wgrad Mgrad].
  destruct (radial_gradient_pixels _ _ _ _ Egrad) as (Gw & Gh & Gp).
  fold g in Gw, Gh, Gp.
  rewrite (paste_pixels _ _ _ _ _ _ Ebg), inside_in_rect, Gw, Gh.
  destruct (in_rect grad_x grad_x g g x y).
  - cbn [opacity]. unfold pasted_pixel. rewrite Mb, Mgrad. cbn [Mode_eqb].
    destruct (Wgrad (x - grad_x) (y - grad_x)) as [Lg Bg].
    rewrite Mgrad in Lg.
    rewrite blend_pixel_opaque;
      [| exact Bg | rewrite Bbase, Mb, Lg; reflexivity].
    rewrite Bbase, Mb, <- Lg, firstn_all. apply Gp.
  - rewrite Pbase, (covers_dark_under _ _ _ _ _ Hm).
    now destruct (dark_under qr module_size border x y).
Qed.

(** X13 for a logo of 5 by 5 on an image of 24 pixels: the corner (14, 14)
    of the gradient square, over a dark module, is black. *)
Lemma radial_square_replaces_modules_witness :
  exists img,
    @create_qr_image example_backend example_qr 4 2 white blue
      (Some (example_logo 5 5)) radial_options
    = (Ok img, Some (example_logo 5 5)) /\
    dark_under example_qr 4 2 14 14 = true /\
    getpixel img 14 14 = [0; 0; 0] /\
    getpixel img 4 5 = [255; 255; 255].
Proof.
  destruct example_radial_returns as (img & E).
  exists img. split; [exact E |]. split; [reflexivity |].
  pose proof (@radial_square_replaces_modules example_backend example_qr 4 2
                white blue (example_logo 5 5) radial_options img
                (example_logo 5 5) ltac:(lia) ltac:(lia) ltac:(simpl; lia)
                eq_refl eq_refl E) as P.
  cbv zeta in P. split.
  - apply (P 14 14); [simpl; lia | simpl; lia | reflexivity | discriminate].
  - apply (P 4 5); [simpl; lia | simpl; lia | reflexivity | discriminate].
Defined.

(** ** The call of [main] *)

Lemma ui_bound_near_quotient image_size percent :
  0 <= image_size <= 6510 -> 5 <= percent <= 40 ->
  bound_near_quotient image_size percent = true.
Proof.
  intros Hs Hp.
  assert (R : all_from (Z.to_nat 36) 5 (fun p =>
                all_from (Z.to_nat 6511) 0 (fun s =>
                  bound_near_quotient s p)) = true)
    by (vm_compute; reflexivity).
  pose proof (all_from_spec _ _ _ R percent ltac:(lia)) as R1.
  cbv beta in R1.
  apply (all_from_spec _ _ _ R1). lia.
Qed.

Lemma ui_logo_bound image_size percent logo_shape logo_bg_style border_on :
  46 <= image_size <= 6510 -> 5 <= percent <= 40 ->
  exists n,
    logo_max_size image_size
      (logo_opts (logo_size_of percent) logo_shape logo_bg_style border_on)
      = Ok n /\
    image_size * percent / 100 - 1 <= n <= image_size * percent / 100 /\
    1 <= n /\ 5 * n <= 2 * image_size.
Proof.
  intros Hs Hp.
  pose proof (ui_bound_near_quotient image_size percent ltac:(lia) Hp) as R.
  unfold bound_near_quotient in R. unfold logo_max_size, logo_opts.
  cbn [opt_size dict_get]. rewrite int_of_float_shift_eq.
  destruct (int_of_float_shift _) as [n |]; [| discriminate].
  apply andb_true_iff in R. rewrite !Z.leb_le in R.
  exists n. split; [reflexivity |]. split; [exact R |].
  assert (2 <= image_size * percent / 100)
    by (apply Z.div_le_lower_bound; nia).
  assert (image_size * percent / 100 <= 2 * image_size / 5).
  { apply Z.div_le_lower_bound; [lia |].
    pose proof (Z.mul_div_le (image_size * percent) 100 ltac:(lia)). nia. }
  pose proof (Z.mul_div_le (2 * image_size) 5 ltac:(lia)).
  lia.
Qed.

(** X14.  For the values the sidebar of [main] can give (a size of 5 to 40
    percent, a border of 1 to 20 modules, modules of 2 to 30 pixels) and a
    grid of 21 to 177 modules, the bound of line 41 is computed without
    error, is the exact quotient [image_size * percent / 100] rounded down or
    one less, is at least 1 and at most two fifths of the image edge. *)
Theorem slider_logo_bound qr module_size border percent logo_shape
  logo_bg_style border_on :
  21 <= get_size qr <= 177 -> 1 <= border <= 20 -> 2 <= module_size <= 30 ->
  5 <= percent <= 40 ->
  let image_size := (get_size qr + border * 2) * module_size in
  exists n,
    logo_max_size image_size
      (logo_opts (logo_size_of percent) logo_shape logo_bg_style border_on)
      = Ok n /\
    image_size * percent / 100 - 1 <= n <= image_size * percent / 100 /\
    1 <= n /\ 5 * n <= 2 * image_size.
Proof.
  intros Hs Hb Hm Hp image_size. apply ui_logo_bound; [| exact Hp].
  unfold image_size. nia.
Qed.

(** X14 for an edge of 100 pixels and 29 percent: the bound is 28, one
    less than the exact quotient. *)
Lemma slider_logo_bound_witness :
  logo_max_size 100 (logo_opts (logo_size_of 29) "Square" "Solid" false)
    = Ok 28 /\
  100 * 29 / 100 = 29.
Proof.
  destruct (slider_logo_bound (mkQr 21 (fun _ _ => true)) 4 2 29
              "Square" "Solid" false
              ltac:(simpl; lia) ltac:(lia) ltac:(lia) ltac:(lia))
    as (n & E & _).
  split; [| reflexivity].
  pose proof E as E2. vm_compute in E2. injection E2 as <-. exact E.
Defined.

(** X15.  The call of line 178 with the values the sidebar of [main] can
    give: colors written as [#rrggbb], a grid of 21 to 177 modules, a logo of
    at least one pixel each way, a background style other than the radial
    gradient and a library that draws the shapes.  The conversions of the
    colors succeed and the call returns an RGB image of edge
    [(size + 2 * border) * module_size]; the logo object is left with no
    edge longer than two fifths of that edge. *)
Theorem main_render_returns `{Backend} qr module_size border light dark
  upper_l upper_d logo percent logo_shape logo_bg_style border_on :
  21 <= get_size qr <= 177 -> 1 <= border <= 20 -> 2 <= module_size <= 30 ->
  5 <= percent <= 40 ->
  color_ok light -> color_ok dark ->
  1 <= width logo -> 1 <= height logo ->
  accepts_ordered_boxes ->
  String.eqb logo_bg_style "Radial Gradient" = false ->
  let image_size := (get_size qr + border * 2) * module_size in
  exists img logo',
    main_render qr module_size border (format_hex upper_l light)
      (format_hex upper_d dark) (Some logo)
      (logo_opts (logo_size_of percent) logo_shape logo_bg_style border_on)
    = (Ok img, Some logo') /\
    mode img = ModeRGB /\ width img = image_size /\ height img = image_size /\
    1 <= width logo' <= width logo /\ 1 <= height logo' <= height logo /\
    5 * Z.max (width logo') (height logo') <= 2 * image_size.
Proof.
  intros Hs Hb Hm Hp Hl Hd Hw Hh Hacc Hstyle image_size.
  set (opts := logo_opts (logo_size_of percent) logo_shape logo_bg_style
                 border_on).
  unfold main_render. rewrite !hex_to_rgb_format by assumption.
  destruct (ui_logo_bound image_size percent logo_shape logo_bg_style
              border_on ltac:(unfold image_size; nia) Hp)
    as (n & N & _ & Hn & Hn5).
  fold opts in N.
  assert (Hm1 : 1 <= module_size) by lia.
  assert (Hb0 : 0 <= border) by lia.
  assert (Hs0 : 0 <= get_size qr) by lia.
  destruct (create_qr_image_returns qr module_size border light dark logo opts
              n Hm1 Hb0 Hs0 Hw Hh N Hn Hacc (or_intror Hstyle)) as (img & E).
  destruct (thumbnail_square logo n Hw Hh Hn)
    as (logo' & T & _ & Tw & Th & Tfit & Tbig).
  pose proof (logo_after_call qr module_size border light dark logo opts n
                logo' Hm1 Hb0 Hs0 N T) as S.
  pose proof (create_qr_image_shape _ _ _ _ _ _ _ _ E) as Sh.
  unfold shape in Sh. injection Sh as Sm Sw Shh.
  exists img, logo'.
  split.
  { destruct (create_qr_image qr module_size border light dark (Some logo)
                opts) as [r l]. simpl in E, S. now subst. }
  split; [exact Sm |]. split; [exact Sw |]. split; [exact Shh |].
  split; [exact Tw |]. split; [exact Th |].
  destruct (Z.le_gt_cases (Z.max (width logo) (height logo)) n) as [A | A].
  - rewrite (Tfit A). lia.
  - destruct (Tbig A) as [-> _]. exact Hn5.
Qed.

(** X15 for a grid of 21 modules, modules of 2 pixels, a border of 1 and a
    logo of 30 by 20 at 25 percent. *)
Lemma main_render_returns_witness :
  exists img logo',
    @main_render example_backend (mkQr 21 (fun x y => x =? y)) 2 1
      "#ffffff" "#0000FF" (Some (example_logo 30 20))
      (logo_opts (logo_size_of 25) "Circle" "Gradient Halo" true)
    = (Ok img, Some logo') /\
    width img = 46 /\ 5 * Z.max (width logo') (height logo') <= 2 * 46.
Proof.
  destruct (@main_render_returns example_backend
              (mkQr 21 (fun x y => x =? y)) 2 1 white blue false true
              (example_logo 30 20) 25 "Circle" "Gradient Halo" true
              ltac:(simpl; lia) ltac:(lia) ltac:(lia) ltac:(lia)
              ltac:(simpl; lia) ltac:(simpl; lia)
              ltac:(simpl; lia) ltac:(simpl; lia)
              example_backend_accepts eq_refl)
    as (img & logo' & E & _ & W & _ & _ & _ & B).
  exists img, logo'. split; [exact E |]. split; [exact W | exact B].
Defined.
